(** * Pathfinding engine of the warehouse robot picker (src/Project.py)

    Shallow embedding of the grid model and of the five search loops of
    [WarehouseRobotPicker]: [get_neighbors], [heuristic],
    [reconstruct_path], [run_astar], [run_bfs], [run_dfs], [run_ucs],
    [run_dls], together with [find_path] and the [clear_path] it calls.

    Python dicts and sets keyed by coordinates are stdpp [gmap]s and
    [gset]s; the [while] loops are fuelled fixpoints whose fuel is computed
    from the grid dimensions, and running out of fuel is a separate
    outcome ([OutOfFuel]) that the termination theorems rule out.
    The Tk widgets, the frontier/visited overlays used only for drawing,
    the timing and the animation are not modelled. *)

From Stdlib Require Import ZArith Lia.
From Stdlib Require Import QArith.
From stdpp Require Import base list gmap sets strings.

Open Scope Z_scope.

(** ** Data model *)

(** [class CellType(Enum)] *)
Inductive CellType :=
| EMPTY | OBSTACLE | START | GOAL | PATH | VISITED | ROBOT | FRONTIER | CURRENT.

#[global] Instance CellType_eq_dec : EqDecision CellType.
Proof. solve_decision. Defined.

(** [class Algorithm(Enum)]: the values offered by the radio buttons. *)
Inductive Algorithm := ASTAR | BFS | DFS | UCS | DLS.

(** A cell coordinate [(row, col)]. *)
Abbreviation coord := (Z * Z)%type.

(** The part of [WarehouseRobotPicker] the search reads: [self.rows],
    [self.cols] and [self.grid] (a list of rows, each a list of cells). *)
Record Grid := mkGrid {
  rows : Z;
  cols : Z;
  grid : list (list CellType)
}.

(** [self.grid[r][c]] for [0 <= r < rows], [0 <= c < cols]. The search
    only reads cells inside these bounds, where the lookups succeed on a
    grid whose lists have the dimensions [rows] x [cols] ([grid_wf]); the
    [EMPTY] default is never reached there. *)
Definition cell_at (g : Grid) (r c : Z) : CellType :=
  match nth_error (grid g) (Z.to_nat r) with
  | Some row => match nth_error row (Z.to_nat c) with
                | Some t => t
                | None => EMPTY
                end
  | None => EMPTY
  end.

Definition grid_wf (g : Grid) : Prop :=
  Z.of_nat (length (grid g)) = rows g /\
  Forall (fun row => Z.of_nat (length row) = cols g) (grid g).

(** [0 <= new_row < self.rows and 0 <= new_col < self.cols] *)
Definition in_bounds (g : Grid) (p : coord) : bool :=
  (0 <=? p.1) && (p.1 <? rows g) && (0 <=? p.2) && (p.2 <? cols g).

Definition is_obstacle (g : Grid) (p : coord) : bool :=
  bool_decide (cell_at g p.1 p.2 = OBSTACLE).

(** [directions = [(-1, 0), (0, 1), (1, 0), (0, -1)]]: up, right, down, left *)
Definition directions : list coord := [(-1, 0); (0, 1); (1, 0); (0, -1)].

(** [get_neighbors(self, pos)]: the loop appends each admissible cell. *)
Definition get_neighbors (g : Grid) (pos : coord) : list coord :=
  let '(row, col) := pos in
  fold_left
    (fun neighbors (d : coord) =>
       let '(dr, dc) := d in
       let new_row := row + dr in
       let new_col := col + dc in
       if (0 <=? new_row) && (new_row <? rows g) &&
          (0 <=? new_col) && (new_col <? cols g) &&
          negb (bool_decide (cell_at g new_row new_col = OBSTACLE))
       then neighbors ++ [(new_row, new_col)]
       else neighbors)
    directions [].

(** [heuristic(self, pos1, pos2)]: Manhattan distance. *)
Definition heuristic (pos1 pos2 : coord) : Z :=
  Z.abs (pos1.1 - pos2.1) + Z.abs (pos1.2 - pos2.2).

(** [reconstruct_path(self, came_from, current)]: the [while current in
    came_from] loop, fuelled by the number of keys of [came_from] (a
    chain without repetition has at most that many steps); [None] when
    the fuel runs out. *)
Fixpoint reconstruct_loop (fuel : nat) (came_from : gmap coord coord)
    (current : coord) (path : list coord) : option (list coord) :=
  match came_from !! current with
  | None => Some path
  | Some prev =>
      match fuel with
      | O => None
      | S fuel' => reconstruct_loop fuel' came_from prev (path ++ [prev])
      end
  end.

Definition reconstruct_path (came_from : gmap coord coord) (current : coord)
    : option (list coord) :=
  match reconstruct_loop (size came_from) came_from current [current] with
  | Some path => Some (rev path)
  | None => None
  end.

(** The result of one run: the path found, the no-path outcome (for
    [run_dls] the "no path within depth limit" message), or the fuel of a
    modelled [while] loop exhausted. *)
Inductive outcome :=
| Found (path : list coord)
| NoPathFound
| OutOfFuel.

(** [self.stats["nodes_visited"]] and [self.stats["nodes_explored"]] at
    the end of the run, with the outcome. *)
Record run_result := mkResult {
  result : outcome;
  nodes_visited : nat;
  nodes_explored : nat
}.

Definition found_or_fuel (p : option (list coord)) : outcome :=
  match p with
  | Some path => Found path
  | None => OutOfFuel
  end.


(** ** The [heapq] priority queues of [run_astar] and [run_ucs]

    [heapq] keeps its entries [(priority, (row, col))] in a binary-heap
    array. The code observes the heap only through [heappop], which returns
    a least entry in Python's lexicographic tuple order (two least entries
    are equal tuples), and through the membership test
    [neighbor not in [item[1] for item in open_set]]; neither depends on
    the array layout, so the heap is the list of its entries. *)
Abbreviation entry := (Z * coord)%type.

Definition entry_ltb (a b : entry) : bool :=
  (a.1 <? b.1) ||
  ((a.1 =? b.1) && ((a.2.1 <? b.2.1) || ((a.2.1 =? b.2.1) && (a.2.2 <? b.2.2)))).

Fixpoint heap_min (m : entry) (h : list entry) : entry :=
  match h with
  | [] => m
  | e :: h' => heap_min (if entry_ltb e m then e else m) h'
  end.

Fixpoint remove_entry (e : entry) (h : list entry) : list entry :=
  match h with
  | [] => []
  | x :: h' => if decide (x = e) then h' else x :: remove_entry e h'
  end.

(** [heapq.heappop(open_set)] *)
Definition heappop (h : list entry) : option (entry * list entry) :=
  match h with
  | [] => None
  | e :: h' => let m := heap_min e h' in Some (m, remove_entry m h)
  end.

(** [heapq.heappush(open_set, e)] *)
Definition heappush (h : list entry) (e : entry) : list entry := h ++ [e].

(** One iteration of a [while] loop over the frontier: go on with the
    next state, or leave the loop with the run's result. *)
Inductive step_result (S : Type) :=
| Continue (st : S)
| Stop (r : run_result).
Arguments Continue {S} st.
Arguments Stop {S} r.

(** A [while] loop whose body is [step]; [out_of_fuel] reports the state
    reached when the fuel is exhausted. *)
Fixpoint while_loop {S : Type} (step : S -> step_result S)
    (out_of_fuel : S -> run_result) (fuel : nat) (st : S) : run_result :=
  match fuel with
  | O => out_of_fuel st
  | S fuel' =>
      match step st with
      | Stop r => r
      | Continue st' => while_loop step out_of_fuel fuel' st'
      end
  end.

(** Fuel of the search loops: five steps per cell of the grid, plus the
    start cell and one final step. *)
Definition search_fuel (g : Grid) : nat :=
  2 + 5 * (Z.to_nat (rows g) * Z.to_nat (cols g) + 1).

(** ** [run_bfs] *)
Module RunBFS.

(** [queue] is the [deque]: [popleft] at the head, [append] at the end. *)
Record state := mkState {
  queue : list coord;
  visited : gset coord;
  came_from : gmap coord coord;
  n_visited : nat;
  n_explored : nat
}.

(** One iteration of [for neighbor in self.get_neighbors(current)]. *)
Definition visit_neighbor (current : coord) (st : state) (neighbor : coord) : state :=
  if decide (neighbor ∈ visited st) then st
  else mkState (queue st ++ [neighbor]) ({[neighbor]} ∪ visited st)
         (<[neighbor:=current]> (came_from st)) (n_visited st) (S (n_explored st)).

Definition expand (g : Grid) (current : coord) (st : state) : state :=
  fold_left (visit_neighbor current) (get_neighbors g current) st.

(** The body of [while queue:] *)
Definition step (g : Grid) (goal : coord) (st : state) : step_result state :=
  match queue st with
  | [] => Stop (mkResult NoPathFound (n_visited st) (n_explored st))
  | current :: rest =>
      let st1 := mkState rest (visited st) (came_from st)
                   (S (n_visited st)) (n_explored st) in
      if decide (current = goal)
      then Stop (mkResult (found_or_fuel (reconstruct_path (came_from st1) current))
                   (n_visited st1) (n_explored st1))
      else Continue (expand g current st1)
  end.

Definition out_of_fuel (st : state) : run_result :=
  mkResult OutOfFuel (n_visited st) (n_explored st).

Definition loop (g : Grid) (goal : coord) (fuel : nat) (st : state) : run_result :=
  while_loop (step g goal) out_of_fuel fuel st.

Definition init (start : coord) : state := mkState [start] {[start]} ∅ 0 1.

End RunBFS.

Definition run_bfs (g : Grid) (start goal : coord) : run_result :=
  RunBFS.loop g goal (search_fuel g) (RunBFS.init start).

(** ** [run_dfs] *)
Module RunDFS.

(** [stack]: the top of the Python list (its last element) is the head. *)
Record state := mkState {
  stack : list coord;
  visited : gset coord;
  came_from : gmap coord coord;
  n_visited : nat;
  n_explored : nat
}.

Definition push_neighbor (current : coord) (st : state) (neighbor : coord) : state :=
  if decide (neighbor ∈ visited st) then st
  else mkState (neighbor :: stack st) (visited st)
         (<[neighbor:=current]> (came_from st)) (n_visited st) (S (n_explored st)).

(** [for neighbor in reversed(neighbors)] *)
Definition expand (g : Grid) (current : coord) (st : state) : state :=
  fold_left (push_neighbor current) (rev (get_neighbors g current)) st.

(** The body of [while stack:] *)
Definition step (g : Grid) (goal : coord) (st : state) : step_result state :=
  match stack st with
  | [] => Stop (mkResult NoPathFound (n_visited st) (n_explored st))
  | current :: rest =>
      if decide (current ∈ visited st)
      then Continue (mkState rest (visited st) (came_from st) (n_visited st) (n_explored st))
      else
        let st1 := mkState rest ({[current]} ∪ visited st) (came_from st)
                     (S (n_visited st)) (n_explored st) in
        if decide (current = goal)
        then Stop (mkResult (found_or_fuel (reconstruct_path (came_from st1) current))
                     (n_visited st1) (n_explored st1))
        else Continue (expand g current st1)
  end.

Definition out_of_fuel (st : state) : run_result :=
  mkResult OutOfFuel (n_visited st) (n_explored st).

Definition loop (g : Grid) (goal : coord) (fuel : nat) (st : state) : run_result :=
  while_loop (step g goal) out_of_fuel fuel st.

Definition init (start : coord) : state := mkState [start] ∅ ∅ 0 1.

End RunDFS.

Definition run_dfs (g : Grid) (start goal : coord) : run_result :=
  RunDFS.loop g goal (search_fuel g) (RunDFS.init start).

(** ** [run_dls] *)
Module RunDLS.

(** [stack] of [(node, depth)] pairs, top at the head. *)
Record state := mkState {
  stack : list (coord * Z);
  visited : gset coord;
  came_from : gmap coord coord;
  n_visited : nat;
  n_explored : nat
}.

Definition push_neighbor (current : coord) (depth : Z) (st : state) (neighbor : coord)
    : state :=
  if decide (neighbor ∈ visited st) then st
  else mkState ((neighbor, depth + 1) :: stack st) (visited st)
         (<[neighbor:=current]> (came_from st)) (n_visited st) (S (n_explored st)).

Definition expand (g : Grid) (current : coord) (depth : Z) (st : state) : state :=
  fold_left (push_neighbor current depth) (rev (get_neighbors g current)) st.

(** The body of [while stack:] *)
Definition step (g : Grid) (goal : coord) (depth_limit : Z) (st : state)
    : step_result state :=
  match stack st with
  | [] => Stop (mkResult NoPathFound (n_visited st) (n_explored st))
  | (current, depth) :: rest =>
      if decide (current ∈ visited st)
      then Continue (mkState rest (visited st) (came_from st) (n_visited st) (n_explored st))
      else
        let st1 := mkState rest ({[current]} ∪ visited st) (came_from st)
                     (S (n_visited st)) (n_explored st) in
        if decide (current = goal)
        then Stop (mkResult (found_or_fuel (reconstruct_path (came_from st1) current))
                     (n_visited st1) (n_explored st1))
        else if depth_limit <=? depth
        then Continue st1
        else Continue (expand g current depth st1)
  end.

Definition out_of_fuel (st : state) : run_result :=
  mkResult OutOfFuel (n_visited st) (n_explored st).

Definition loop (g : Grid) (goal : coord) (depth_limit : Z) (fuel : nat) (st : state)
    : run_result :=
  while_loop (step g goal depth_limit) out_of_fuel fuel st.

Definition init (start : coord) : state := mkState [(start, 0)] ∅ ∅ 0 1.

End RunDLS.

Definition run_dls (g : Grid) (depth_limit : Z) (start goal : coord) : run_result :=
  RunDLS.loop g goal depth_limit (search_fuel g) (RunDLS.init start).

(** [dict[key]] on a key the code knows to be present ([g_score[current]]
    for a popped [current], which always has a [g_score] entry). *)
Definition get_score (m : gmap coord Z) (k : coord) : Z :=
  match m !! k with Some v => v | None => 0 end.

(** ** [run_ucs] *)
Module RunUCS.

Record state := mkState {
  open_set : list entry;
  visited_cells : gset coord;
  came_from : gmap coord coord;
  g_score : gmap coord Z;
  n_visited : nat;
  n_explored : nat
}.

Definition visit_neighbor (current : coord) (st : state) (neighbor : coord) : state :=
  if decide (neighbor ∈ visited_cells st) then st
  else
    let tentative_g_score := get_score (g_score st) current + 1 in
    match g_score st !! neighbor with
    | Some gn => if tentative_g_score <? gn then
                   mkState (heappush (open_set st) (tentative_g_score, neighbor))
                     (visited_cells st) (<[neighbor:=current]> (came_from st))
                     (<[neighbor:=tentative_g_score]> (g_score st))
                     (n_visited st) (S (n_explored st))
                 else st
    | None => mkState (heappush (open_set st) (tentative_g_score, neighbor))
                (visited_cells st) (<[neighbor:=current]> (came_from st))
                (<[neighbor:=tentative_g_score]> (g_score st))
                (n_visited st) (S (n_explored st))
    end.

Definition expand (g : Grid) (current : coord) (st : state) : state :=
  fold_left (visit_neighbor current) (get_neighbors g current) st.

(** The body of [while open_set:] *)
Definition step (g : Grid) (goal : coord) (st : state) : step_result state :=
  match heappop (open_set st) with
  | None => Stop (mkResult NoPathFound (n_visited st) (n_explored st))
  | Some ((current_cost, current), rest) =>
      if decide (current ∈ visited_cells st)
      then Continue (mkState rest (visited_cells st) (came_from st) (g_score st)
                       (n_visited st) (n_explored st))
      else
        let st1 := mkState rest ({[current]} ∪ visited_cells st) (came_from st)
                     (g_score st) (S (n_visited st)) (n_explored st) in
        if decide (current = goal)
        then Stop (mkResult (found_or_fuel (reconstruct_path (came_from st1) current))
                     (n_visited st1) (n_explored st1))
        else Continue (expand g current st1)
  end.

Definition out_of_fuel (st : state) : run_result :=
  mkResult OutOfFuel (n_visited st) (n_explored st).

Definition loop (g : Grid) (goal : coord) (fuel : nat) (st : state) : run_result :=
  while_loop (step g goal) out_of_fuel fuel st.

Definition init (start : coord) : state :=
  mkState [(0, start)] ∅ ∅ {[start := 0]} 0 1.

End RunUCS.

Definition run_ucs (g : Grid) (start goal : coord) : run_result :=
  RunUCS.loop g goal (search_fuel g) (RunUCS.init start).

(** ** [run_astar] *)
Module RunAStar.

Record state := mkState {
  open_set : list entry;
  closed_set : gset coord;
  came_from : gmap coord coord;
  g_score : gmap coord Z;
  f_score : gmap coord Z;
  n_visited : nat;
  n_explored : nat
}.

(** The body of [if neighbor not in g_score or tentative_g_score <
    g_score[neighbor]]: record the better path, and push only a coordinate
    that no entry of the open list carries. *)
Definition improve (goal current neighbor : coord) (tentative_g_score : Z) (st : state)
    : state :=
  let came_from' := <[neighbor:=current]> (came_from st) in
  let g_score' := <[neighbor:=tentative_g_score]> (g_score st) in
  let f := tentative_g_score + heuristic neighbor goal in
  let f_score' := <[neighbor:=f]> (f_score st) in
  if decide (neighbor ∉ map snd (open_set st))
  then mkState (heappush (open_set st) (f, neighbor)) (closed_set st) came_from'
         g_score' f_score' (n_visited st) (S (n_explored st))
  else mkState (open_set st) (closed_set st) came_from' g_score' f_score'
         (n_visited st) (n_explored st).

Definition visit_neighbor (goal current : coord) (st : state) (neighbor : coord) : state :=
  if decide (neighbor ∈ closed_set st) then st
  else
    let tentative_g_score := get_score (g_score st) current + 1 in
    match g_score st !! neighbor with
    | Some gn => if tentative_g_score <? gn
                 then improve goal current neighbor tentative_g_score st
                 else st
    | None => improve goal current neighbor tentative_g_score st
    end.

Definition expand (g : Grid) (goal current : coord) (st : state) : state :=
  fold_left (visit_neighbor goal current) (get_neighbors g current) st.

(** The body of [while open_set:]; the goal test comes before the
    current node is closed and counted. *)
Definition step (g : Grid) (goal : coord) (st : state) : step_result state :=
  match heappop (open_set st) with
  | None => Stop (mkResult NoPathFound (n_visited st) (n_explored st))
  | Some ((_, current), rest) =>
      if decide (current = goal)
      then Stop (mkResult (found_or_fuel (reconstruct_path (came_from st) current))
                   (n_visited st) (n_explored st))
      else
        let st1 := mkState rest ({[current]} ∪ closed_set st) (came_from st)
                     (g_score st) (f_score st) (S (n_visited st)) (n_explored st) in
        Continue (expand g goal current st1)
  end.

Definition out_of_fuel (st : state) : run_result :=
  mkResult OutOfFuel (n_visited st) (n_explored st).

Definition loop (g : Grid) (goal : coord) (fuel : nat) (st : state) : run_result :=
  while_loop (step g goal) out_of_fuel fuel st.

(** The start is pushed with priority [0]; [nodes_explored] starts at [0]. *)
Definition init (start goal : coord) : state :=
  mkState [(0, start)] ∅ ∅ {[start := 0]} {[start := heuristic start goal]} 0 0.

End RunAStar.

Definition run_astar (g : Grid) (start goal : coord) : run_result :=
  RunAStar.loop g goal (search_fuel g) (RunAStar.init start goal).

(** ** [find_path] and the [clear_path] it calls *)

(** Python's index into a list of length [n]: a negative index counts from
    the end; outside [-n, n) the access raises [IndexError] ([None]). *)
Definition py_index (n : nat) (i : Z) : option nat :=
  if (0 <=? i) && (i <? Z.of_nat n) then Some (Z.to_nat i)
  else if (- Z.of_nat n <=? i) && (i <? 0) then Some (Z.to_nat (Z.of_nat n + i))
  else None.

(** [self.grid[r][c] = v]; [None] when it raises [IndexError]. *)
Definition set_cell (cells : list (list CellType)) (r c : Z) (v : CellType)
    : option (list (list CellType)) :=
  match py_index (length cells) r with
  | None => None
  | Some i =>
      match cells !! i with
      | None => None
      | Some row =>
          match py_index (length row) c with
          | None => None
          | Some j => Some (<[i:=<[j:=v]> row]> cells)
          end
      end
  end.

(** [if self.grid[i][j] in [PATH, VISITED, FRONTIER, CURRENT]: ... = EMPTY] *)
Definition clear_overlay (t : CellType) : CellType :=
  match t with
  | PATH | VISITED | FRONTIER | CURRENT => EMPTY
  | _ => t
  end.

(** The state of [WarehouseRobotPicker] that [find_path] reads and writes. *)
Record app := mkApp {
  app_grid : Grid;
  start_pos : option coord;
  goal_pos : option coord;
  is_running : bool;
  algorithm_var : Algorithm
}.

(** [range(n)] *)
Definition py_range (n : Z) : list Z := map Z.of_nat (seq 0 (Z.to_nat n)).

(** [l[i]] on a Python list; [None] when it raises [IndexError]. *)
Definition py_list_get {A} (l : list A) (i : Z) : option A :=
  match py_index (length l) i with
  | Some k => l !! k
  | None => None
  end.

(** Reading [self.grid[r][c]]; [None] when it raises [IndexError]. *)
Definition get_cell (cells : list (list CellType)) (r c : Z) : option CellType :=
  row ← py_list_get cells r; py_list_get row c.

(** The coordinates of [for i in range(rows) for j in range(cols)]. *)
Definition grid_positions (nr nc : Z) : list coord :=
  flat_map (fun i => map (fun j => (i, j)) (py_range nc)) (py_range nr).

(** [for i in range(self.rows): for j in range(self.cols): ...] over
    [self.grid], for a body that reads [self.grid[i][j]] and may assign it:
    [body acc t] is the value assigned, if any, and the loop's other state
    ([acc]: how many numbers were drawn, for instance). [inr] carries the
    grid at the point an [IndexError] was raised. *)
Fixpoint grid_loop {S : Type} (body : S -> CellType -> option CellType * S) (acc : S)
    (cells : list (list CellType)) (ps : list coord)
    : (list (list CellType) * S) + list (list CellType) :=
  match ps with
  | [] => inl (cells, acc)
  | (i, j) :: ps' =>
      match get_cell cells i j with
      | None => inr cells
      | Some t =>
          let '(w, acc') := body acc t in
          match w with
          | None => grid_loop body acc' cells ps'
          | Some v =>
              match set_cell cells i j v with
              | Some cells' => grid_loop body acc' cells' ps'
              | None => inr cells
              end
          end
      end
  end.

(** The same body run over the lists themselves, row by row: what the
    loop computes on a grid whose lists have [rows] x [cols] cells. *)
Fixpoint row_map {S : Type} (body : S -> CellType -> option CellType * S) (acc : S)
    (row : list CellType) : list CellType * S :=
  match row with
  | [] => ([], acc)
  | t :: row' =>
      let '(w, acc') := body acc t in
      let '(row'', acc'') := row_map body acc' row' in
      (default t w :: row'', acc'')
  end.

Fixpoint rows_map {S : Type} (body : S -> CellType -> option CellType * S) (acc : S)
    (cells : list (list CellType)) : list (list CellType) * S :=
  match cells with
  | [] => ([], acc)
  | row :: cells' =>
      let '(row', acc') := row_map body acc row in
      let '(cells'', acc'') := rows_map body acc' cells' in
      (row' :: cells'', acc'')
  end.

(** The body of [clear_path]'s loop: [if self.grid[i][j] in [PATH, VISITED,
    FRONTIER, CURRENT]: self.grid[i][j] = CellType.EMPTY]. *)
Definition clear_body (u : unit) (t : CellType) : option CellType * unit :=
  (match t with
   | PATH | VISITED | FRONTIER | CURRENT => Some EMPTY
   | _ => None
   end, u).

(** [if self.start_pos: self.grid[r][c] = CellType.START] and the same for
    the goal; [inr] carries the grid at the point an [IndexError] was
    raised. *)
Definition restore_markers (st : app) (cells : list (list CellType))
    : list (list CellType) + list (list CellType) :=
  let after_start :=
    match start_pos st with
    | Some (r, c) => set_cell cells r c START
    | None => Some cells
    end in
  match after_start with
  | None => inr cells
  | Some cells1 =>
      match goal_pos st with
      | Some (r, c) =>
          match set_cell cells1 r c GOAL with
          | Some cells2 => inl cells2
          | None => inr cells1
          end
      | None => inl cells1
      end
  end.

(** [clear_path]: the loop over [range(rows)] x [range(cols)], then the
    start and goal are restored. [inr] carries the grid at the point an
    [IndexError] was raised. *)
Definition clear_path (st : app) : list (list CellType) + list (list CellType) :=
  let g := app_grid st in
  match grid_loop clear_body tt (grid g) (grid_positions (rows g) (cols g)) with
  | inr cells => inr cells
  | inl (cells, _) => restore_markers st cells
  end.

(** What a click on "Find Path" leads to. *)
Inductive find_path_effect :=
| MissingPositionsWarning            (* messagebox.showwarning, then return *)
| AlreadyRunning                     (* if self.is_running: return *)
| ClearPathIndexError                (* clear_path raised IndexError *)
| RunScheduled (a : Algorithm).      (* self.root.after(100, self.run_...) *)

Definition with_cells (g : Grid) (cells : list (list CellType)) : Grid :=
  mkGrid (rows g) (cols g) cells.

Definition find_path (st : app) : find_path_effect * app :=
  match start_pos st, goal_pos st with
  | Some _, Some _ =>
      if is_running st then (AlreadyRunning, st)
      else
        match clear_path st with
        | inr cells =>
            (ClearPathIndexError,
             mkApp (with_cells (app_grid st) cells) (start_pos st) (goal_pos st)
               (is_running st) (algorithm_var st))
        | inl cells =>
            (RunScheduled (algorithm_var st),
             mkApp (with_cells (app_grid st) cells) (start_pos st) (goal_pos st)
               true (algorithm_var st))
        end
  | _, _ => (MissingPositionsWarning, st)
  end.

(** The run a scheduled algorithm performs on the grid left by
    [find_path] ([depth_limit] is [self.depth_limit_var.get()]). *)
Definition run_algorithm (a : Algorithm) (depth_limit : Z) (g : Grid)
    (start goal : coord) : run_result :=
  match a with
  | ASTAR => run_astar g start goal
  | BFS => run_bfs g start goal
  | DFS => run_dfs g start goal
  | UCS => run_ucs g start goal
  | DLS => run_dls g depth_limit start goal
  end.

(** ** The rest of [WarehouseRobotPicker]: canvas events, grid controls,
    layout files, the path animation and the statistics panel

    Each Tk callback is a function of the state it reads; [inr] carries
    the state left behind when the callback raises (an [IndexError] from a
    grid access, for instance). Drawing, the status bar and the message
    boxes are not modelled. *)

Definition set_app_cells (st : app) (cells : list (list CellType)) : app :=
  mkApp (with_cells (app_grid st) cells) (start_pos st) (goal_pos st) (is_running st)
    (algorithm_var st).

(** [self.grid[r][c] = v] *)
Definition write_cell (st : app) (r c : Z) (v : CellType) : app + app :=
  match set_cell (grid (app_grid st)) r c v with
  | Some cells => inl (set_app_cells st cells)
  | None => inr st
  end.

(** [self.cell_size] *)
Definition cell_size : Z := 20.

(** [0 <= row < self.rows and 0 <= col < self.cols] *)
Definition in_grid (g : Grid) (row col : Z) : bool :=
  (0 <=? row) && (row <? rows g) && (0 <=? col) && (col <? cols g).

(** [on_canvas_click(self, event)] for a click at pixel [(x, y)]
    ([event.x], [event.y]); [//] is floor division, [Z.div]. *)
Definition on_canvas_click (st : app) (x y : Z) : app + app :=
  if is_running st then inl st
  else
    let row := y / cell_size in
    let col := x / cell_size in
    if in_grid (app_grid st) row col then
      match start_pos st, goal_pos st with
      | None, _ =>
          write_cell (mkApp (app_grid st) (Some (row, col)) (goal_pos st) (is_running st)
                        (algorithm_var st)) row col START
      | Some _, None =>
          write_cell (mkApp (app_grid st) (start_pos st) (Some (row, col)) (is_running st)
                        (algorithm_var st)) row col GOAL
      | Some _, Some _ =>
          match get_cell (grid (app_grid st)) row col with
          | None => inr st
          | Some EMPTY => write_cell st row col OBSTACLE
          | Some OBSTACLE => write_cell st row col EMPTY
          | Some _ => inl st
          end
      end
    else inl st.

(** [on_canvas_drag(self, event)] *)
Definition on_canvas_drag (st : app) (x y : Z) : app + app :=
  if is_running st then inl st
  else
    let row := y / cell_size in
    let col := x / cell_size in
    if in_grid (app_grid st) row col then
      match get_cell (grid (app_grid st)) row col with
      | None => inr st
      | Some EMPTY => write_cell st row col OBSTACLE
      | Some _ => inl st
      end
    else inl st.

(** [reset_grid(self)]: a fresh [rows] x [cols] grid of [EMPTY] cells, no
    positions, no run in progress. *)
Definition reset_grid (st : app) : app :=
  let g := app_grid st in
  mkApp (mkGrid (rows g) (cols g)
           (map (fun _ => map (fun _ => EMPTY) (py_range (cols g))) (py_range (rows g))))
    None None false (algorithm_var st).

(** [clear_path(self)] on the whole state. *)
Definition clear_path_app (st : app) : app + app :=
  match clear_path st with
  | inl cells => inl (set_app_cells st cells)
  | inr cells => inr (set_app_cells st cells)
  end.

(** [random.random() < density] for the [n]-th number [rnd n] drawn from
    the generator during the call (a Python float is a rational). *)
Definition draw_below (rnd : nat -> Q) (n : nat) (density : Q) : bool :=
  negb (Qle_bool density (rnd n)).

(** The body of [add_random_obstacles]'s loop: [if self.grid[i][j] ==
    CellType.EMPTY and random.random() < density: self.grid[i][j] =
    CellType.OBSTACLE]; [and] short-circuits, so a number is drawn only
    for an [EMPTY] cell ([n] counts the numbers drawn). *)
Definition obstacle_body (density : Q) (rnd : nat -> Q) (n : nat) (t : CellType)
    : option CellType * nat :=
  if decide (t = EMPTY)
  then ((if draw_below rnd n density then Some OBSTACLE else None), S n)
  else (None, n).

(** [add_random_obstacles(self, density)]: [clear_path], then the loop over
    [range(rows)] x [range(cols)]. *)
Definition add_random_obstacles (st : app) (density : Q) (rnd : nat -> Q) : app + app :=
  match clear_path_app st with
  | inr st1 => inr st1
  | inl st1 =>
      let g := app_grid st1 in
      match grid_loop (obstacle_body density rnd) 0%nat (grid g)
              (grid_positions (rows g) (cols g)) with
      | inl (cells, _) => inl (set_app_cells st1 cells)
      | inr cells => inr (set_app_cells st1 cells)
      end
  end.

Fixpoint collect_empty (cells : list (list CellType)) (ps : list coord)
    : option (list coord) :=
  match ps with
  | [] => Some []
  | p :: ps' =>
      t ← get_cell cells p.1 p.2;
      rest ← collect_empty cells ps';
      Some (if decide (t = EMPTY) then p :: rest else rest)
  end.

(** [empty_cells = [(i, j) for i in range(self.rows) for j in
    range(self.cols) if self.grid[i][j] == CellType.EMPTY]] *)
Definition empty_cells (g : Grid) : option (list coord) :=
  collect_empty (grid g) (grid_positions (rows g) (cols g)).

(** [while goal_idx == start_idx: goal_idx = random.randint(...)]:
    [draws] are the numbers [randint] returns; [None] when they run out. *)
Fixpoint draw_goal_idx (start_idx : Z) (draws : list Z) : option Z :=
  match draws with
  | [] => None
  | d :: ds => if decide (d = start_idx) then draw_goal_idx start_idx ds else Some d
  end.

Inductive random_start_goal_effect :=
| NotEnoughSpace                     (* messagebox.showwarning, then return *)
| StartGoalSet
| RandomStartGoalIndexError.

(** [random_start_goal(self)], given the numbers the calls of
    [random.randint(0, len(empty_cells) - 1)] return; [None] when they do
    not suffice. *)
Definition random_start_goal (st : app) (draws : list Z)
    : option (random_start_goal_effect * app) :=
  match clear_path_app st with
  | inr st1 => Some (RandomStartGoalIndexError, st1)
  | inl st1 =>
      match empty_cells (app_grid st1) with
      | None => Some (RandomStartGoalIndexError, st1)
      | Some ec =>
          if bool_decide (length ec < 2)%nat then Some (NotEnoughSpace, st1)
          else
            match draws with
            | [] => None
            | si :: ds =>
                match py_list_get ec si with
                | None => Some (RandomStartGoalIndexError, st1)
                | Some sp =>
                    let st2 := mkApp (app_grid st1) (Some sp) (goal_pos st1)
                                 (is_running st1) (algorithm_var st1) in
                    match draw_goal_idx si ds with
                    | None => None
                    | Some gi =>
                        match py_list_get ec gi with
                        | None => Some (RandomStartGoalIndexError, st2)
                        | Some gp =>
                            let st3 := mkApp (app_grid st1) (Some sp) (Some gp)
                                         (is_running st1) (algorithm_var st1) in
                            match write_cell st3 sp.1 sp.2 START with
                            | inr st4 => Some (RandomStartGoalIndexError, st4)
                            | inl st4 =>
                                match write_cell st4 gp.1 gp.2 GOAL with
                                | inr st5 => Some (RandomStartGoalIndexError, st5)
                                | inl st5 => Some (StartGoalSet, st5)
                                end
                            end
                        end
                    end
                end
            end
      end
  end.

(** *** Layout files

    A layout file holds a JSON value; [json.dump] followed by [json.load]
    gives back the value written (a tuple is written as an array). JSON
    numbers with a fraction or an exponent are not modelled. *)
#[warnings="-register-all"]
Inductive json :=
| JNull
| JBool (b : bool)
| JInt (z : Z)
| JStr (s : string)
| JList (l : list json)
| JObj (kv : list (string * json)).

(** [CellType.value] *)
Definition cell_value (t : CellType) : Z :=
  match t with
  | EMPTY => 0 | OBSTACLE => 1 | START => 2 | GOAL => 3 | PATH => 4
  | VISITED => 5 | ROBOT => 6 | FRONTIER => 7 | CURRENT => 8
  end.

(** [CellType(v)] for an integer [v]; [None] when it raises [ValueError]. *)
Definition cell_of_value (v : Z) : option CellType :=
  if (0 <=? v) then
    nth_error [EMPTY; OBSTACLE; START; GOAL; PATH; VISITED; ROBOT; FRONTIER; CURRENT]
      (Z.to_nat v)
  else None.

(** A JSON value used as a Python [int]: an integer, or a boolean ([True]
    is [1], [False] is [0]). *)
Definition json_int (j : json) : option Z :=
  match j with
  | JInt z => Some z
  | JBool b => Some (if b then 1 else 0)
  | _ => None
  end.

(** [CellType(v)] on a loaded value. *)
Definition cell_of_json (j : json) : option CellType :=
  z ← json_int j; cell_of_value z.

(** [json.load] keeps the last of repeated keys. *)
Fixpoint assoc_last (k : string) (kv : list (string * json)) : option json :=
  match kv with
  | [] => None
  | (k', v) :: kv' =>
      match assoc_last k kv' with
      | Some v' => Some v'
      | None => if decide (k = k') then Some v else None
      end
  end.

(** [layout[k]]; [None] when it raises ([KeyError], or [TypeError] on a
    value that is not a dict). *)
Definition json_get (j : json) (k : string) : option json :=
  match j with
  | JObj kv => assoc_last k kv
  | _ => None
  end.

(** [v[i]] for an integer [i]; [None] when it raises. A string index gives
    a string, which [CellType(...)] rejects with [ValueError] in the one
    place this is used, so the outcome is the same. *)
Definition json_index (j : json) (i : Z) : option json :=
  match j with
  | JList l => py_list_get l i
  | _ => None
  end.

(** [CellType(layout["grid"][i][j])] *)
Definition read_cell (layout : json) (i j : Z) : option CellType :=
  gj ← json_get layout "grid"; ri ← json_index gj i; v ← json_index ri j; cell_of_json v.

Fixpoint read_row (layout : json) (i : Z) (js : list Z) : option (list CellType) :=
  match js with
  | [] => Some []
  | j :: js' => t ← read_cell layout i j; row ← read_row layout i js'; Some (t :: row)
  end.

(** The loop [for i in range(self.rows): row = []; for j in
    range(self.cols): row.append(...); self.grid.append(row)]: the rows
    appended to [self.grid], and whether the loop ended without raising
    (a row that raised is not appended). *)
Fixpoint read_rows (layout : json) (nc : Z) (is : list Z) (acc : list (list CellType))
    : list (list CellType) * bool :=
  match is with
  | [] => (acc, true)
  | i :: is' =>
      match read_row layout i (py_range nc) with
      | None => (acc, false)
      | Some row => read_rows layout nc is' (acc ++ [row])
      end
  end.

(** Python's truth value of a loaded value. *)
Definition json_truthy (j : json) : bool :=
  match j with
  | JNull => false
  | JBool b => b
  | JInt z => negb (z =? 0)
  | JStr s => negb (bool_decide (s = ""%string))
  | JList l => negb (bool_decide (l = []))
  | JObj kv => negb (bool_decide (kv = []))
  end.

(** [tuple(v) if v else None] for a start or goal position: [None], a
    pair of integers, a [TypeError] ([tuple] of an int or a bool), or some
    other tuple, which the state cannot hold. *)
Inductive pos_value := PosNone | PosSome (p : coord) | PosRaises | PosOther.

Definition load_pos (j : json) : pos_value :=
  if json_truthy j then
    match j with
    | JList [a; b] =>
        match json_int a, json_int b with
        | Some r, Some c => PosSome (r, c)
        | _, _ => PosOther
        end
    | JList _ | JStr _ | JObj _ => PosOther
    | _ => PosRaises
    end
  else PosNone.

(** How [load_layout] ends: normally, in its [except] branch (the
    "Load Error" message box), or with a field of the state set to a
    value the state record cannot hold ([self.rows] a string, say). *)
Inductive load_effect := LoadOk | LoadError | LoadOutsideModel.

Definition with_positions (st : app) (sp gp : option coord) : app :=
  mkApp (app_grid st) sp gp (is_running st) (algorithm_var st).

(** [load_layout(self)] once the file holding [layout] is chosen. The
    fields are assigned one after the other, so an error leaves those
    already assigned in place. *)
Definition load_layout (layout : json) (st : app) : load_effect * app :=
  let g := app_grid st in
  match json_get layout "rows" with
  | None => (LoadError, st)
  | Some jr =>
      match json_int jr with
      | None => (LoadOutsideModel, st)
      | Some nr =>
          let st1 := mkApp (mkGrid nr (cols g) (grid g)) (start_pos st) (goal_pos st)
                       (is_running st) (algorithm_var st) in
          match json_get layout "cols" with
          | None => (LoadError, st1)
          | Some jc =>
              match json_int jc with
              | None => (LoadOutsideModel, st1)
              | Some nc =>
                  let '(cells, ok) := read_rows layout nc (py_range nr) [] in
                  let st2 := mkApp (mkGrid nr nc cells) (start_pos st) (goal_pos st)
                               (is_running st) (algorithm_var st) in
                  if negb ok then (LoadError, st2)
                  else
                    match json_get layout "start_pos" with
                    | None => (LoadError, st2)
                    | Some js =>
                        let k := fun sp =>
                          let st3 := with_positions st2 sp (goal_pos st2) in
                          match json_get layout "goal_pos" with
                          | None => (LoadError, st3)
                          | Some jg =>
                              match load_pos jg with
                              | PosRaises => (LoadError, st3)
                              | PosOther => (LoadOutsideModel, st3)
                              | PosNone => (LoadOk, with_positions st3 sp None)
                              | PosSome p => (LoadOk, with_positions st3 sp (Some p))
                              end
                          end in
                        match load_pos js with
                        | PosRaises => (LoadError, st2)
                        | PosOther => (LoadOutsideModel, st2)
                        | PosNone => k None
                        | PosSome p => k (Some p)
                        end
                    end
              end
          end
      end
  end.

(** A start or goal position as [json.dump] writes it. *)
Definition pos_json (p : option coord) : json :=
  match p with
  | None => JNull
  | Some (r, c) => JList [JInt r; JInt c]
  end.

(** [save_layout(self)] once a file is chosen: the value written, or
    [None] when building [grid_data] raises [IndexError]. *)
Definition save_layout (st : app) : option json :=
  let g := app_grid st in
  grid_data ← mapM (fun i => mapM (fun j => t ← get_cell (grid g) i j; Some (JInt (cell_value t)))
                                  (py_range (cols g)))
                   (py_range (rows g));
  Some (JObj [("rows", JInt (rows g)); ("cols", JInt (cols g));
              ("grid", JList (map JList grid_data));
              ("start_pos", pos_json (start_pos st)); ("goal_pos", pos_json (goal_pos st))]).

(** *** The end of a successful run *)

(** [for i, (row, col) in enumerate(path): if i > 0 and i < len(path) - 1:
    self.grid[row][col] = CellType.PATH]; [inr] carries the grid at the
    point an [IndexError] was raised. *)
Fixpoint mark_path (cells : list (list CellType)) (n i : Z) (ps : list coord)
    : list (list CellType) + list (list CellType) :=
  match ps with
  | [] => inl cells
  | (r, c) :: ps' =>
      if (0 <? i) && (i <? n - 1)
      then match set_cell cells r c PATH with
           | Some cells' => mark_path cells' n (i + 1) ps'
           | None => inr cells
           end
      else mark_path cells n (i + 1) ps'
  end.

(** The state the animation reads and writes: [self.robot_pos] and
    [self.path] besides the rest. *)
Record view := mkView {
  view_app : app;
  robot_pos : option coord;
  path : list coord
}.

Definition stop_running (a : app) : app :=
  mkApp (app_grid a) (start_pos a) (goal_pos a) false (algorithm_var a).

(** [move_robot_along_path(path)], each [root.after] callback run in turn.
    [path] is the very list [self.path] refers to, so [path.pop(0)]
    shortens [self.path] too. *)
Fixpoint move_robot_along_path (v : view) (p : list coord) : view :=
  match p with
  | [] => mkView (stop_running (view_app v)) (robot_pos v) []
  | next :: rest => move_robot_along_path (mkView (view_app v) (Some next) rest) rest
  end.

(** [animate_path(came_from, current)] followed by the robot's moves;
    [None] when [reconstruct_path] does not stop. [inr] carries the view
    left when the call raises: an [IndexError] when a path cell lies
    outside the grid, or the [TypeError] of [self.robot_pos[0]] when
    [self.robot_pos = self.start_pos] is [None]. *)
Definition animate_path (v : view) (came_from : gmap coord coord) (current : coord)
    : option (view + view) :=
  match reconstruct_path came_from current with
  | None => None
  | Some p =>
      match mark_path (grid (app_grid (view_app v))) (Z.of_nat (length p)) 0 p with
      | inr cells => Some (inr (mkView (set_app_cells (view_app v) cells) (robot_pos v) p))
      | inl cells =>
          let a := set_app_cells (view_app v) cells in
          match start_pos a with
          | None => Some (inr (mkView a None p))
          | Some sp => Some (inl (move_robot_along_path (mkView a (Some sp) p) p))
          end
      end
  end.

(** *** The statistics panel *)

(** [self.stats] without the two timings; [stats_algorithm] is [None] for
    the initial empty string. *)
Record stats := mkStats {
  stats_algorithm : option Algorithm;
  path_length : nat;
  stats_nodes_visited : nat;
  stats_nodes_explored : nat
}.

#[global] Instance Algorithm_eq_dec : EqDecision Algorithm.
Proof. solve_decision. Defined.

(** The lines of [update_stats]'s text. *)
Inductive stats_line :=
| LineAlgorithm (a : option Algorithm)
| LinePathLength (n : nat)
| LineNodesVisited (n : nat)
| LineNodesExplored (n : nat)
| LineAlgorithmTime
| LineTotalTime
| LineDepthLimit (d : Z)
| LineOptimal (yes : bool).

Definition update_stats (s : stats) (depth_limit : Z) : list stats_line :=
  [LineAlgorithm (stats_algorithm s); LinePathLength (path_length s);
   LineNodesVisited (stats_nodes_visited s); LineNodesExplored (stats_nodes_explored s);
   LineAlgorithmTime; LineTotalTime] ++
  (if decide (stats_algorithm s = Some DLS) then [LineDepthLimit depth_limit] else []) ++
  (if (0 <? path_length s)%nat
   then [LineOptimal (match stats_algorithm s with
                      | Some ASTAR | Some BFS | Some UCS => true
                      | _ => false
                      end)]
   else []).

(** [self.stats] after [find_path] sets ["algorithm"] and the run sets the
    two counters; ["path_length"] is written only when a path is found
    (directly, or in [animate_search_step] from the same path). *)
Definition stats_after_run (old : stats) (a : Algorithm) (r : run_result) : stats :=
  mkStats (Some a)
    (match result r with Found p => length p | _ => path_length old end)
    (nodes_visited r) (nodes_explored r).

(** A cell either keeps its kind or goes from EMPTY to OBSTACLE. *)
Definition obstacle_step (t t' : CellType) : Prop := t' = t \/ (t = EMPTY /\ t' = OBSTACLE).

(** * Properties *)

(** ** Paths on the grid *)

(** Two cells are 4-adjacent. *)
Definition adjacent (p q : coord) : Prop :=
  Z.abs (p.1 - q.1) + Z.abs (p.2 - q.2) = 1.

(** A cell inside the grid that is not an [OBSTACLE]. *)
Definition free_cell (g : Grid) (p : coord) : Prop :=
  in_bounds g p = true /\ is_obstacle g p = false.

(** Consecutive elements of a list are related by [R]. *)
Fixpoint chain (R : coord -> coord -> Prop) (l : list coord) : Prop :=
  match l with
  | x :: ((y :: _) as l') => R x y /\ chain R l'
  | _ => True
  end.

(** A path from [s] to [t]: non-obstacle, in-bounds, 4-adjacent cells. *)
Definition valid_path (g : Grid) (s t : coord) (p : list coord) : Prop :=
  head p = Some s /\ last p = Some t /\ Forall (free_cell g) p /\ chain adjacent p.

(** The four cells around [(r, c)]: up, right, down, left. *)
Definition around (pos : coord) : list coord :=
  [(pos.1 - 1, pos.2); (pos.1, pos.2 + 1); (pos.1 + 1, pos.2); (pos.1, pos.2 - 1)].

(** The cells a search can reach: every cell inside the grid, and the
    start cell. *)
Definition all_cells (g : Grid) : gset coord :=
  list_to_set (list_prod (seqZ 0 (rows g)) (seqZ 0 (cols g))).

Definition cells_of (g : Grid) (s : coord) : gset coord := {[s]} ∪ all_cells g.

(** A walk along [get_neighbors]. *)
Definition is_walk (g : Grid) (l : list coord) : Prop :=
  chain (fun x y => In y (get_neighbors g x)) l.

(** [parent_chain cf v l]: following [came_from] from [v] visits the cells
    of [l] and stops at a cell without a predecessor. *)
Inductive parent_chain (cf : gmap coord coord) : coord -> list coord -> Prop :=
| pc_root v : cf !! v = None -> parent_chain cf v [v]
| pc_step v u l : cf !! v = Some u -> parent_chain cf u l -> parent_chain cf v (v :: l).

(** ** Concrete inputs *)

Definition obstacle_start_app : app :=
  mkApp (mkGrid 2 2 [[OBSTACLE; EMPTY]; [EMPTY; EMPTY]]) (Some (0, 0)) (Some (1, 1))
    false BFS.

Definition outside_start_app : app :=
  mkApp (mkGrid 2 2 [[EMPTY; EMPTY]; [EMPTY; EMPTY]]) (Some (-1, 0)) (Some (0, 1))
    false BFS.

(** [n] iterations of A*'s [while] loop (the state is kept once the loop
    has stopped). *)
Fixpoint astar_iterate (g : Grid) (goal : coord) (n : nat) (st : RunAStar.state)
    : RunAStar.state :=
  match n with
  | O => st
  | S n' =>
      match RunAStar.step g goal st with
      | Continue st' => astar_iterate g goal n' st'
      | Stop _ => st
      end
  end.

(** A 3 x 4 floor where (0, 0) is walled in by obstacles at (0, 1) and
    (1, 0). *)
Definition walled_corner_grid : Grid :=
  mkGrid 3 4 [[EMPTY; OBSTACLE; EMPTY; EMPTY];
              [OBSTACLE; EMPTY; EMPTY; EMPTY];
              [EMPTY; EMPTY; EMPTY; EMPTY]].

Definition open_floor_2x3 : Grid :=
  mkGrid 2 3 [[EMPTY; EMPTY; EMPTY]; [EMPTY; EMPTY; EMPTY]].

Definition single_cell_grid : Grid := mkGrid 1 1 [[EMPTY]].

(** ** Lemmas *)

Lemma get_neighbors_filter (g : Grid) (pos : coord) :
  get_neighbors g pos =
  List.filter (fun q => in_bounds g q && negb (is_obstacle g q)) (around pos).
Proof.
  destruct pos as [r c].
  unfold get_neighbors, directions, around, in_bounds, is_obstacle; simpl.
  replace (r - 1) with (r + -1) by lia. replace (c - 1) with (c + -1) by lia.
  replace (r + 0) with r by lia. replace (c + 0) with c by lia.
  repeat match goal with
  | |- context [if ?b then _ else _] => destruct b
  end; reflexivity.
Qed.

Lemma get_neighbors_In (g : Grid) (pos q : coord) :
  In q (get_neighbors g pos) <->
  In q (around pos) /\ in_bounds g q = true /\ is_obstacle g q = false.
Proof. rewrite get_neighbors_filter, filter_In, andb_true_iff, negb_true_iff. tauto. Qed.

(** C7: [get_neighbors pos] is the list of the cells up, right, down and
    left of [pos], in that order, that are inside the grid and not an
    [OBSTACLE]; there are at most four. (The function is pure: it takes the
    grid and returns a list, and has no state to modify.) *)
Theorem get_neighbors_spec (g : Grid) (pos : coord) :
  get_neighbors g pos =
    List.filter (fun q => in_bounds g q && negb (is_obstacle g q)) (around pos) /\
  (forall q, In q (get_neighbors g pos) <->
             In q (around pos) /\ in_bounds g q = true /\ is_obstacle g q = false) /\
  (length (get_neighbors g pos) <= 4)%nat.
Proof.
  split; [apply get_neighbors_filter|]. split; [apply get_neighbors_In|].
  rewrite get_neighbors_filter. etransitivity; [apply filter_length_le|]. simpl. lia.
Qed.

(** ** Start equal to goal *)

(** C10: when the start is the goal, each algorithm stops at the first
    frontier element with the one-cell path [[start]]. A* tests the goal
    before counting the node, so its [nodes_visited] is [0]; the other four
    count the dequeued goal and report [1]. *)
Theorem start_equals_goal_runs (g : Grid) (s : coord) (depth_limit : Z) :
  run_astar g s s = mkResult (Found [s]) 0 0 /\
  run_bfs g s s = mkResult (Found [s]) 1 1 /\
  run_dfs g s s = mkResult (Found [s]) 1 1 /\
  run_ucs g s s = mkResult (Found [s]) 1 1 /\
  run_dls g depth_limit s s = mkResult (Found [s]) 1 1.
Proof.
  unfold run_astar, run_bfs, run_dfs, run_ucs, run_dls, search_fuel.
  repeat split; cbn -[reconstruct_path];
    repeat (case_decide; try congruence; try set_solver); reflexivity.
Qed.

(** ** [find_path] *)

Lemma py_index_in_range (n : nat) (i : Z) :
  0 <= i < Z.of_nat n -> py_index n i = Some (Z.to_nat i).
Proof.
  intros Hi. unfold py_index.
  replace ((0 <=? i) && (i <? Z.of_nat n)) with true; [reflexivity|].
  symmetry. apply andb_true_iff. split; [apply Z.leb_le | apply Z.ltb_lt]; lia.
Qed.

Lemma set_cell_in_bounds (cells : list (list CellType)) (r c R C : Z) (v : CellType) :
  Z.of_nat (length cells) = R ->
  Forall (fun row => Z.of_nat (length row) = C) cells ->
  0 <= r < R -> 0 <= c < C ->
  exists cells', set_cell cells r c v = Some cells' /\
    Z.of_nat (length cells') = R /\
    Forall (fun row => Z.of_nat (length row) = C) cells'.
Proof.
  intros HR HC Hr Hc. unfold set_cell.
  rewrite py_index_in_range by lia.
  destruct (lookup_lt_is_Some_2 cells (Z.to_nat r)) as [row Hrow]; [lia|].
  rewrite Hrow.
  pose proof (Forall_lookup_1 _ _ _ _ HC Hrow) as Hlen. simpl in Hlen.
  rewrite py_index_in_range by lia.
  eexists; split; [reflexivity|]. split.
  - rewrite length_insert. exact HR.
  - apply Forall_insert; [exact HC|]. rewrite length_insert. exact Hlen.
Qed.

Lemma in_bounds_true (g : Grid) (p : coord) :
  in_bounds g p = true -> 0 <= p.1 < rows g /\ 0 <= p.2 < cols g.
Proof.
  unfold in_bounds. rewrite !andb_true_iff, !Z.leb_le, !Z.ltb_lt. lia.
Qed.

Lemma py_index_spec (n : nat) (i : Z) :
  match py_index n i with
  | Some k => (k < n)%nat /\ - Z.of_nat n <= i < Z.of_nat n
  | None => ~ (- Z.of_nat n <= i < Z.of_nat n)
  end.
Proof.
  unfold py_index.
  destruct ((0 <=? i) && (i <? Z.of_nat n)) eqn:E1.
  - apply andb_true_iff in E1 as [H1 H2]. apply Z.leb_le in H1. apply Z.ltb_lt in H2. lia.
  - destruct ((- Z.of_nat n <=? i) && (i <? 0)) eqn:E2.
    + apply andb_true_iff in E2 as [H1 H2]. apply Z.leb_le in H1. apply Z.ltb_lt in H2. lia.
    + apply andb_false_iff in E1, E2.
      destruct E1 as [E1|E1], E2 as [E2|E2];
        rewrite ?Z.leb_gt, ?Z.ltb_ge in E1; rewrite ?Z.leb_gt, ?Z.ltb_ge in E2; lia.
Qed.

Lemma py_index_nat (n k : nat) : (k < n)%nat -> py_index n (Z.of_nat k) = Some k.
Proof. intros Hk. rewrite py_index_in_range by lia. rewrite Nat2Z.id. reflexivity. Qed.

(** [self.grid[r][c] = v] on lists of [R] rows of [C] cells succeeds
    exactly when Python accepts both indices, and keeps the shape. *)
Lemma set_cell_py (cells : list (list CellType)) (R C r c : Z) (v : CellType) :
  Z.of_nat (length cells) = R ->
  Forall (fun row => Z.of_nat (length row) = C) cells ->
  match set_cell cells r c v with
  | Some cells' => (- R <= r < R /\ - C <= c < C) /\
                   Z.of_nat (length cells') = R /\
                   Forall (fun row => Z.of_nat (length row) = C) cells'
  | None => ~ (- R <= r < R /\ - C <= c < C)
  end.
Proof.
  intros HR HC. unfold set_cell.
  pose proof (py_index_spec (length cells) r) as Hr.
  destruct (py_index (length cells) r) as [i|]; [|intros [H _]; apply Hr; lia].
  destruct Hr as [Hi Hr].
  destruct (lookup_lt_is_Some_2 cells i Hi) as [row Hrow]. rewrite Hrow.
  pose proof (Forall_lookup_1 _ _ _ _ HC Hrow) as Hlen. simpl in Hlen.
  pose proof (py_index_spec (length row) c) as Hc.
  destruct (py_index (length row) c) as [j|]; [|intros [_ H]; apply Hc; lia].
  destruct Hc as [Hj Hc]. split; [lia|]. split.
  - rewrite length_insert. exact HR.
  - apply Forall_insert; [exact HC|]. rewrite length_insert. exact Hlen.
Qed.

Lemma get_cell_lookup (cells : list (list CellType)) (i j : nat) (row : list CellType)
    (t : CellType) :
  cells !! i = Some row -> row !! j = Some t ->
  get_cell cells (Z.of_nat i) (Z.of_nat j) = Some t.
Proof.
  intros Hr Ht. unfold get_cell, py_list_get.
  rewrite py_index_nat by (apply lookup_lt_Some in Hr; exact Hr). rewrite Hr.
  cbn [mbind option_bind].
  rewrite py_index_nat by (apply lookup_lt_Some in Ht; exact Ht). exact Ht.
Qed.

Lemma set_cell_lookup (cells : list (list CellType)) (i j : nat) (row : list CellType)
    (t v : CellType) :
  cells !! i = Some row -> row !! j = Some t ->
  set_cell cells (Z.of_nat i) (Z.of_nat j) v = Some (<[i:=<[j:=v]> row]> cells).
Proof.
  intros Hr Ht. unfold set_cell.
  rewrite py_index_nat by (apply lookup_lt_Some in Hr; exact Hr). rewrite Hr.
  rewrite py_index_nat by (apply lookup_lt_Some in Ht; exact Ht). reflexivity.
Qed.

Lemma grid_loop_app {T : Type} (body : T -> CellType -> option CellType * T) (acc : T)
    (cells : list (list CellType)) (ps1 ps2 : list coord) :
  grid_loop body acc cells (ps1 ++ ps2) =
    match grid_loop body acc cells ps1 with
    | inl (cells', acc') => grid_loop body acc' cells' ps2
    | inr cells' => inr cells'
    end.
Proof.
  revert acc cells. induction ps1 as [|[i j] ps1 IH]; intros acc cells; [reflexivity|].
  cbn [List.app grid_loop]. destruct (get_cell cells i j) as [t|]; [|reflexivity].
  destruct (body acc t) as [[v|] acc'].
  - destruct (set_cell cells i j v); [apply IH | reflexivity].
  - apply IH.
Qed.

(** The inner loop [for j in range(cols)] over row [i], from column
    [length rdone] on. *)
Lemma grid_loop_row {T : Type} (body : T -> CellType -> option CellType * T) :
  forall (rrest rdone : list CellType) (acc : T) (cells : list (list CellType)) (i : nat),
  cells !! i = Some (rdone ++ rrest) ->
  grid_loop body acc cells
    (map (fun j => (Z.of_nat i, Z.of_nat j)) (seq (length rdone) (length rrest))) =
  inl (<[i:=rdone ++ (row_map body acc rrest).1]> cells, (row_map body acc rrest).2).
Proof.
  induction rrest as [|t rrest IH]; intros rdone acc cells i Hi.
  - cbn [length seq map grid_loop row_map fst snd]. rewrite app_nil_r in *.
    rewrite list_insert_id by exact Hi. reflexivity.
  - cbn [length seq map grid_loop row_map].
    rewrite (get_cell_lookup cells i (length rdone) (rdone ++ t :: rrest) t Hi)
      by (rewrite lookup_app_r, Nat.sub_diag by lia; reflexivity).
    assert (Hlt : (i < length cells)%nat) by (apply lookup_lt_Some in Hi; exact Hi).
    destruct (body acc t) as [w acc'] eqn:Eb.
    destruct (row_map body acc' rrest) as [row'' acc''] eqn:Er. cbn [fst snd].
    destruct w as [v|].
    + rewrite (set_cell_lookup cells i (length rdone) (rdone ++ t :: rrest) t v Hi)
        by (rewrite lookup_app_r, Nat.sub_diag by lia; reflexivity).
      assert (Hrow : <[length rdone:=v]> (rdone ++ t :: rrest) = (rdone ++ [v]) ++ rrest).
      { rewrite insert_app_r_alt by lia. rewrite Nat.sub_diag. simpl.
        rewrite <- app_assoc. reflexivity. }
      rewrite Hrow.
      replace (S (length rdone)) with (length (rdone ++ [v]))
        by (rewrite length_app; simpl; lia).
      rewrite IH by (apply list_lookup_insert_eq; exact Hlt).
      rewrite Er. cbn [fst snd]. rewrite list_insert_insert, <- app_assoc, decide_True by reflexivity. reflexivity.
    + replace (S (length rdone)) with (length (rdone ++ [t]))
        by (rewrite length_app; simpl; lia).
      rewrite IH by (rewrite <- app_assoc; exact Hi).
      rewrite Er. cbn [fst snd default]. rewrite <- app_assoc. reflexivity.
Qed.

(** The outer loop [for i in range(rows)], from row [length cdone] on. *)
Lemma grid_loop_rows {T : Type} (body : T -> CellType -> option CellType * T) (C : nat) :
  forall (crest cdone : list (list CellType)) (acc : T),
  Forall (fun row => length row = C) crest ->
  grid_loop body acc (cdone ++ crest)
    (flat_map (fun i => map (fun j => (i, j)) (map Z.of_nat (seq 0 C)))
       (map Z.of_nat (seq (length cdone) (length crest)))) =
  inl (cdone ++ (rows_map body acc crest).1, (rows_map body acc crest).2).
Proof.
  induction crest as [|row crest IH]; intros cdone acc HC.
  - cbn. rewrite app_nil_r. reflexivity.
  - apply Forall_cons in HC as [Hrow HC].
    cbn [length seq map flat_map rows_map]. rewrite grid_loop_app, map_map.
    pose proof (grid_loop_row body row [] acc (cdone ++ row :: crest) (length cdone)) as H.
    cbn [List.app length] in H. rewrite Hrow in H.
    rewrite H by (rewrite lookup_app_r, Nat.sub_diag by lia; reflexivity).
    destruct (row_map body acc row) as [row' acc'] eqn:Er. cbn [fst snd].
    rewrite insert_app_r_alt, Nat.sub_diag by lia. cbn [insert list_insert].
    replace (cdone ++ row' :: crest) with ((cdone ++ [row']) ++ crest)
      by (rewrite <- app_assoc; reflexivity).
    replace (S (length cdone)) with (length (cdone ++ [row']))
      by (rewrite length_app; simpl; lia).
    rewrite IH by exact HC.
    destruct (rows_map body acc' crest) as [cells'' acc''] eqn:Ers. cbn [fst snd].
    rewrite <- app_assoc. reflexivity.
Qed.

(** On a well-formed grid the loop over [range(rows)] x [range(cols)]
    visits every cell once, row by row, and never raises. *)
Lemma grid_loop_wf {T : Type} (body : T -> CellType -> option CellType * T) (acc : T)
    (g : Grid) :
  grid_wf g ->
  grid_loop body acc (grid g) (grid_positions (rows g) (cols g)) = inl (rows_map body acc (grid g)).
Proof.
  intros [HR HC]. unfold grid_positions, py_range.
  replace (Z.to_nat (rows g)) with (length (grid g)) by lia.
  pose proof (grid_loop_rows body (Z.to_nat (cols g)) (grid g) [] acc) as H.
  cbn [List.app length] in H. rewrite H.
  - destruct (rows_map body acc (grid g)); reflexivity.
  - eapply Forall_impl; [exact HC|]. intros row Hrow. simpl in Hrow. lia.
Qed.

Lemma rows_map_clear (cells : list (list CellType)) :
  rows_map clear_body tt cells = (map (map clear_overlay) cells, tt).
Proof.
  assert (Hrow : forall row, row_map clear_body tt row = (map clear_overlay row, tt)).
  { induction row as [|t row IH]; [reflexivity|].
    destruct t; cbn [row_map clear_body]; rewrite IH; reflexivity. }
  induction cells as [|row cells IH]; [reflexivity|].
  cbn [rows_map]. rewrite Hrow, IH. reflexivity.
Qed.

(** On a well-formed grid, [clear_path]'s loop clears the overlay of every
    cell. *)
Lemma clear_path_loop_wf (st : app) :
  grid_wf (app_grid st) ->
  clear_path st = restore_markers st (map (map clear_overlay) (grid (app_grid st))).
Proof.
  intros Hwf. unfold clear_path. rewrite (grid_loop_wf _ _ _ Hwf), rows_map_clear. reflexivity.
Qed.

(** C6 (as the code has it): [find_path] refuses to start, with the
    "Missing Positions" warning and no change of state, exactly when the
    start or the goal is missing; it validates nothing else. With both
    positions set inside the grid and no run in progress, the selected
    algorithm is scheduled whatever the two cells hold, an [OBSTACLE]
    included ([clear_path] overwrites them with [START] and [GOAL]).
    Positions outside the grid are not checked either: on a well-formed
    grid with no run in progress the run is scheduled whenever Python
    accepts the positions as indices ([-rows <= r < rows],
    [-cols <= c < cols], a negative index counting from the end), and
    otherwise [clear_path] raises [IndexError]; no warning is given. *)
Theorem find_path_checks_only_presence (st : app) :
  ((start_pos st = None \/ goal_pos st = None) ->
     find_path st = (MissingPositionsWarning, st)) /\
  (forall s t : coord,
     start_pos st = Some s -> goal_pos st = Some t ->
     fst (find_path st) <> MissingPositionsWarning) /\
  (forall s t : coord,
     grid_wf (app_grid st) ->
     start_pos st = Some s -> goal_pos st = Some t -> is_running st = false ->
     in_bounds (app_grid st) s = true -> in_bounds (app_grid st) t = true ->
     fst (find_path st) = RunScheduled (algorithm_var st)) /\
  (forall s t : coord,
     grid_wf (app_grid st) ->
     start_pos st = Some s -> goal_pos st = Some t -> is_running st = false ->
     fst (find_path st) =
       if bool_decide (- rows (app_grid st) <= s.1 < rows (app_grid st) /\
                       - cols (app_grid st) <= s.2 < cols (app_grid st) /\
                       - rows (app_grid st) <= t.1 < rows (app_grid st) /\
                       - cols (app_grid st) <= t.2 < cols (app_grid st))
       then RunScheduled (algorithm_var st) else ClearPathIndexError).
Proof.
  assert (H4 : forall s t : coord,
     grid_wf (app_grid st) ->
     start_pos st = Some s -> goal_pos st = Some t -> is_running st = false ->
     fst (find_path st) =
       if bool_decide (- rows (app_grid st) <= s.1 < rows (app_grid st) /\
                       - cols (app_grid st) <= s.2 < cols (app_grid st) /\
                       - rows (app_grid st) <= t.1 < rows (app_grid st) /\
                       - cols (app_grid st) <= t.2 < cols (app_grid st))
       then RunScheduled (algorithm_var st) else ClearPathIndexError).
  { intros [sr sc] [tr tc] Hwf Hs Ht Hrun. cbn [fst snd].
    unfold find_path. rewrite Hs, Ht, Hrun.
    rewrite (clear_path_loop_wf st Hwf). unfold restore_markers. rewrite Hs, Ht.
    destruct Hwf as [HR HC].
    set (cells := map (map clear_overlay) (grid (app_grid st))).
    assert (HR' : Z.of_nat (length cells) = rows (app_grid st))
      by (unfold cells; rewrite length_map; exact HR).
    assert (HC' : Forall (fun row => Z.of_nat (length row) = cols (app_grid st)) cells).
    { unfold cells. apply Forall_map. eapply Forall_impl; [exact HC|].
      intros row Hrow. simpl. rewrite length_map. exact Hrow. }
    pose proof (set_cell_py cells _ _ sr sc START HR' HC') as H1.
    destruct (set_cell cells sr sc START) as [c1|].
    - destruct H1 as [Hin1 [HR1 HC1]].
      pose proof (set_cell_py c1 _ _ tr tc GOAL HR1 HC1) as H2.
      destruct (set_cell c1 tr tc GOAL) as [c2|].
      + destruct H2 as [Hin2 _]. rewrite bool_decide_eq_true_2 by tauto. reflexivity.
      + rewrite bool_decide_eq_false_2 by tauto. reflexivity.
    - rewrite bool_decide_eq_false_2 by tauto. reflexivity. }
  split; [|split; [|split; [|exact H4]]].
  - unfold find_path. intros [H | H]; rewrite H; [reflexivity|].
    destruct (start_pos st); reflexivity.
  - intros s t Hs Ht. unfold find_path. rewrite Hs, Ht.
    destruct (is_running st); [discriminate|].
    destruct (clear_path st); discriminate.
  - intros s t Hwf Hs Ht Hrun Hsb Htb.
    apply in_bounds_true in Hsb, Htb.
    rewrite (H4 s t Hwf Hs Ht Hrun). rewrite bool_decide_eq_true_2 by lia. reflexivity.
Qed.

(** C6 refuted: a start on an [OBSTACLE] cell, and a start outside the grid
    at row [-1], are not rejected: [find_path] schedules the run (the
    obstacle is overwritten with [START]; row [-1] is Python's last row). *)
Lemma find_path_invalid_start_scheduled :
  is_obstacle (app_grid obstacle_start_app) (0, 0) = true /\
  find_path obstacle_start_app =
    (RunScheduled BFS,
     mkApp (mkGrid 2 2 [[START; EMPTY]; [EMPTY; GOAL]]) (Some (0, 0)) (Some (1, 1))
       true BFS) /\
  in_bounds (app_grid outside_start_app) (-1, 0) = false /\
  fst (find_path outside_start_app) = RunScheduled BFS.
Proof. vm_compute. repeat split. Qed.

Lemma find_path_checks_only_presence_witness :
  find_path (mkApp (app_grid obstacle_start_app) None (Some (1, 1)) false BFS) =
    (MissingPositionsWarning, mkApp (app_grid obstacle_start_app) None (Some (1, 1)) false BFS) /\
  fst (find_path obstacle_start_app) = RunScheduled BFS /\
  fst (find_path outside_start_app) = RunScheduled BFS /\
  fst (find_path (mkApp (app_grid obstacle_start_app) (Some (2, 0)) (Some (1, 1)) false BFS)) =
    ClearPathIndexError.
Proof.
  split; [|split; [|split]].
  - apply (proj1 (find_path_checks_only_presence
                    (mkApp (app_grid obstacle_start_app) None (Some (1, 1)) false BFS))).
    left. reflexivity.
  - apply (proj1 (proj2 (proj2 (find_path_checks_only_presence obstacle_start_app)))
             (0, 0) (1, 1)).
    + split; [reflexivity | repeat constructor].
    + reflexivity.
    + reflexivity.
    + reflexivity.
    + reflexivity.
    + reflexivity.
  - rewrite (proj2 (proj2 (proj2 (find_path_checks_only_presence outside_start_app)))
               (-1, 0) (0, 1)).
    + reflexivity.
    + split; [reflexivity | repeat constructor].
    + reflexivity.
    + reflexivity.
    + reflexivity.
  - rewrite (proj2 (proj2 (proj2 (find_path_checks_only_presence
               (mkApp (app_grid obstacle_start_app) (Some (2, 0)) (Some (1, 1)) false BFS))))
               (2, 0) (1, 1)).
    + reflexivity.
    + split; [reflexivity | repeat constructor].
    + reflexivity.
    + reflexivity.
    + reflexivity.
Defined.

(** ** The open list of A* *)

(** C3 refuted: in the A* run from (2, 3) to (0, 0) on [walled_corner_grid],
    the seventh iteration expands (2, 2) and finds a path of cost 2 to
    (2, 1), which sits in the open list with cost 4 and is not closed; its
    [g_score] becomes 2 and its [f_score] 5, but the open list still holds
    only the old entry [(7, (2, 1))]: no entry with the improved f is
    pushed. *)
Lemma astar_cheaper_path_not_repushed :
  let st6 := astar_iterate walled_corner_grid (0, 0) 6 (RunAStar.init (2, 3) (0, 0)) in
  let st7 := astar_iterate walled_corner_grid (0, 0) 7 (RunAStar.init (2, 3) (0, 0)) in
  List.filter (fun e => bool_decide (e.2 = (2, 1))) (RunAStar.open_set st6) = [(7, (2, 1))] /\
  RunAStar.g_score st6 !! (2, 1) = Some 4 /\
  bool_decide ((2, 1) ∈ RunAStar.closed_set st7) = false /\
  RunAStar.g_score st7 !! (2, 1) = Some 2 /\
  RunAStar.f_score st7 !! (2, 1) = Some 5 /\
  List.filter (fun e => bool_decide (e.2 = (2, 1))) (RunAStar.open_set st7) = [(7, (2, 1))].
Proof. vm_compute. repeat split. Qed.

(** ** Depth-limited search on a small floor *)

(** C4 refuted: on the empty 2 x 3 floor, the path (0, 2), (0, 1), (0, 0)
    has 3 <= 3 + 1 cells, yet [run_dls] with limit 3 reports no path
    within the limit: it first reaches (0, 1) at depth 3 through the lower
    row, marks it visited there, and so never expands it. *)
Lemma dls_misses_path_within_limit :
  valid_path open_floor_2x3 (0, 2) (0, 0) [(0, 2); (0, 1); (0, 0)] /\
  (length [(0, 2); (0, 1); (0, 0)] <= Z.to_nat 3 + 1)%nat /\
  result (run_dls open_floor_2x3 3 (0, 2) (0, 0)) = NoPathFound.
Proof.
  split; [|split; [simpl; lia | vm_compute; reflexivity]].
  split; [reflexivity|]. split; [reflexivity|]. split.
  - repeat constructor.
  - unfold adjacent. simpl. lia.
Qed.

(** ** Statistics of A* against the other loops *)

(** C5 divergence: A* pushes the start without counting it in
    [nodes_explored] (it starts from [0], the other loops from [1]) and
    does not count the popped goal in [nodes_visited]; on a one-cell grid
    A* reports 0 and 0 where Breadth-First reports 1 and 1. *)
Lemma astar_counts_on_single_cell :
  run_astar single_cell_grid (0, 0) (0, 0) = mkResult (Found [(0, 0)]) 0 0 /\
  run_bfs single_cell_grid (0, 0) (0, 0) = mkResult (Found [(0, 0)]) 1 1 /\
  run_ucs single_cell_grid (0, 0) (0, 0) = mkResult (Found [(0, 0)]) 1 1.
Proof. vm_compute. repeat split. Qed.

(** ** Running a loop *)

Section WhileLoop.
Context {S : Type} (step : S -> step_result S) (out_of_fuel : S -> run_result).
Context (I : S -> Prop) (measure : S -> nat).
Hypothesis step_inv : forall st st', I st -> step st = Continue st' -> I st'.

Lemma while_loop_cases (fuel : nat) (st : S) :
  I st ->
  (exists st', I st' /\ step st' = Stop (while_loop step out_of_fuel fuel st)) \/
  (exists st', I st' /\ while_loop step out_of_fuel fuel st = out_of_fuel st').
Proof.
  revert st. induction fuel as [|fuel IH]; intros st Hst; simpl.
  - right. eauto.
  - destruct (step st) as [st'|r] eqn:E.
    + apply IH. eapply step_inv; eauto.
    + left. eauto.
Qed.

Hypothesis step_measure :
  forall st st', I st -> step st = Continue st' -> (measure st' < measure st)%nat.

Lemma while_loop_stops (fuel : nat) (st : S) :
  I st -> (measure st < fuel)%nat ->
  exists st', I st' /\ step st' = Stop (while_loop step out_of_fuel fuel st).
Proof.
  revert st. induction fuel as [|fuel IH]; intros st Hst Hlt; simpl; [lia|].
  destruct (step st) as [st'|r] eqn:E.
  - apply IH; [eapply step_inv; eauto|].
    pose proof (step_measure _ _ Hst E). lia.
  - eauto.
Qed.

End WhileLoop.

(** ** The finite set of cells *)

Lemma all_cells_in_bounds (g : Grid) (p : coord) :
  in_bounds g p = true -> p ∈ all_cells g.
Proof.
  intros H. apply in_bounds_true in H. destruct p as [r c]. simpl in H.
  unfold all_cells. apply elem_of_list_to_set, list_elem_of_In, in_prod;
    apply list_elem_of_In, elem_of_seqZ; lia.
Qed.

Lemma size_list_to_set_le (l : list coord) :
  (size (list_to_set l : gset coord) <= length l)%nat.
Proof.
  induction l as [|x l IH].
  - vm_compute. lia.
  - simpl. rewrite size_union_alt, size_singleton.
    assert (H : list_to_set l ∖ {[x]} ⊆ (list_to_set l : gset coord)) by set_solver.
    apply subseteq_size in H. lia.
Qed.

Lemma size_cells_of (g : Grid) (s : coord) :
  (size (cells_of g s) <= Z.to_nat (rows g) * Z.to_nat (cols g) + 1)%nat.
Proof.
  unfold cells_of. rewrite size_union_alt, size_singleton.
  pose proof (subseteq_size (all_cells g ∖ {[s]}) (all_cells g)) as H.
  assert (all_cells g ∖ {[s]} ⊆ all_cells g) as Hs by set_solver.
  specialize (H Hs).
  pose proof (size_list_to_set_le (list_prod (seqZ 0 (rows g)) (seqZ 0 (cols g)))) as Hl.
  rewrite length_prod, !length_seqZ in Hl. unfold all_cells in *. lia.
Qed.

Lemma neighbor_in_cells (g : Grid) (s p q : coord) :
  In q (get_neighbors g p) -> q ∈ cells_of g s.
Proof.
  intros Hq. apply get_neighbors_In in Hq as (_ & Hb & _).
  unfold cells_of. apply elem_of_union_r, all_cells_in_bounds, Hb.
Qed.

Lemma size_difference_add (U V : gset coord) (x : coord) :
  x ∈ U -> x ∉ V -> (size (U ∖ ({[x]} ∪ V)) + 1 = size (U ∖ V))%nat.
Proof.
  intros HU HV.
  assert (E : U ∖ V = {[x]} ∪ (U ∖ ({[x]} ∪ V))).
  { apply leibniz_equiv. intros y.
    rewrite elem_of_union, !elem_of_difference, elem_of_union, elem_of_singleton.
    destruct (decide (y = x)); subst; tauto. }
  rewrite E, (size_union {[x]} (U ∖ ({[x]} ∪ V))), size_singleton; [lia|].
  set_solver.
Qed.

Lemma size_difference_mono (U V W : gset coord) :
  V ⊆ W -> (size (U ∖ W) <= size (U ∖ V))%nat.
Proof. intros H. apply subseteq_size. set_solver. Qed.

(** ** [heapq] *)

(** Python's [<] on [(priority, (row, col))] tuples. *)
Definition entry_lt (a b : entry) : Prop :=
  a.1 < b.1 \/ (a.1 = b.1 /\ (a.2.1 < b.2.1 \/ (a.2.1 = b.2.1 /\ a.2.2 < b.2.2))).

Lemma entry_ltb_spec (a b : entry) : entry_ltb a b = true <-> entry_lt a b.
Proof.
  unfold entry_ltb, entry_lt.
  repeat (rewrite ?orb_true_iff, ?andb_true_iff, ?Z.ltb_lt, ?Z.eqb_eq). tauto.
Qed.

Lemma heap_min_in (m : entry) (h : list entry) : heap_min m h ∈ m :: h.
Proof.
  revert m. induction h as [|e h IH]; intros m; simpl.
  - left.
  - destruct (entry_ltb e m); [pose proof (IH e) | pose proof (IH m)]; set_solver.
Qed.

Lemma heap_min_least (m : entry) (h : list entry) (e : entry) :
  e ∈ m :: h -> ~ entry_lt e (heap_min m h).
Proof.
  revert m e. induction h as [|e' h IH]; intros m e He; simpl.
  - apply list_elem_of_singleton in He. subst. unfold entry_lt. lia.
  - destruct (entry_ltb e' m) eqn:Ec.
    + apply entry_ltb_spec in Ec.
      pose proof (IH e' e') as H1. pose proof (IH e' m) as H2.
      apply elem_of_cons in He as [->|He].
      * intros Hlt. apply H1; [left|]. unfold entry_lt in *. lia.
      * apply elem_of_cons in He as [->|He]; [apply H1; left|]. apply IH. right. exact He.
    + assert (Hn : ~ entry_lt e' m) by (rewrite <- entry_ltb_spec; congruence).
      pose proof (IH m m) as H1.
      apply elem_of_cons in He as [->|He]; [apply H1; left|].
      apply elem_of_cons in He as [->|He].
      * intros Hlt. apply H1; [left|]. unfold entry_lt in *. lia.
      * apply IH. right. exact He.
Qed.

Lemma remove_entry_perm (e : entry) (h : list entry) :
  e ∈ h -> h ≡ₚ e :: remove_entry e h.
Proof.
  induction h as [|x h IH]; intros He; simpl.
  - set_solver.
  - case_decide as Hx; [subst; reflexivity|].
    apply elem_of_cons in He as [->|He]; [congruence|].
    rewrite (IH He) at 1. apply Permutation_swap.
Qed.

Lemma heappop_spec (h : list entry) (m : entry) (h' : list entry) :
  heappop h = Some (m, h') -> h ≡ₚ m :: h' /\ (forall e, e ∈ h -> ~ entry_lt e m).
Proof.
  destruct h as [|e0 h]; simpl; [discriminate|].
  intros E. injection E as <- <-. split.
  - apply remove_entry_perm, heap_min_in.
  - intros e He. apply heap_min_least, He.
Qed.

Lemma heappop_None (h : list entry) : heappop h = None <-> h = [].
Proof. destruct h; simpl; split; congruence. Qed.

Lemma heappush_perm (h : list entry) (e : entry) : heappush h e ≡ₚ e :: h.
Proof. unfold heappush. rewrite Permutation_app_comm. reflexivity. Qed.

(** ** [reconstruct_path] *)

Lemma chain_mono (R R' : coord -> coord -> Prop) (l : list coord) :
  (forall x y, R x y -> R' x y) -> chain R l -> chain R' l.
Proof.
  intros HR. induction l as [|x [|y l] IH]; simpl; auto.
  intros [H1 H2]. split; [apply HR, H1 | apply IH, H2].
Qed.

Lemma chain_snoc (R : coord -> coord -> Prop) (l : list coord) (y : coord) :
  chain R l -> (forall x, last l = Some x -> R x y) -> chain R (l ++ [y]).
Proof.
  induction l as [|x [|x' l] IH]; simpl; intros Hc Hl.
  - exact I.
  - split; [apply Hl; reflexivity | exact I].
  - destruct Hc as [H1 H2]. split; [exact H1|]. apply IH; [exact H2|].
    intros z Hz. apply Hl. exact Hz.
Qed.

Lemma parent_chain_head (cf : gmap coord coord) (v : coord) (l : list coord) :
  parent_chain cf v l -> exists l', l = v :: l'.
Proof. intros H. destruct H; eauto. Qed.

Lemma reconstruct_loop_eq (fuel : nat) (cf : gmap coord coord) (cur : coord)
    (path : list coord) :
  reconstruct_loop fuel cf cur path =
  match cf !! cur with
  | None => Some path
  | Some prev =>
      match fuel with
      | O => None
      | S fuel' => reconstruct_loop fuel' cf prev (path ++ [prev])
      end
  end.
Proof. destruct fuel; reflexivity. Qed.

Lemma reconstruct_loop_chain (cf : gmap coord coord) (v : coord) (l : list coord) :
  parent_chain cf v l ->
  forall fuel path, (length l <= S fuel)%nat ->
  reconstruct_loop fuel cf v path = Some (path ++ tail l).
Proof.
  induction 1 as [v Hv | v u l Hv Hl IH]; intros fuel path Hlen;
    rewrite reconstruct_loop_eq.
  - rewrite Hv. simpl. rewrite app_nil_r. reflexivity.
  - rewrite Hv. destruct fuel as [|fuel].
    + destruct (parent_chain_head _ _ _ Hl) as [l' ->]. simpl in Hlen. lia.
    + simpl in Hlen. rewrite (IH fuel (path ++ [u])) by lia.
      destruct (parent_chain_head _ _ _ Hl) as [l' ->]. simpl.
      rewrite <- app_assoc. reflexivity.
Qed.

Lemma parent_chain_keys (cf : gmap coord coord) (v : coord) (l : list coord) :
  parent_chain cf v l -> NoDup l ->
  exists K : gset coord, K ⊆ dom cf /\ K ⊆ list_to_set l /\ (size K + 1 = length l)%nat.
Proof.
  induction 1 as [v Hv | v u l Hv Hl IH]; intros Hnd.
  - exists ∅. rewrite size_empty. simpl. split; [set_solver | split; [set_solver | lia]].
  - apply NoDup_cons in Hnd as [Hvl Hnd].
    destruct (IH Hnd) as (K & HK1 & HK2 & HK3).
    assert (HvK : v ∉ K).
    { intros HvK. apply HK2, elem_of_list_to_set in HvK. contradiction. }
    exists ({[v]} ∪ K). split; [|split].
    + apply union_subseteq. split; [|exact HK1].
      apply singleton_subseteq_l, elem_of_dom. rewrite Hv. eexists; reflexivity.
    + simpl. set_solver.
    + rewrite (size_union {[v]} K), size_singleton by set_solver. simpl. lia.
Qed.

Section Ranked.
Context (cf : gmap coord coord) (P : coord -> Prop) (D : coord -> nat).
Hypothesis ranked : forall v u, P v -> cf !! v = Some u -> P u /\ (D u < D v)%nat.

Lemma parent_chain_exists (v : coord) : P v -> exists l, parent_chain cf v l.
Proof.
  remember (D v) as n eqn:En. revert v En.
  induction n as [n IH] using lt_wf_ind. intros v En Hv.
  destruct (cf !! v) as [u|] eqn:Ev.
  - destruct (ranked v u Hv Ev) as [Hu Hlt].
    destruct (IH (D u) ltac:(lia) u eq_refl Hu) as [l Hl].
    exists (v :: l). econstructor; eauto.
  - exists [v]. constructor. exact Ev.
Qed.

Lemma parent_chain_ranked (v : coord) (l : list coord) :
  parent_chain cf v l -> P v ->
  Forall P l /\ (forall x, x ∈ l -> (D x <= D v)%nat) /\ NoDup l /\
  (length l <= S (D v))%nat.
Proof.
  induction 1 as [v Hv | v u l Hv Hl IH]; intros HP.
  - split; [constructor; [exact HP | constructor]|]. split.
    + intros x Hx. apply list_elem_of_singleton in Hx. subst. lia.
    + split; [apply NoDup_singleton | simpl; lia].
  - destruct (ranked v u HP Hv) as [Hu Hlt].
    destruct (IH Hu) as (HF & HD & Hnd & Hlen). split; [constructor; assumption|].
    split; [|split].
    + intros x Hx. apply elem_of_cons in Hx as [->|Hx]; [lia|]. specialize (HD x Hx). lia.
    + constructor; [|exact Hnd]. intros Hvl. specialize (HD v Hvl). lia.
    + simpl. lia.
Qed.

(** When every predecessor link of [came_from] lowers a rank [D], the
    reconstruction from a cell [v] succeeds and returns the reversed chain
    of predecessors, of at most [D v + 1] cells. *)
Lemma reconstruct_path_ranked (v : coord) :
  P v ->
  exists l, parent_chain cf v l /\ reconstruct_path cf v = Some (rev l) /\
    Forall P l /\ (length l <= S (D v))%nat.
Proof.
  intros Hv. destruct (parent_chain_exists v Hv) as [l Hl].
  destruct (parent_chain_ranked v l Hl Hv) as (HF & _ & Hnd & Hlen).
  exists l. split; [exact Hl|]. split; [|split; assumption].
  destruct (parent_chain_keys cf v l Hl Hnd) as (K & HK1 & _ & HK3).
  apply subseteq_size in HK1. rewrite size_dom in HK1.
  unfold reconstruct_path.
  rewrite (reconstruct_loop_chain cf v l Hl (size cf) [v]) by lia.
  destruct (parent_chain_head _ _ _ Hl) as [l' ->]. reflexivity.
Qed.

End Ranked.

Lemma parent_chain_path (cf : gmap coord coord) (v : coord) (l : list coord) :
  parent_chain cf v l ->
  chain (fun x y => cf !! y = Some x) (rev l) /\ last (rev l) = Some v /\
  exists r, head (rev l) = Some r /\ cf !! r = None.
Proof.
  induction 1 as [v Hv | v u l Hv Hl IH].
  - simpl. split; [exact I|]. split; [reflexivity|]. eauto.
  - destruct IH as (Hc & Hlast & r & Hr & Hrn). simpl. split; [|split].
    + apply chain_snoc; [exact Hc|]. intros x Hx. rewrite Hlast in Hx.
      injection Hx as <-. exact Hv.
    + rewrite last_app. reflexivity.
    + exists r. split; [|exact Hrn].
      destruct (parent_chain_head _ _ _ Hl) as [l' ->]. simpl in *.
      destruct (rev l') as [|a l'']; simpl in *; [exact Hr|]. exact Hr.
Qed.

(** ** Walks *)

Lemma around_adjacent (p q : coord) : In q (around p) <-> adjacent p q.
Proof.
  destruct p as [r c], q as [r' c']. unfold around, adjacent. simpl. split.
  - intros [H|[H|[H|[H|[]]]]]; injection H as <- <-; lia.
  - intros H.
    assert ((r' = r - 1 /\ c' = c) \/ (r' = r /\ c' = c + 1) \/
            (r' = r + 1 /\ c' = c) \/ (r' = r /\ c' = c - 1)) as Hc by lia.
    destruct Hc as [[-> ->]|[[-> ->]|[[-> ->]|[-> ->]]]]; auto.
Qed.

Lemma NoDup_around (p : coord) : NoDup (around p).
Proof.
  destruct p as [r c]. unfold around. simpl.
  repeat constructor; intros H; apply list_elem_of_In in H; simpl in H;
    repeat match goal with
    | H : _ \/ _ |- _ => destruct H as [H|H]
    | H : (_, _) = (_, _) |- _ => injection H; lia
    | H : False |- _ => contradiction
    end.
Qed.

Lemma NoDup_get_neighbors (g : Grid) (p : coord) : NoDup (get_neighbors g p).
Proof.
  rewrite get_neighbors_filter. apply NoDup_ListNoDup, List.NoDup_filter, NoDup_ListNoDup.
  apply NoDup_around.
Qed.

Lemma chain_snoc_inv (R : coord -> coord -> Prop) (l : list coord) (y : coord) :
  chain R (l ++ [y]) -> chain R l /\ (forall x, last l = Some x -> R x y).
Proof.
  induction l as [|x [|x' l] IH]; simpl; intros Hc.
  - split; [exact I | discriminate].
  - destruct Hc as [H _]. split; [exact I|]. intros z Hz. injection Hz as <-. exact H.
  - destruct Hc as [H1 H2]. destruct (IH H2) as [IH1 IH2].
    split; [split; assumption|]. exact IH2.
Qed.

(** A walk along [get_neighbors] from [s] to [x]. *)
Definition walk_from (g : Grid) (s x : coord) (w : list coord) : Prop :=
  head w = Some s /\ last w = Some x /\ is_walk g w.

Lemma walk_from_snoc (g : Grid) (s x y : coord) (w : list coord) :
  walk_from g s x (w ++ [y]) ->
  y = x /\ ((w = [] /\ x = s) \/
            exists p, walk_from g s p w /\ In x (get_neighbors g p)).
Proof.
  intros (Hh & Hl & Hw). rewrite last_app in Hl. simpl in Hl. injection Hl as ->.
  split; [reflexivity|].
  apply chain_snoc_inv in Hw as [Hw Hlast].
  destruct (last w) as [p|] eqn:Ep.
  - right. exists p. split; [|apply Hlast; reflexivity].
    split; [|split; [exact Ep | exact Hw]].
    destruct w as [|a w']; [discriminate | exact Hh].
  - left. apply last_None in Ep. subst w. simpl in Hh. injection Hh as ->. auto.
Qed.

Lemma walk_from_length (g : Grid) (s x : coord) (w : list coord) :
  walk_from g s x w -> (1 <= length w)%nat.
Proof. intros (Hh & _). destruct w; [discriminate | simpl; lia]. Qed.

Lemma valid_path_walk (g : Grid) (s t : coord) (p : list coord) :
  valid_path g s t p -> walk_from g s t p.
Proof.
  intros (Hh & Hl & Hf & Hc). split; [exact Hh|]. split; [exact Hl|].
  clear Hh Hl. induction p as [|x [|y p] IH]; simpl in *; auto.
  destruct Hc as [Ha Hc]. inversion Hf as [|? ? Hx Hf']. subst.
  split; [|apply IH; assumption].
  inversion Hf' as [|? ? [Hb Ho] _]. subst.
  apply get_neighbors_In. split; [apply around_adjacent, Ha|]. auto.
Qed.

Lemma walk_from_valid (g : Grid) (s t : coord) (p : list coord) :
  free_cell g s -> walk_from g s t p -> valid_path g s t p.
Proof.
  intros Hs (Hh & Hl & Hw). split; [exact Hh|]. split; [exact Hl|].
  clear Hl. revert s Hs Hh. induction p as [|x [|y p] IH]; intros s Hs Hh;
    simpl in *; [discriminate| |]; injection Hh as ->.
  - split; [constructor; [exact Hs | constructor] | exact I].
  - destruct Hw as [Hxy Hw].
    destruct (IH Hw y) as [Hf Hc]; [|reflexivity|].
    + apply get_neighbors_In in Hxy as (_ & Hb & Ho). split; assumption.
    + split; [constructor; assumption|]. split; [|exact Hc].
      apply get_neighbors_In in Hxy as (Ha & _). apply around_adjacent, Ha.
Qed.

Lemma filter_ext_elem (P1 P2 : coord -> Prop) `{forall x, Decision (P1 x)}
    `{forall x, Decision (P2 x)} (l : list coord) :
  (forall x, x ∈ l -> P1 x <-> P2 x) -> filter P1 l = filter P2 l.
Proof.
  induction l as [|a l IH]; intros HP; [reflexivity|].
  rewrite !filter_cons. rewrite IH by (intros x Hx; apply HP; set_solver).
  destruct (decide (P1 a)) as [H1|H1], (decide (P2 a)) as [H2|H2]; try reflexivity;
    exfalso; pose proof (HP a ltac:(set_solver)); tauto.
Qed.

Lemma size_difference_list (U V : gset coord) (l : list coord) :
  NoDup l -> (forall x, x ∈ l -> x ∈ U /\ x ∉ V) ->
  (size (U ∖ (list_to_set l ∪ V)) + length l = size (U ∖ V))%nat.
Proof.
  revert V. induction l as [|a l IH]; intros V Hnd Hl; simpl.
  - rewrite (left_id_L ∅ union V). lia.
  - apply NoDup_cons in Hnd as [Ha Hnd].
    rewrite <- (assoc_L union).
    assert (Hl' : forall x, x ∈ l -> x ∈ U /\ x ∉ V)
      by (intros x Hx; apply Hl; set_solver).
    pose proof (IH V Hnd Hl') as E1. pose proof (Hl a ltac:(set_solver)) as [HaU HaV].
    assert (Ha' : a ∉ list_to_set l ∪ V)
      by (rewrite elem_of_union, elem_of_list_to_set; tauto).
    pose proof (size_difference_add U (list_to_set l ∪ V) a HaU Ha') as E2. lia.
Qed.

Lemma size_list_to_set_disjoint (V : gset coord) (l : list coord) :
  NoDup l -> (forall x, x ∈ l -> x ∉ V) ->
  size (list_to_set l ∪ V) = (length l + size V)%nat.
Proof.
  revert V. induction l as [|a l IH]; intros V Hnd Hl; simpl.
  - rewrite (left_id_L ∅ union V). reflexivity.
  - apply NoDup_cons in Hnd as [Ha Hnd].
    rewrite <- (assoc_L union).
    rewrite (size_union {[a]} (list_to_set l ∪ V)), size_singleton.
    + rewrite IH; [lia | exact Hnd |]. intros x Hx. apply Hl. set_solver.
    + pose proof (Hl a ltac:(set_solver)). set_solver.
Qed.

(** States reached by a loop from its initial state. *)
Inductive reachable {S : Type} (step : S -> step_result S) (st0 : S) : S -> Prop :=
| reach_init : reachable step st0 st0
| reach_step st st' : reachable step st0 st -> step st = Continue st' -> reachable step st0 st'.

Lemma reachable_inv {S : Type} (step : S -> step_result S) (I : S -> Prop) (st0 st : S) :
  I st0 -> (forall st st', I st -> step st = Continue st' -> I st') ->
  reachable step st0 st -> I st.
Proof. intros H0 Hs Hr. induction Hr; eauto. Qed.

(** ** Breadth-First *)

Lemma bfs_fold_spec (c : coord) (l : list coord) (st : RunBFS.state) :
  NoDup l ->
  RunBFS.queue (fold_left (RunBFS.visit_neighbor c) l st) =
    RunBFS.queue st ++ filter (fun n => n ∉ RunBFS.visited st) l /\
  RunBFS.visited (fold_left (RunBFS.visit_neighbor c) l st) =
    list_to_set (filter (fun n => n ∉ RunBFS.visited st) l) ∪ RunBFS.visited st /\
  (forall y, RunBFS.came_from (fold_left (RunBFS.visit_neighbor c) l st) !! y =
     if decide (y ∈ filter (fun n => n ∉ RunBFS.visited st) l) then Some c
     else RunBFS.came_from st !! y) /\
  RunBFS.n_visited (fold_left (RunBFS.visit_neighbor c) l st) = RunBFS.n_visited st /\
  RunBFS.n_explored (fold_left (RunBFS.visit_neighbor c) l st) =
    (RunBFS.n_explored st + length (filter (fun n => n ∉ RunBFS.visited st) l))%nat.
Proof.
  revert st. induction l as [|a l IH]; intros st Hnd.
  - cbn [fold_left]. rewrite filter_nil, app_nil_r. split; [reflexivity|].
    split; [simpl; rewrite (left_id_L ∅ union); reflexivity|].
    split; [intros y; rewrite decide_False; [reflexivity | apply not_elem_of_nil]|].
    split; [reflexivity | simpl; lia].
  - apply NoDup_cons in Hnd as [Ha Hnd]. simpl fold_left.
    destruct (decide (a ∈ RunBFS.visited st)) as [Hv|Hv].
    + replace (RunBFS.visit_neighbor c st a) with st
        by (unfold RunBFS.visit_neighbor; rewrite decide_True by exact Hv; reflexivity).
      rewrite filter_cons_False by tauto. apply IH, Hnd.
    + replace (RunBFS.visit_neighbor c st a) with
        (RunBFS.mkState (RunBFS.queue st ++ [a]) ({[a]} ∪ RunBFS.visited st)
           (<[a:=c]> (RunBFS.came_from st)) (RunBFS.n_visited st)
           (S (RunBFS.n_explored st)))
        by (unfold RunBFS.visit_neighbor; rewrite decide_False by exact Hv; reflexivity).
      rewrite filter_cons_True by exact Hv.
      destruct (IH (RunBFS.mkState (RunBFS.queue st ++ [a]) ({[a]} ∪ RunBFS.visited st)
           (<[a:=c]> (RunBFS.came_from st)) (RunBFS.n_visited st)
           (S (RunBFS.n_explored st))) Hnd) as (H1 & H2 & H3 & H4 & H5). simpl in *.
      rewrite (filter_ext_elem (fun n => n ∉ {[a]} ∪ RunBFS.visited st)
                 (fun n => n ∉ RunBFS.visited st) l) in H1, H2, H3, H5
        by (intros x Hx; split; [set_solver|]; intros Hx' Hx''; set_solver).
      split; [rewrite H1, <- app_assoc; reflexivity|].
      split; [rewrite H2; simpl; apply leibniz_equiv; intros y; rewrite !elem_of_union; tauto|].
      split; [|split; [exact H4 | rewrite H5; simpl; lia]].
      intros y. rewrite H3. case_decide as Hy1; case_decide as Hy2.
      * reflexivity.
      * set_solver.
      * apply elem_of_cons in Hy2 as [->|Hy2]; [apply lookup_insert_eq | contradiction].
      * rewrite lookup_insert_ne; [reflexivity|]. intros ->. apply Hy2. left.
Qed.

Section BFSInvariant.
Context (g : Grid) (s goal : coord).

(** A cell taken off the queue and expanded. *)
Definition bfs_processed (st : RunBFS.state) (x : coord) : Prop :=
  x ∈ RunBFS.visited st /\ x ∉ RunBFS.queue st.

(** The invariant of [run_bfs], with [D] the distance of each visited cell
    from the start. *)
Record bfs_inv (D : coord -> nat) (st : RunBFS.state) : Prop := {
  bi_start : s ∈ RunBFS.visited st;
  bi_cells : RunBFS.visited st ⊆ cells_of g s;
  bi_queue : forall x, x ∈ RunBFS.queue st -> x ∈ RunBFS.visited st;
  bi_nodup : NoDup (RunBFS.queue st);
  bi_root : RunBFS.came_from st !! s = None;
  bi_parent : forall v, v ∈ RunBFS.visited st -> v <> s ->
    is_Some (RunBFS.came_from st !! v);
  bi_link : forall v u, RunBFS.came_from st !! v = Some u ->
    v ∈ RunBFS.visited st /\ u ∈ RunBFS.visited st /\ S (D u) = D v /\
    In v (get_neighbors g u);
  bi_depth_start : D s = 0%nat;
  bi_layers : exists k Q1 Q2, RunBFS.queue st = Q1 ++ Q2 /\
    (forall x, x ∈ Q1 -> D x = k) /\ (forall x, x ∈ Q2 -> D x = S k);
  bi_closed : forall x y, bfs_processed st x -> In y (get_neighbors g x) ->
    y ∈ RunBFS.visited st;
  bi_shortest : forall x w, x ∈ RunBFS.visited st -> walk_from g s x w ->
    (S (D x) <= length w)%nat;
  bi_goal : ~ bfs_processed st goal;
  bi_count : RunBFS.n_explored st = size (RunBFS.visited st)
}.

Definition bfs_measure (st : RunBFS.state) : nat :=
  (size (cells_of g s ∖ RunBFS.visited st) + length (RunBFS.queue st))%nat.

(** Every cell reachable by a walk no longer than the depth of any queued
    cell has already been processed. *)
Lemma bfs_inv_reach (D : coord -> nat) (st : RunBFS.state) :
  bfs_inv D st ->
  forall w x, walk_from g s x w ->
  (forall y, y ∈ RunBFS.queue st -> (length w <= D y)%nat) ->
  bfs_processed st x.
Proof.
  intros Hi w. induction w as [|y w IH] using rev_ind; intros x Hw Hq.
  - destruct Hw as [Hh _]. discriminate.
  - pose proof Hw as Hw0.
    apply walk_from_snoc in Hw as [-> [[-> ->] | (p & Hp & Hn)]].
    + split; [apply (bi_start _ _ Hi)|]. intros Hs. specialize (Hq s Hs).
      rewrite (bi_depth_start _ _ Hi) in Hq. simpl in Hq. lia.
    + assert (Hpp : bfs_processed st p).
      { apply IH; [exact Hp|]. intros y Hy. specialize (Hq y Hy).
        rewrite length_app in Hq. simpl in Hq. lia. }
      assert (Hx : x ∈ RunBFS.visited st) by (eapply (bi_closed _ _ Hi); eauto).
      split; [exact Hx|]. intros HxQ. specialize (Hq x HxQ).
      pose proof (bi_shortest _ _ Hi x _ Hx Hw0). lia.
Qed.

Lemma bfs_init_inv : bfs_inv (fun _ => 0%nat) (RunBFS.init s).
Proof.
  unfold RunBFS.init. constructor; simpl.
  - set_solver.
  - unfold cells_of. set_solver.
  - set_solver.
  - apply NoDup_singleton.
  - apply lookup_empty.
  - intros v Hv Hne. set_solver.
  - intros v u H. rewrite lookup_empty in H. discriminate.
  - reflexivity.
  - exists 0%nat, [s], []. split; [reflexivity|]. split; [|set_solver].
    intros x _. reflexivity.
  - intros x y [Hx Hq]. set_solver.
  - intros x w _ Hw. apply walk_from_length in Hw. lia.
  - intros [Hx Hq]. set_solver.
  - change (1%nat = size ({[s]} : gset coord)). rewrite size_singleton. reflexivity.
Qed.

End BFSInvariant.

Lemma bfs_step_inv (g : Grid) (s goal : coord) (D : coord -> nat) (st st' : RunBFS.state) :
  bfs_inv g s goal D st -> RunBFS.step g goal st = Continue st' ->
  (exists D', bfs_inv g s goal D' st') /\ (bfs_measure g s st' < bfs_measure g s st)%nat.
Proof.
  intros Hi Hstep. pose proof Hi as Hi0. unfold RunBFS.step in Hstep.
  destruct (RunBFS.queue st) as [|c rest] eqn:EQ; [discriminate|].
  destruct (decide (c = goal)) as [Hcg|Hcg]; [discriminate|].
  injection Hstep as <-. unfold RunBFS.expand.
  pose proof (NoDup_get_neighbors g c) as Hnb.
  remember (get_neighbors g c) as nb eqn:Enb.
  destruct (bfs_fold_spec c nb (RunBFS.mkState rest (RunBFS.visited st) (RunBFS.came_from st)
     (S (RunBFS.n_visited st)) (RunBFS.n_explored st)) Hnb) as (HQ & HV & HCF & _ & HN).
  cbn [RunBFS.queue RunBFS.visited RunBFS.came_from RunBFS.n_explored] in HQ, HV, HCF, HN.
  set (st'' := fold_left _ nb _) in *.
  set (new := filter (fun n => n ∉ RunBFS.visited st) nb) in *.
  destruct Hi as [Hs Hcells Hqv Hqnd Hroot Hpar Hlink HD0 Hlay Hclosed Hshort Hgoal Hcount].
  rewrite EQ in Hqv, Hqnd.
  assert (Hc : c ∈ RunBFS.visited st) by (apply Hqv; left).
  assert (Hnew : forall y, (y ∈ new) <-> ((y ∉ RunBFS.visited st) /\ In y nb))
    by (intros y; unfold new; rewrite list_elem_of_filter, list_elem_of_In; reflexivity).
  assert (Hnd : NoDup new) by (apply NoDup_filter, Hnb).
  set (D' := fun y => if decide (y ∈ new) then S (D c) else D y).
  assert (HD'V : forall y, y ∈ RunBFS.visited st -> D' y = D y).
  { intros y Hy. unfold D'. rewrite decide_False; [reflexivity|].
    intros Hy'. apply Hnew in Hy'. tauto. }
  destruct Hlay as (k & Q1 & Q2 & HQ12 & HQ1 & HQ2). rewrite EQ in HQ12.
  assert (Hmm : (forall y, y ∈ rest -> D c <= D y <= S (D c))%nat /\
     exists k' Q1' Q2', rest ++ new = Q1' ++ Q2' /\
       (forall x, x ∈ Q1' -> D' x = k') /\ (forall x, x ∈ Q2' -> D' x = S k')).
  { destruct Q1 as [|c' Q1].
    - simpl in HQ12. subst Q2.
      assert (HDc : D c = S k) by (apply HQ2; left).
      split.
      + intros y Hy. assert (D y = S k) by (apply HQ2; right; exact Hy). lia.
      + exists (S k), rest, new. split; [reflexivity|]. split.
        * intros x Hx. rewrite HD'V by (apply Hqv; right; exact Hx).
          apply HQ2. right. exact Hx.
        * intros x Hx. unfold D'. rewrite decide_True by exact Hx. lia.
    - injection HQ12 as <- Hrest.
      assert (HDc : D c = k) by (apply HQ1; left).
      split.
      + intros y Hy. rewrite Hrest in Hy. apply elem_of_app in Hy as [Hy|Hy].
        * assert (D y = k) by (apply HQ1; right; exact Hy). lia.
        * assert (D y = S k) by (apply HQ2, Hy). lia.
      + exists k, Q1, (Q2 ++ new). split; [rewrite Hrest, <- app_assoc; reflexivity|].
        split.
        * intros x Hx.
          rewrite HD'V by (apply Hqv; right; rewrite Hrest; apply elem_of_app; left; exact Hx).
          apply HQ1. right. exact Hx.
        * intros x Hx. apply elem_of_app in Hx as [Hx|Hx].
          -- rewrite HD'V by (apply Hqv; right; rewrite Hrest; apply elem_of_app; right;
                              exact Hx).
             apply HQ2, Hx.
          -- unfold D'. rewrite decide_True by exact Hx. lia. }
  destruct Hmm as [Hrange Hlayers].
  assert (Hproc : forall x, bfs_processed st'' x -> x = c \/ bfs_processed st x).
  { intros x [Hx Hxq]. unfold bfs_processed. rewrite HV in Hx. rewrite HQ in Hxq.
    apply elem_of_union in Hx as [Hx|Hx].
    - exfalso. apply Hxq. apply elem_of_app. right. apply elem_of_list_to_set in Hx. exact Hx.
    - destruct (decide (x = c)) as [->|Hxc]; [left; reflexivity|]. right.
      split; [exact Hx|]. rewrite EQ. intros Hq.
      apply elem_of_cons in Hq as [?|Hq]; [contradiction|].
      apply Hxq, elem_of_app. left. exact Hq. }
  assert (Hnew_cells : forall x, x ∈ new -> x ∈ cells_of g s /\ x ∉ RunBFS.visited st).
  { intros x Hx. apply Hnew in Hx as [Hx1 Hx2]. split; [|exact Hx1].
    rewrite Enb in Hx2. eapply neighbor_in_cells. exact Hx2. }
  split.
  - exists D'. constructor.
    + rewrite HV. apply elem_of_union_r. exact Hs.
    + rewrite HV. apply union_subseteq. split; [|exact Hcells].
      intros y Hy. apply elem_of_list_to_set, Hnew_cells in Hy. tauto.
    + rewrite HQ, HV. intros x Hx. apply elem_of_app in Hx as [Hx|Hx].
      * apply elem_of_union_r, Hqv. right. exact Hx.
      * apply elem_of_union_l, elem_of_list_to_set, Hx.
    + rewrite HQ. apply NoDup_cons in Hqnd as [_ Hrnd]. apply NoDup_app.
      split; [exact Hrnd|]. split; [|exact Hnd].
      intros x Hx Hx'. apply Hnew in Hx' as [Hx' _]. apply Hx', Hqv. right. exact Hx.
    + rewrite HCF. rewrite decide_False; [exact Hroot|].
      intros H. apply Hnew in H as [H _]. contradiction.
    + intros v Hv Hvs. rewrite HCF. case_decide; [eexists; reflexivity|].
      apply Hpar; [|exact Hvs]. rewrite HV in Hv.
      apply elem_of_union in Hv as [Hv|Hv]; [apply elem_of_list_to_set in Hv; contradiction|].
      exact Hv.
    + intros v u Hvu. rewrite HCF in Hvu. rewrite HV. case_decide as Hv.
      * injection Hvu as <-. pose proof Hv as Hv'. apply Hnew in Hv' as [_ Hvn].
        split; [apply elem_of_union_l, elem_of_list_to_set, Hv|].
        split; [apply elem_of_union_r, Hc|].
        split; [|rewrite <- Enb; exact Hvn].
        rewrite (HD'V c Hc). unfold D'. rewrite decide_True by exact Hv. reflexivity.
      * destruct (Hlink v u Hvu) as (Hv1 & Hu1 & HDu & Hn).
        split; [apply elem_of_union_r, Hv1|]. split; [apply elem_of_union_r, Hu1|].
        split; [|exact Hn]. rewrite (HD'V u Hu1), (HD'V v Hv1). exact HDu.
    + rewrite (HD'V s Hs). exact HD0.
    + rewrite HQ. exact Hlayers.
    + intros x y Hx Hy. rewrite HV. destruct (Hproc x Hx) as [->|Hxo].
      * destruct (decide (y ∈ RunBFS.visited st)) as [Hyv|Hyv];
          [apply elem_of_union_r, Hyv|].
        apply elem_of_union_l, elem_of_list_to_set, Hnew. split; [exact Hyv|].
        rewrite Enb. exact Hy.
      * apply elem_of_union_r. eapply Hclosed; eauto.
    + intros x w Hx Hw. rewrite HV in Hx. destruct (decide (x ∈ new)) as [Hxn|Hxn].
      * replace (D' x) with (S (D c)) by (unfold D'; rewrite decide_True by exact Hxn;
                                          reflexivity).
        destruct (le_lt_dec (S (S (D c))) (length w)) as [|Hlt]; [assumption|exfalso].
        assert (Hw1 := walk_from_length _ _ _ _ Hw).
        destruct (exists_last (l := w)) as (w' & a & ->); [destruct w; simpl in *; [lia|discriminate]|].
        pose proof Hxn as Hxn'. apply Hnew in Hxn' as [HxV _].
        apply walk_from_snoc in Hw as [-> [[-> ->] | (p & Hp & Hn)]]; [contradiction|].
        assert (Hpp : bfs_processed st p).
        { apply (bfs_inv_reach g s goal D st Hi0 w' p Hp). rewrite EQ. intros y Hy.
          rewrite length_app in Hlt. simpl in Hlt.
          apply elem_of_cons in Hy as [->|Hy]; [lia|]. specialize (Hrange y Hy). lia. }
        apply HxV. eapply Hclosed; eauto.
      * apply elem_of_union in Hx as [Hx|Hx]; [apply elem_of_list_to_set in Hx; contradiction|].
        rewrite (HD'V x Hx). apply Hshort; assumption.
    + intros Hg. destruct (Hproc goal Hg) as [Hcg'|Hgo]; [apply Hcg; symmetry; exact Hcg'|].
      apply Hgoal, Hgo.
    + rewrite HN, HV. rewrite size_list_to_set_disjoint; [rewrite Hcount; lia|exact Hnd|].
      intros x Hx. apply Hnew_cells in Hx. tauto.
  - unfold bfs_measure. rewrite HQ, HV, EQ, length_app. simpl length.
    pose proof (size_difference_list (cells_of g s) (RunBFS.visited st) new Hnd Hnew_cells).
    lia.
Qed.

Lemma search_fuel_bound (g : Grid) (s : coord) :
  (5 * size (cells_of g s) + 1 < search_fuel g)%nat.
Proof. pose proof (size_cells_of g s). unfold search_fuel. lia. Qed.

Lemma size_cells_of_start (g : Grid) (s : coord) :
  (size (cells_of g s ∖ {[s]}) + 1 = size (cells_of g s))%nat.
Proof.
  pose proof (size_difference_add (cells_of g s) ∅ s ltac:(unfold cells_of; set_solver)
                ltac:(set_solver)) as H.
  rewrite (right_id_L ∅ union), (difference_empty_L (cells_of g s)) in H. exact H.
Qed.

Lemma valid_path_start_free (g : Grid) (s t : coord) (q : list coord) :
  valid_path g s t q -> free_cell g s.
Proof.
  intros (Hh & _ & Hf & _). destruct q as [|x q]; [discriminate|].
  injection Hh as ->. inversion Hf. assumption.
Qed.

Lemma bfs_loop_stops (g : Grid) (s goal : coord) :
  exists st, (exists D, bfs_inv g s goal D st) /\
    RunBFS.step g goal st = Stop (run_bfs g s goal).
Proof.
  unfold run_bfs, RunBFS.loop.
  apply (while_loop_stops (RunBFS.step g goal) RunBFS.out_of_fuel
           (fun st => exists D, bfs_inv g s goal D st) (bfs_measure g s)).
  - intros st st' [D Hi] Hs. apply (bfs_step_inv g s goal D st st' Hi Hs).
  - intros st st' [D Hi] Hs. apply (bfs_step_inv g s goal D st st' Hi Hs).
  - exists (fun _ => 0%nat). apply bfs_init_inv.
  - unfold bfs_measure, RunBFS.init. simpl.
    pose proof (size_cells_of_start g s). pose proof (search_fuel_bound g s). lia.
Qed.

(** The path [run_bfs] returns, read off a state where it stops at the
    goal. *)
Lemma bfs_found_path (g : Grid) (s t : coord) (D : coord -> nat) (st : RunBFS.state) :
  bfs_inv g s t D st -> t ∈ RunBFS.visited st ->
  exists l, reconstruct_path (RunBFS.came_from st) t = Some (rev l) /\
    walk_from g s t (rev l) /\ (length l <= S (D t))%nat.
Proof.
  intros Hi Ht.
  assert (Hrank : forall v u, v ∈ RunBFS.visited st -> RunBFS.came_from st !! v = Some u ->
            u ∈ RunBFS.visited st /\ (D u < D v)%nat).
  { intros v u _ Hvu. destruct (bi_link _ _ _ _ _ Hi v u Hvu) as (_ & Hu & HDu & _).
    split; [exact Hu | lia]. }
  destruct (reconstruct_path_ranked (RunBFS.came_from st) (fun v => v ∈ RunBFS.visited st) D
              Hrank t Ht) as (l & Hl & Hrec & HF & Hlen).
  exists l. split; [exact Hrec|]. split; [|exact Hlen].
  destruct (parent_chain_path _ _ _ Hl) as (Hc & Hlast & r & Hr & Hrn).
  assert (Hrs : r = s).
  { destruct (decide (r = s)) as [|Hrs]; [assumption|].
    assert (Hrl : In r l).
    { apply in_rev. destruct (rev l) as [|a l0]; [discriminate|].
      injection Hr as ->. left. reflexivity. }
    rewrite Forall_forall in HF.
    destruct (bi_parent _ _ _ _ _ Hi r (HF r (proj2 (list_elem_of_In l r) Hrl)) Hrs) as [u Hu]. congruence. }
  subst r. split; [exact Hr|]. split; [exact Hlast|].
  revert Hc. apply chain_mono. intros x y Hxy. apply (bi_link _ _ _ _ _ Hi y x Hxy).
Qed.

Lemma bfs_finds_shortest (g : Grid) (s t : coord) (q : list coord) :
  valid_path g s t q ->
  exists p, result (run_bfs g s t) = Found p /\ valid_path g s t p /\
    forall q', valid_path g s t q' -> (length p <= length q')%nat.
Proof.
  intros Hq. pose proof (valid_path_walk _ _ _ _ Hq) as Hw.
  destruct (bfs_loop_stops g s t) as (st & [D Hi] & Hstop).
  unfold RunBFS.step in Hstop. destruct (RunBFS.queue st) as [|c rest] eqn:EQ.
  - exfalso. apply (bi_goal _ _ _ _ _ Hi).
    apply (bfs_inv_reach g s t D st Hi q t Hw). rewrite EQ. intros y Hy. inversion Hy.
  - destruct (decide (c = t)) as [->|Hct]; [|discriminate].
    injection Hstop as Hr. rewrite <- Hr. cbn [RunBFS.came_from result].
    assert (Ht : t ∈ RunBFS.visited st) by (apply (bi_queue _ _ _ _ _ Hi); rewrite EQ; left).
    destruct (bfs_found_path g s t D st Hi Ht) as (l & Hrec & Hwl & Hlen).
    rewrite Hrec. exists (rev l). split; [reflexivity|].
    split; [apply walk_from_valid; [eapply valid_path_start_free; exact Hq | exact Hwl]|].
    intros q' Hq'. rewrite length_rev.
    pose proof (bi_shortest _ _ _ _ _ Hi t q' Ht (valid_path_walk _ _ _ _ Hq')). lia.
Qed.

Lemma bfs_reachable_inv (g : Grid) (s t : coord) (st : RunBFS.state) :
  reachable (RunBFS.step g t) (RunBFS.init s) st -> exists D, bfs_inv g s t D st.
Proof.
  apply (reachable_inv _ (fun st => exists D, bfs_inv g s t D st)).
  - exists (fun _ => 0%nat). apply bfs_init_inv.
  - intros st1 st2 [D Hi] Hs. apply (bfs_step_inv g s t D st1 st2 Hi Hs).
Qed.

(** C1: whenever a path of free, 4-adjacent cells leads from [start] to
    [goal], [run_bfs] finds a path, and no valid path is shorter. In every
    state of the run, each queued cell is already in [visited] (it is
    marked when enqueued), the queue holds no duplicate, and
    [nodes_explored], which counts the enqueue operations from the initial
    one on, equals the number of cells in [visited]: no coordinate is
    enqueued twice. *)
Theorem bfs_shortest_path (g : Grid) (s t : coord) :
  ((exists q, valid_path g s t q) ->
   exists p, result (run_bfs g s t) = Found p /\ valid_path g s t p /\
     forall q, valid_path g s t q -> (length p <= length q)%nat) /\
  (forall st, reachable (RunBFS.step g t) (RunBFS.init s) st ->
     (forall x, x ∈ RunBFS.queue st -> x ∈ RunBFS.visited st) /\
     NoDup (RunBFS.queue st) /\
     RunBFS.n_explored st = size (RunBFS.visited st)).
Proof.
  split.
  - intros [q Hq]. exact (bfs_finds_shortest g s t q Hq).
  - intros st Hr. destruct (bfs_reachable_inv g s t st Hr) as [D Hi].
    split; [apply (bi_queue _ _ _ _ _ Hi)|].
    split; [apply (bi_nodup _ _ _ _ _ Hi) | apply (bi_count _ _ _ _ _ Hi)].
Qed.

(** ** Depth-First *)

Lemma not_in_own_neighbors (g : Grid) (p : coord) : ~ In p (get_neighbors g p).
Proof.
  intros H. apply get_neighbors_In in H as [H _]. apply around_adjacent in H.
  unfold adjacent in H. rewrite !Z.sub_diag in H. simpl in H. lia.
Qed.

Lemma length_get_neighbors (g : Grid) (p : coord) : (length (get_neighbors g p) <= 4)%nat.
Proof. rewrite get_neighbors_filter. etransitivity; [apply filter_length_le|]. simpl. lia. Qed.

Lemma dfs_fold_spec (c : coord) (l : list coord) (st : RunDFS.state) :
  RunDFS.stack (fold_left (RunDFS.push_neighbor c) l st) =
    rev (filter (fun n => n ∉ RunDFS.visited st) l) ++ RunDFS.stack st /\
  RunDFS.visited (fold_left (RunDFS.push_neighbor c) l st) = RunDFS.visited st /\
  (forall y, RunDFS.came_from (fold_left (RunDFS.push_neighbor c) l st) !! y =
     if decide (y ∈ filter (fun n => n ∉ RunDFS.visited st) l) then Some c
     else RunDFS.came_from st !! y) /\
  RunDFS.n_visited (fold_left (RunDFS.push_neighbor c) l st) = RunDFS.n_visited st /\
  RunDFS.n_explored (fold_left (RunDFS.push_neighbor c) l st) =
    (RunDFS.n_explored st + length (filter (fun n => n ∉ RunDFS.visited st) l))%nat.
Proof.
  revert st. induction l as [|a l IH]; intros st.
  - cbn [fold_left]. rewrite filter_nil. split; [reflexivity|].
    split; [reflexivity|].
    split; [intros y; rewrite decide_False; [reflexivity | apply not_elem_of_nil]|].
    split; [reflexivity | simpl; lia].
  - simpl fold_left.
    destruct (decide (a ∈ RunDFS.visited st)) as [Hv|Hv].
    + replace (RunDFS.push_neighbor c st a) with st
        by (unfold RunDFS.push_neighbor; rewrite decide_True by exact Hv; reflexivity).
      rewrite filter_cons_False by tauto. apply IH.
    + replace (RunDFS.push_neighbor c st a) with
        (RunDFS.mkState (a :: RunDFS.stack st) (RunDFS.visited st)
           (<[a:=c]> (RunDFS.came_from st)) (RunDFS.n_visited st)
           (S (RunDFS.n_explored st)))
        by (unfold RunDFS.push_neighbor; rewrite decide_False by exact Hv; reflexivity).
      rewrite filter_cons_True by exact Hv.
      destruct (IH (RunDFS.mkState (a :: RunDFS.stack st) (RunDFS.visited st)
           (<[a:=c]> (RunDFS.came_from st)) (RunDFS.n_visited st)
           (S (RunDFS.n_explored st)))) as (H1 & H2 & H3 & H4 & H5). simpl in *.
      split; [rewrite H1, <- app_assoc; reflexivity|].
      split; [exact H2|].
      split; [|split; [exact H4 | rewrite H5; simpl; lia]].
      intros y. rewrite H3. case_decide as Hy1; case_decide as Hy2.
      * reflexivity.
      * exfalso. apply Hy2. right. exact Hy1.
      * apply elem_of_cons in Hy2 as [->|Hy2]; [apply lookup_insert_eq | contradiction].
      * rewrite lookup_insert_ne; [reflexivity|]. intros ->. apply Hy2. left.
Qed.

Lemma elem_of_rev_coord (x : coord) (l : list coord) : x ∈ rev l <-> x ∈ l.
Proof. rewrite !list_elem_of_In, <- in_rev. reflexivity. Qed.

Section DFSInvariant.
Context (g : Grid) (s goal : coord).

(** The invariant of [run_dfs], with [R] the order in which the cells were
    visited. *)
Record dfs_inv (R : coord -> nat) (st : RunDFS.state) : Prop := {
  di_cells : RunDFS.visited st ⊆ cells_of g s;
  di_stack_cells : forall x, x ∈ RunDFS.stack st -> x ∈ cells_of g s;
  di_start : (RunDFS.visited st = ∅ /\ RunDFS.stack st = [s] /\ RunDFS.came_from st = ∅) \/
             s ∈ RunDFS.visited st;
  di_root : RunDFS.came_from st !! s = None;
  di_parent : forall x, (x ∈ RunDFS.stack st \/ x ∈ RunDFS.visited st) -> x <> s ->
    is_Some (RunDFS.came_from st !! x);
  di_link : forall v u, RunDFS.came_from st !! v = Some u ->
    u ∈ RunDFS.visited st /\ In v (get_neighbors g u) /\
    (v ∈ RunDFS.visited st -> (R u < R v)%nat);
  di_rank : forall u, u ∈ RunDFS.visited st -> (R u < size (RunDFS.visited st))%nat;
  di_closed : forall x y, x ∈ RunDFS.visited st -> In y (get_neighbors g x) ->
    y ∈ RunDFS.visited st \/ y ∈ RunDFS.stack st;
  di_goal : goal ∉ RunDFS.visited st
}.

Definition dfs_measure (st : RunDFS.state) : nat :=
  (5 * size (cells_of g s ∖ RunDFS.visited st) + length (RunDFS.stack st))%nat.

Lemma dfs_init_inv : dfs_inv (fun _ => 0%nat) (RunDFS.init s).
Proof.
  unfold RunDFS.init. constructor; simpl.
  - set_solver.
  - intros x Hx. apply list_elem_of_singleton in Hx. subst x. unfold cells_of. set_solver.
  - left. auto.
  - apply lookup_empty.
  - intros x Hx Hxs. exfalso. destruct Hx as [Hx|Hx]; [|set_solver].
    apply list_elem_of_singleton in Hx. contradiction.
  - intros v u H. rewrite lookup_empty in H. discriminate.
  - intros u Hu. set_solver.
  - intros x y Hx. set_solver.
  - set_solver.
Qed.

End DFSInvariant.

Lemma dfs_step_inv (g : Grid) (s goal : coord) (R : coord -> nat) (st st' : RunDFS.state) :
  dfs_inv g s goal R st -> RunDFS.step g goal st = Continue st' ->
  (exists R', dfs_inv g s goal R' st') /\ (dfs_measure g s st' < dfs_measure g s st)%nat.
Proof.
  intros Hi Hstep. unfold RunDFS.step in Hstep.
  destruct (RunDFS.stack st) as [|c rest] eqn:EK; [discriminate|].
  destruct Hi as [Hcells Hkc Hstart Hroot Hpar Hlink Hrank Hclosed Hgoal].
  rewrite EK in Hkc, Hstart, Hpar, Hclosed.
  destruct (decide (c ∈ RunDFS.visited st)) as [HcV|HcV].
  - injection Hstep as <-. split.
    + exists R. constructor; simpl.
      * exact Hcells.
      * intros x Hx. apply Hkc. right. exact Hx.
      * destruct Hstart as [(HV & _ & _)|Hs]; [rewrite HV in HcV; set_solver | right; exact Hs].
      * exact Hroot.
      * intros x Hx Hxs. apply Hpar; [|exact Hxs].
        destruct Hx as [Hx|Hx]; [left; right; exact Hx | right; exact Hx].
      * exact Hlink.
      * exact Hrank.
      * intros x y Hx Hy. destruct (Hclosed x y Hx Hy) as [H|H]; [left; exact H|].
        apply elem_of_cons in H as [-> | H]; [left; exact HcV | right; exact H].
      * exact Hgoal.
    + unfold dfs_measure. rewrite EK. simpl. lia.
  - destruct (decide (c = goal)) as [Hcg|Hcg]; [discriminate|].
    injection Hstep as <-. unfold RunDFS.expand.
    remember (get_neighbors g c) as nb eqn:Enb.
    destruct (dfs_fold_spec c (rev nb) (RunDFS.mkState rest ({[c]} ∪ RunDFS.visited st)
       (RunDFS.came_from st) (S (RunDFS.n_visited st)) (RunDFS.n_explored st)))
      as (HK & HV & HCF & _ & _).
    cbn [RunDFS.stack RunDFS.visited RunDFS.came_from] in HK, HV, HCF.
    set (st'' := fold_left _ _ _) in *.
    set (pushed := filter (fun n => n ∉ {[c]} ∪ RunDFS.visited st) (rev nb)) in *.
    assert (Hpushed : forall y, (y ∈ pushed) <->
                                ((y ∉ {[c]} ∪ RunDFS.visited st) /\ In y nb)).
    { intros y. unfold pushed. rewrite list_elem_of_filter, list_elem_of_In, <- in_rev.
      reflexivity. }
    assert (Hpc : forall y, y ∈ pushed -> (y ∉ RunDFS.visited st) /\ y <> c /\ In y nb).
    { intros y Hy. apply Hpushed in Hy as [H1 H2].
      rewrite elem_of_union, elem_of_singleton in H1. tauto. }
    assert (Hc_cells : c ∈ cells_of g s) by (apply Hkc; left).
    set (R' := fun y => if decide (y = c) then size (RunDFS.visited st) else R y).
    assert (HR'V : forall y, y ∈ RunDFS.visited st -> R' y = R y).
    { intros y Hy. unfold R'. rewrite decide_False; [reflexivity|]. intros ->. contradiction. }
    assert (Hsize : size ({[c]} ∪ RunDFS.visited st) = S (size (RunDFS.visited st))).
    { rewrite (size_union {[c]} (RunDFS.visited st)), size_singleton by set_solver. lia. }
    split.
    + exists R'. constructor.
      * rewrite HV. apply union_subseteq. split; [apply singleton_subseteq_l, Hc_cells|].
        exact Hcells.
      * rewrite HK. intros x Hx. apply elem_of_app in Hx as [Hx|Hx].
        -- apply elem_of_rev_coord, Hpc in Hx as (_ & _ & Hx). rewrite Enb in Hx.
           eapply neighbor_in_cells. exact Hx.
        -- apply Hkc. right. exact Hx.
      * right. rewrite HV. destruct Hstart as [(_ & HK0 & _)|Hs].
        -- injection HK0 as Hcs _. subst c. set_solver.
        -- set_solver.
      * rewrite HCF. rewrite decide_False; [exact Hroot|]. intros Hs.
        apply Hpc in Hs as (HsV & Hsc & _).
        destruct Hstart as [(_ & HK0 & _)|Hs']; [injection HK0 as Hcs _; congruence|].
        contradiction.
      * intros x Hx Hxs. rewrite HCF. case_decide as Hxp; [eexists; reflexivity|].
        apply Hpar; [|exact Hxs]. rewrite HK, HV in Hx. destruct Hx as [Hx|Hx].
        -- apply elem_of_app in Hx as [Hx|Hx].
           ++ exfalso. apply Hxp. apply elem_of_rev_coord, Hx.
           ++ left. right. exact Hx.
        -- apply elem_of_union in Hx as [Hx|Hx].
           ++ apply elem_of_singleton in Hx. subst x. left. left.
           ++ right. exact Hx.
      * intros v u Hvu. rewrite HCF in Hvu. rewrite HV. case_decide as Hvp.
        -- injection Hvu as <-. pose proof (Hpc v Hvp) as (HvV & Hvc & Hvn).
           split; [set_solver|]. split; [rewrite <- Enb; exact Hvn|].
           intros Hv'. exfalso. apply elem_of_union in Hv' as [Hv'|Hv'].
           ++ apply elem_of_singleton in Hv'. contradiction.
           ++ contradiction.
        -- destruct (Hlink v u Hvu) as (Hu & Hn & Hr). split; [set_solver|].
           split; [exact Hn|]. intros Hv'. rewrite (HR'V u Hu).
           apply elem_of_union in Hv' as [Hv'|Hv'].
           ++ apply elem_of_singleton in Hv'. subst v. unfold R'.
              rewrite decide_True by reflexivity. apply Hrank, Hu.
           ++ rewrite (HR'V v Hv'). apply Hr, Hv'.
      * intros u Hu. rewrite HV in Hu |- *. rewrite Hsize.
        apply elem_of_union in Hu as [Hu|Hu].
        -- apply elem_of_singleton in Hu. subst u. unfold R'.
           rewrite decide_True by reflexivity. lia.
        -- rewrite (HR'V u Hu). pose proof (Hrank u Hu). lia.
      * intros x y Hx Hy. rewrite HV in Hx |- *. rewrite HK.
        apply elem_of_union in Hx as [Hx|Hx].
        -- apply elem_of_singleton in Hx. subst x.
           destruct (decide (y ∈ {[c]} ∪ RunDFS.visited st)) as [Hy'|Hy']; [left; exact Hy'|].
           right. apply elem_of_app. left. apply elem_of_rev_coord, Hpushed.
           split; [exact Hy'|]. rewrite Enb. exact Hy.
        -- destruct (Hclosed x y Hx Hy) as [H|H]; [left; set_solver|].
           apply elem_of_cons in H as [-> | H]; [left; set_solver|].
           right. apply elem_of_app. right. exact H.
      * rewrite HV. intros H. apply elem_of_union in H as [H|H].
        -- apply elem_of_singleton in H. congruence.
        -- contradiction.
    + unfold dfs_measure. rewrite HK, HV, EK, length_app, length_rev. simpl length.
      pose proof (size_difference_add (cells_of g s) (RunDFS.visited st) c Hc_cells HcV).
      pose proof (length_filter (fun n => n ∉ {[c]} ∪ RunDFS.visited st) (rev nb)).
      rewrite length_rev in H0. pose proof (length_get_neighbors g c). rewrite <- Enb in H1.
      fold pushed in H0. lia.
Qed.

Lemma dfs_loop_stops (g : Grid) (s goal : coord) :
  exists st, (exists R, dfs_inv g s goal R st) /\
    RunDFS.step g goal st = Stop (run_dfs g s goal).
Proof.
  unfold run_dfs, RunDFS.loop.
  apply (while_loop_stops (RunDFS.step g goal) RunDFS.out_of_fuel
           (fun st => exists R, dfs_inv g s goal R st) (dfs_measure g s)).
  - intros st st' [R Hi] Hs. apply (dfs_step_inv g s goal R st st' Hi Hs).
  - intros st st' [R Hi] Hs. apply (dfs_step_inv g s goal R st st' Hi Hs).
  - exists (fun _ => 0%nat). apply dfs_init_inv.
  - unfold dfs_measure, RunDFS.init. simpl.
    rewrite (difference_empty_L (cells_of g s)). pose proof (search_fuel_bound g s). lia.
Qed.

(** A set holding [s] and closed under [get_neighbors] holds every cell a
    walk from [s] reaches. *)
Lemma closed_set_reach (g : Grid) (s : coord) (V : gset coord) :
  s ∈ V -> (forall x y, x ∈ V -> In y (get_neighbors g x) -> y ∈ V) ->
  forall w x, walk_from g s x w -> x ∈ V.
Proof.
  intros Hs Hc w. induction w as [|y w IH] using rev_ind; intros x Hw.
  - destruct Hw as [Hh _]. discriminate.
  - apply walk_from_snoc in Hw as [-> [[-> ->] | (p & Hp & Hn)]]; [exact Hs|].
    eapply Hc; [apply IH, Hp | exact Hn].
Qed.

(** [run_dfs] ends with no path only when no walk reaches the goal, and
    otherwise returns a walk from the start to the goal. *)
Lemma dfs_outcome (g : Grid) (s t : coord) :
  (result (run_dfs g s t) = NoPathFound /\ forall w, ~ walk_from g s t w) \/
  (exists p, result (run_dfs g s t) = Found p /\ walk_from g s t p).
Proof.
  destruct (dfs_loop_stops g s t) as (st & [R Hi] & Hstop).
  unfold RunDFS.step in Hstop. destruct (RunDFS.stack st) as [|c rest] eqn:EK.
  - left. injection Hstop as Hr. rewrite <- Hr. split; [reflexivity|].
    intros w Hw. apply (di_goal _ _ _ _ _ Hi).
    assert (Hs : s ∈ RunDFS.visited st).
    { destruct (di_start _ _ _ _ _ Hi) as [(_ & HK & _)|Hs]; [congruence | exact Hs]. }
    refine (closed_set_reach g s _ Hs _ w t Hw).
    intros x y Hx Hy. destruct (di_closed _ _ _ _ _ Hi x y Hx Hy) as [H|H]; [exact H|].
    rewrite EK in H. inversion H.
  - destruct (decide (c ∈ RunDFS.visited st)) as [HcV|HcV]; [discriminate|].
    destruct (decide (c = t)) as [->|Hct]; [|discriminate].
    right. injection Hstop as Hr. rewrite <- Hr. cbn [RunDFS.came_from result].
    set (P := fun v => v ∈ {[t]} ∪ RunDFS.visited st).
    set (R' := fun y => if decide (y = t) then size (RunDFS.visited st) else R y).
    assert (Hrank : forall v u, P v -> RunDFS.came_from st !! v = Some u ->
                      P u /\ (R' u < R' v)%nat).
    { intros v u Hv Hvu. destruct (di_link _ _ _ _ _ Hi v u Hvu) as (Hu & _ & Hr').
      assert (Hut : u <> t) by (intros ->; contradiction).
      split; [unfold P; set_solver|]. unfold R'.
      rewrite decide_False by exact Hut. case_decide as Hvt.
      - apply (di_rank _ _ _ _ _ Hi u Hu).
      - apply Hr'. unfold P in Hv. apply elem_of_union in Hv as [Hv|Hv]; [|exact Hv].
        apply elem_of_singleton in Hv. contradiction. }
    destruct (reconstruct_path_ranked (RunDFS.came_from st) P R' Hrank t
                ltac:(unfold P; set_solver)) as (l & Hl & Hrec & HF & _).
    rewrite Hrec. exists (rev l). split; [reflexivity|].
    destruct (parent_chain_path _ _ _ Hl) as (Hc & Hlast & r & Hr0 & Hrn).
    assert (Hrs : r = s).
    { destruct (decide (r = s)) as [|Hrs]; [assumption|].
      assert (Hrl : In r l).
      { apply in_rev. destruct (rev l) as [|a l0]; [discriminate|].
        injection Hr0 as ->. left. reflexivity. }
      rewrite Forall_forall in HF. specialize (HF r (proj2 (list_elem_of_In l r) Hrl)).
      unfold P in HF. rewrite elem_of_union, elem_of_singleton in HF.
      destruct (di_parent _ _ _ _ _ Hi r) as [u Hu]; [|exact Hrs|congruence].
      rewrite EK. destruct HF as [->|HF]; [left; left | right; exact HF]. }
    subst r. split; [exact Hr0|]. split; [exact Hlast|].
    revert Hc. apply chain_mono. intros x y Hxy. apply (di_link _ _ _ _ _ Hi y x Hxy).
Qed.

(** C8: when a path from [start] to [goal] exists, [run_bfs] and [run_dfs]
    both find one, and the Breadth-First path has no more cells than the
    Depth-First one. *)
Theorem bfs_no_longer_than_dfs (g : Grid) (s t : coord) :
  (exists q, valid_path g s t q) ->
  exists pb pd, result (run_bfs g s t) = Found pb /\ result (run_dfs g s t) = Found pd /\
    (length pb <= length pd)%nat.
Proof.
  intros [q Hq]. destruct (bfs_finds_shortest g s t q Hq) as (pb & Hb & _ & Hshort).
  destruct (dfs_outcome g s t) as [[_ Hno]|(pd & Hd & Hw)].
  - exfalso. apply (Hno q), valid_path_walk, Hq.
  - exists pb, pd. split; [exact Hb|]. split; [exact Hd|]. apply Hshort.
    apply walk_from_valid; [eapply valid_path_start_free; exact Hq | exact Hw].
Qed.

Lemma floor_2x3_path :
  valid_path open_floor_2x3 (0, 2) (0, 0) [(0, 2); (0, 1); (0, 0)].
Proof.
  split; [reflexivity|]. split; [reflexivity|]. split.
  - repeat constructor.
  - unfold adjacent. simpl. lia.
Defined.

Lemma bfs_shortest_path_witness :
  exists p, result (run_bfs open_floor_2x3 (0, 2) (0, 0)) = Found p /\
    valid_path open_floor_2x3 (0, 2) (0, 0) p /\
    forall q, valid_path open_floor_2x3 (0, 2) (0, 0) q -> (length p <= length q)%nat.
Proof.
  apply (proj1 (bfs_shortest_path open_floor_2x3 (0, 2) (0, 0))).
  exists [(0, 2); (0, 1); (0, 0)]. apply floor_2x3_path.
Defined.

Lemma bfs_no_longer_than_dfs_witness :
  exists pb pd, result (run_bfs open_floor_2x3 (0, 2) (0, 0)) = Found pb /\
    result (run_dfs open_floor_2x3 (0, 2) (0, 0)) = Found pd /\ (length pb <= length pd)%nat.
Proof.
  apply (bfs_no_longer_than_dfs open_floor_2x3 (0, 2) (0, 0)).
  exists [(0, 2); (0, 1); (0, 0)]. apply floor_2x3_path.
Defined.

(** ** Depth-Limited *)

(** The depth of the topmost entry of [n] on a [run_dls] stack. *)
Fixpoint top_depth (n : coord) (k : list (coord * Z)) : option Z :=
  match k with
  | [] => None
  | (m, d) :: k' => if decide (m = n) then Some d else top_depth n k'
  end.

Lemma top_depth_app (n : coord) (A B : list (coord * Z)) :
  top_depth n (A ++ B) =
  match top_depth n A with Some d => Some d | None => top_depth n B end.
Proof.
  induction A as [|[m d] A IH]; simpl; [reflexivity|]. case_decide; [reflexivity | exact IH].
Qed.

Lemma top_depth_pushed (n : coord) (e : Z) (P : list coord) :
  top_depth n (rev (map (fun m => (m, e)) P)) = if decide (n ∈ P) then Some e else None.
Proof.
  induction P as [|m P IH]; cbn [map rev].
  - rewrite decide_False; [reflexivity | apply not_elem_of_nil].
  - rewrite top_depth_app, IH. cbn [top_depth]. case_decide as H1.
    + rewrite decide_True; [reflexivity | right; exact H1].
    + case_decide as H2.
      * subst m. rewrite decide_True; [reflexivity | left].
      * rewrite decide_False; [reflexivity|]. intros H. apply elem_of_cons in H as [-> | H].
        -- apply H2. reflexivity.
        -- contradiction.
Qed.

Lemma top_depth_elem (n : coord) (d : Z) (k : list (coord * Z)) :
  top_depth n k = Some d -> (n, d) ∈ k.
Proof.
  induction k as [|[m e] k IH]; simpl; [discriminate|].
  case_decide as H; [intros E; injection E as <-; subst m; left|].
  intros E. right. apply IH, E.
Qed.

Lemma dls_fold_spec (c : coord) (d : Z) (l : list coord) (st : RunDLS.state) :
  RunDLS.stack (fold_left (RunDLS.push_neighbor c d) l st) =
    rev (map (fun n => (n, d + 1)) (filter (fun n => n ∉ RunDLS.visited st) l)) ++
    RunDLS.stack st /\
  RunDLS.visited (fold_left (RunDLS.push_neighbor c d) l st) = RunDLS.visited st /\
  (forall y, RunDLS.came_from (fold_left (RunDLS.push_neighbor c d) l st) !! y =
     if decide (y ∈ filter (fun n => n ∉ RunDLS.visited st) l) then Some c
     else RunDLS.came_from st !! y).
Proof.
  revert st. induction l as [|a l IH]; intros st.
  - cbn [fold_left]. rewrite filter_nil. split; [reflexivity|]. split; [reflexivity|].
    intros y; rewrite decide_False; [reflexivity | apply not_elem_of_nil].
  - simpl fold_left.
    destruct (decide (a ∈ RunDLS.visited st)) as [Hv|Hv].
    + replace (RunDLS.push_neighbor c d st a) with st
        by (unfold RunDLS.push_neighbor; rewrite decide_True by exact Hv; reflexivity).
      rewrite filter_cons_False by tauto. apply IH.
    + replace (RunDLS.push_neighbor c d st a) with
        (RunDLS.mkState ((a, d + 1) :: RunDLS.stack st) (RunDLS.visited st)
           (<[a:=c]> (RunDLS.came_from st)) (RunDLS.n_visited st)
           (S (RunDLS.n_explored st)))
        by (unfold RunDLS.push_neighbor; rewrite decide_False by exact Hv; reflexivity).
      rewrite filter_cons_True by exact Hv.
      destruct (IH (RunDLS.mkState ((a, d + 1) :: RunDLS.stack st) (RunDLS.visited st)
           (<[a:=c]> (RunDLS.came_from st)) (RunDLS.n_visited st)
           (S (RunDLS.n_explored st)))) as (H1 & H2 & H3). simpl in *.
      split; [rewrite H1, <- app_assoc; reflexivity|].
      split; [exact H2|].
      intros y. rewrite H3. case_decide as Hy1; case_decide as Hy2.
      * reflexivity.
      * exfalso. apply Hy2. right. exact Hy1.
      * apply elem_of_cons in Hy2 as [->|Hy2]; [apply lookup_insert_eq | contradiction].
      * rewrite lookup_insert_ne; [reflexivity|]. intros ->. apply Hy2. left.
Qed.

Lemma elem_of_pushed_pairs (x : coord) (e f : Z) (P : list coord) :
  (x, e) ∈ rev (map (fun n => (n, f)) P) <-> x ∈ P /\ e = f.
Proof.
  rewrite !list_elem_of_In, <- in_rev, in_map_iff. split.
  - intros (y & Hy & Hin). injection Hy as -> ->. split; [exact Hin | reflexivity].
  - intros [Hx ->]. exists x. split; [reflexivity | exact Hx].
Qed.

Section DLSInvariant.
Context (g : Grid) (s goal : coord) (L : Z).

(** The invariant of [run_dls], with [vd] the depth at which each visited
    cell was taken off the stack. *)
Record dls_inv (vd : coord -> Z) (st : RunDLS.state) : Prop := {
  li_cells : RunDLS.visited st ⊆ cells_of g s;
  li_stack_cells : forall x d, (x, d) ∈ RunDLS.stack st -> x ∈ cells_of g s;
  li_start : (RunDLS.visited st = ∅ /\ RunDLS.stack st = [(s, 0)] /\
              RunDLS.came_from st = ∅) \/ s ∈ RunDLS.visited st;
  li_root : RunDLS.came_from st !! s = None;
  li_link : forall v u, RunDLS.came_from st !! v = Some u ->
    u ∈ RunDLS.visited st /\ In v (get_neighbors g u);
  li_visited : forall v, v ∈ RunDLS.visited st ->
    (v = s /\ vd v = 0) \/ exists u, RunDLS.came_from st !! v = Some u /\ vd u + 1 = vd v;
  li_top : forall n d, top_depth n (RunDLS.stack st) = Some d -> n ∉ RunDLS.visited st ->
    (n = s /\ d = 0) \/ exists u, RunDLS.came_from st !! n = Some u /\ vd u + 1 = d;
  li_depth : forall n d, (n, d) ∈ RunDLS.stack st -> 0 <= d <= Z.max L 0;
  li_vdepth : forall v, v ∈ RunDLS.visited st -> 0 <= vd v;
  li_goal : goal ∉ RunDLS.visited st
}.

Definition dls_measure (st : RunDLS.state) : nat :=
  (5 * size (cells_of g s ∖ RunDLS.visited st) + length (RunDLS.stack st))%nat.

Lemma dls_init_inv : dls_inv (fun _ => 0) (RunDLS.init s).
Proof.
  unfold RunDLS.init. constructor; simpl.
  - set_solver.
  - intros x d Hx. apply list_elem_of_singleton in Hx. injection Hx as -> ->.
    unfold cells_of. set_solver.
  - left. auto.
  - apply lookup_empty.
  - intros v u H. rewrite lookup_empty in H. discriminate.
  - intros v Hv. set_solver.
  - intros n d Hn _. case_decide; [|discriminate]. injection Hn as <-. left. auto.
  - intros n d Hn. apply list_elem_of_singleton in Hn. injection Hn as -> ->. lia.
  - intros v Hv. set_solver.
  - set_solver.
Qed.

End DLSInvariant.

Lemma dls_step_inv (g : Grid) (s goal : coord) (L : Z) (vd : coord -> Z)
    (st st' : RunDLS.state) :
  dls_inv g s goal L vd st -> RunDLS.step g goal L st = Continue st' ->
  (exists vd', dls_inv g s goal L vd' st') /\ (dls_measure g s st' < dls_measure g s st)%nat.
Proof.
  intros Hi Hstep. unfold RunDLS.step in Hstep.
  destruct (RunDLS.stack st) as [|[c d] rest] eqn:EK; [discriminate|].
  destruct Hi as [Hcells Hkc Hstart Hroot Hlink Hvis Htop Hdepth Hvd Hgoal].
  rewrite EK in Hkc, Hstart, Htop, Hdepth.
  destruct (decide (c ∈ RunDLS.visited st)) as [HcV|HcV].
  - injection Hstep as <-. split.
    + exists vd. constructor; simpl.
      * exact Hcells.
      * intros x e Hx. apply (Hkc x e). right. exact Hx.
      * destruct Hstart as [(HV & _ & _)|Hs]; [rewrite HV in HcV; set_solver | right; exact Hs].
      * exact Hroot.
      * exact Hlink.
      * exact Hvis.
      * intros n e Hn HnV. apply Htop; [|exact HnV]. cbn [top_depth].
        rewrite decide_False; [exact Hn|]. intros ->. contradiction.
      * intros n e Hn. apply (Hdepth n e). right. exact Hn.
      * exact Hvd.
      * exact Hgoal.
    + unfold dls_measure. rewrite EK. simpl. lia.
  - destruct (decide (c = goal)) as [Hcg|Hcg]; [discriminate|].
    assert (Htopc : (c = s /\ d = 0) \/
                    exists u, RunDLS.came_from st !! c = Some u /\ vd u + 1 = d).
    { apply Htop; [|exact HcV]. cbn [top_depth]. rewrite decide_True by reflexivity.
      reflexivity. }
    assert (Hd : 0 <= d <= Z.max L 0) by (apply (Hdepth c d); left).
    assert (Hc_cells : c ∈ cells_of g s) by (apply (Hkc c d); left).
    assert (HsV' : s ∈ {[c]} ∪ RunDLS.visited st).
    { destruct Hstart as [(_ & HK0 & _)|Hs].
      - injection HK0 as Hcs _. subst c. set_solver.
      - set_solver. }
    set (vd' := fun y => if decide (y = c) then d else vd y).
    assert (Hvd'V : forall y, y ∈ RunDLS.visited st -> vd' y = vd y).
    { intros y Hy. unfold vd'. rewrite decide_False; [reflexivity|]. intros ->. contradiction. }
    assert (Hgen : forall l, (forall y, In y l -> In y (get_neighbors g c)) ->
       (l <> [] -> d < L) -> (length l <= 4)%nat ->
       (exists vd', dls_inv g s goal L vd'
          (fold_left (RunDLS.push_neighbor c d) l
             (RunDLS.mkState rest ({[c]} ∪ RunDLS.visited st) (RunDLS.came_from st)
                (S (RunDLS.n_visited st)) (RunDLS.n_explored st)))) /\
       (dls_measure g s (fold_left (RunDLS.push_neighbor c d) l
             (RunDLS.mkState rest ({[c]} ∪ RunDLS.visited st) (RunDLS.came_from st)
                (S (RunDLS.n_visited st)) (RunDLS.n_explored st))) <
        dls_measure g s st)%nat).
    { intros l Hl Hld Hlen.
      destruct (dls_fold_spec c d l (RunDLS.mkState rest ({[c]} ∪ RunDLS.visited st)
         (RunDLS.came_from st) (S (RunDLS.n_visited st)) (RunDLS.n_explored st)))
        as (HK & HV & HCF).
      cbn [RunDLS.stack RunDLS.visited RunDLS.came_from] in HK, HV, HCF.
      set (st'' := fold_left _ _ _) in *.
      set (pushed := filter (fun n => n ∉ {[c]} ∪ RunDLS.visited st) l) in *.
      assert (Hpc : forall y, y ∈ pushed ->
                (y ∉ {[c]} ∪ RunDLS.visited st) /\ In y (get_neighbors g c) /\ l <> []).
      { intros y Hy. unfold pushed in Hy. apply list_elem_of_filter in Hy as [H1 H2].
        apply list_elem_of_In in H2. split; [exact H1|]. split; [apply Hl, H2|].
        intros ->. destruct H2. }
      split.
      - exists vd'. constructor.
        + rewrite HV. apply union_subseteq. split; [apply singleton_subseteq_l, Hc_cells|].
          exact Hcells.
        + rewrite HK. intros x e Hx. apply elem_of_app in Hx as [Hx|Hx].
          * apply elem_of_pushed_pairs in Hx as [Hx _].
            apply Hpc in Hx as (_ & Hx & _). eapply neighbor_in_cells. exact Hx.
          * apply (Hkc x e). right. exact Hx.
        + right. rewrite HV. exact HsV'.
        + rewrite HCF. rewrite decide_False; [exact Hroot|]. intros Hs.
          apply Hpc in Hs as (Hs & _). contradiction.
        + intros v u Hvu. rewrite HCF in Hvu. rewrite HV. case_decide as Hvp.
          * injection Hvu as <-. split; [set_solver|]. apply (Hpc v Hvp).
          * destruct (Hlink v u Hvu) as (Hu & Hn). split; [set_solver | exact Hn].
        + intros v Hv. rewrite HV in Hv. rewrite HCF.
          rewrite decide_False by (intros Hp; apply Hpc in Hp as (Hp & _); contradiction).
          apply elem_of_union in Hv as [Hv|Hv].
          * apply elem_of_singleton in Hv. subst v.
            destruct Htopc as [(Hcs & Hd0)|(u & Hu & Hud)].
            -- left. split; [exact Hcs|]. unfold vd'. rewrite decide_True by reflexivity.
               exact Hd0.
            -- right. exists u. split; [exact Hu|].
               rewrite (Hvd'V u (proj1 (Hlink c u Hu))). unfold vd'.
               rewrite decide_True by reflexivity. exact Hud.
          * destruct (Hvis v Hv) as [(Hvs & Hv0)|(u & Hu & Hud)].
            -- left. split; [exact Hvs|]. rewrite (Hvd'V v Hv). exact Hv0.
            -- right. exists u. split; [exact Hu|].
               rewrite (Hvd'V u (proj1 (Hlink v u Hu))), (Hvd'V v Hv). exact Hud.
        + intros n e Hn HnV'. rewrite HK, top_depth_app, top_depth_pushed in Hn.
          rewrite HV in HnV'. rewrite HCF. case_decide as Hnp.
          * injection Hn as <-. right. exists c. split; [reflexivity|]. unfold vd'.
            rewrite decide_True by reflexivity. reflexivity.
          * assert (Hnc : n <> c) by (intros ->; apply HnV'; set_solver).
            destruct (Htop n e) as [H|(u & Hu & Hue)].
            -- cbn [top_depth]. rewrite decide_False by congruence. exact Hn.
            -- set_solver.
            -- left. exact H.
            -- right. exists u. split; [exact Hu|].
               rewrite (Hvd'V u (proj1 (Hlink n u Hu))). exact Hue.
        + rewrite HK. intros n e Hn. apply elem_of_app in Hn as [Hn|Hn].
          * apply elem_of_pushed_pairs in Hn as [Hn ->].
            apply Hpc in Hn as (_ & _ & Hne). specialize (Hld Hne). lia.
          * apply (Hdepth n e). right. exact Hn.
        + intros v Hv. rewrite HV in Hv. apply elem_of_union in Hv as [Hv|Hv].
          * apply elem_of_singleton in Hv. subst v. unfold vd'.
            rewrite decide_True by reflexivity. lia.
          * rewrite (Hvd'V v Hv). apply Hvd, Hv.
        + rewrite HV. intros H. apply elem_of_union in H as [H|H].
          * apply elem_of_singleton in H. congruence.
          * contradiction.
      - unfold dls_measure. rewrite HK, HV, EK, length_app, length_rev, length_map.
        simpl length.
        pose proof (size_difference_add (cells_of g s) (RunDLS.visited st) c Hc_cells HcV).
        pose proof (length_filter (fun n => n ∉ {[c]} ∪ RunDLS.visited st) l).
        fold pushed in H0. lia. }
    destruct (L <=? d) eqn:EL; injection Hstep as <-.
    + exact (Hgen [] ltac:(intros y []) ltac:(congruence) ltac:(simpl; lia)).
    + unfold RunDLS.expand. apply Hgen.
      * intros y Hy. apply in_rev, Hy.
      * intros _. apply Z.leb_gt, EL.
      * rewrite length_rev. apply length_get_neighbors.
Qed.

Lemma dls_loop_stops (g : Grid) (L : Z) (s goal : coord) :
  exists st, (exists vd, dls_inv g s goal L vd st) /\
    RunDLS.step g goal L st = Stop (run_dls g L s goal).
Proof.
  unfold run_dls, RunDLS.loop.
  apply (while_loop_stops (RunDLS.step g goal L) RunDLS.out_of_fuel
           (fun st => exists vd, dls_inv g s goal L vd st) (dls_measure g s)).
  - intros st st' [vd Hi] Hs. apply (dls_step_inv g s goal L vd st st' Hi Hs).
  - intros st st' [vd Hi] Hs. apply (dls_step_inv g s goal L vd st st' Hi Hs).
  - exists (fun _ => 0). apply dls_init_inv.
  - unfold dls_measure, RunDLS.init. simpl.
    rewrite (difference_empty_L (cells_of g s)). pose proof (search_fuel_bound g s). lia.
Qed.

(** [run_dls] ends with no path, or with a walk from the start to the goal
    of at most [L + 1] cells (one cell when [L] is negative). *)
Lemma dls_outcome (g : Grid) (L : Z) (s t : coord) :
  result (run_dls g L s t) = NoPathFound \/
  exists p, result (run_dls g L s t) = Found p /\ walk_from g s t p /\
    (length p <= Z.to_nat (Z.max L 0) + 1)%nat.
Proof.
  destruct (dls_loop_stops g L s t) as (st & [vd Hi] & Hstop).
  unfold RunDLS.step in Hstop. destruct (RunDLS.stack st) as [|[c d] rest] eqn:EK.
  - left. injection Hstop as Hr. rewrite <- Hr. reflexivity.
  - destruct (decide (c ∈ RunDLS.visited st)) as [HcV|HcV]; [discriminate|].
    destruct (decide (c = t)) as [->|Hct]; [|destruct (L <=? d); discriminate].
    right. injection Hstop as Hr. rewrite <- Hr. cbn [RunDLS.came_from result].
    assert (Htopt : (t = s /\ d = 0) \/
                    exists u, RunDLS.came_from st !! t = Some u /\ vd u + 1 = d).
    { apply (li_top _ _ _ _ _ _ Hi); [|exact HcV]. rewrite EK. cbn [top_depth].
      rewrite decide_True by reflexivity. reflexivity. }
    assert (Hd : 0 <= d <= Z.max L 0).
    { apply (li_depth _ _ _ _ _ _ Hi t d). rewrite EK. left. }
    pose proof (li_root _ _ _ _ _ _ Hi) as Hroot.
    set (P := fun v => v ∈ {[t]} ∪ RunDLS.visited st).
    set (vd' := fun y => if decide (y = t) then d else vd y).
    assert (Hvd' : forall v, P v -> 0 <= vd' v).
    { intros v Hv. unfold vd'. case_decide as Hvt; [lia|].
      apply (li_vdepth _ _ _ _ _ _ Hi). unfold P in Hv.
      apply elem_of_union in Hv as [Hv|Hv]; [apply elem_of_singleton in Hv; contradiction|].
      exact Hv. }
    assert (Hpar : forall v u, P v -> RunDLS.came_from st !! v = Some u ->
                     vd' u + 1 = vd' v).
    { intros v u Hv Hvu. destruct (li_link _ _ _ _ _ _ Hi v u Hvu) as (Hu & _).
      pose proof (li_goal _ _ _ _ _ _ Hi) as Hgoal.
      assert (Hut : u <> t) by (intros ->; contradiction).
      unfold vd'. rewrite (decide_False _ _ Hut). case_decide as Hvt.
      - subst v. destruct Htopt as [(-> & _)|(u' & Hu' & Hud)]; [congruence|].
        rewrite Hvu in Hu'. injection Hu' as <-. exact Hud.
      - unfold P in Hv. apply elem_of_union in Hv as [Hv|Hv];
          [apply elem_of_singleton in Hv; contradiction|].
        destruct (li_visited _ _ _ _ _ _ Hi v Hv) as [(-> & _)|(u' & Hu' & Hud)];
          [congruence|].
        rewrite Hvu in Hu'. injection Hu' as <-. exact Hud. }
    assert (Hrank : forall v u, P v -> RunDLS.came_from st !! v = Some u ->
                      P u /\ (Z.to_nat (vd' u) < Z.to_nat (vd' v))%nat).
    { intros v u Hv Hvu. destruct (li_link _ _ _ _ _ _ Hi v u Hvu) as (Hu & _).
      assert (HPu : P u) by (unfold P; set_solver).
      split; [exact HPu|]. pose proof (Hpar v u Hv Hvu). pose proof (Hvd' u HPu). lia. }
    destruct (reconstruct_path_ranked (RunDLS.came_from st) P (fun y => Z.to_nat (vd' y))
                Hrank t ltac:(unfold P; set_solver)) as (l & Hl & Hrec & HF & Hlen).
    rewrite Hrec. exists (rev l). split; [reflexivity|].
    split.
    + destruct (parent_chain_path _ _ _ Hl) as (Hc & Hlast & r & Hr0 & Hrn).
      assert (Hrs : r = s).
      { assert (Hrl : In r l).
        { apply in_rev. destruct (rev l) as [|a l0]; [discriminate|].
          injection Hr0 as ->. left. reflexivity. }
        rewrite Forall_forall in HF. specialize (HF r (proj2 (list_elem_of_In l r) Hrl)).
        unfold P in HF. apply elem_of_union in HF as [HF|HF].
        - apply elem_of_singleton in HF. subst r.
          destruct Htopt as [(-> & _)|(u & Hu & _)]; [reflexivity | congruence].
        - destruct (li_visited _ _ _ _ _ _ Hi r HF) as [(-> & _)|(u & Hu & _)];
            [reflexivity | congruence]. }
      subst r. split; [exact Hr0|]. split; [exact Hlast|].
      revert Hc. apply chain_mono. intros x y Hxy.
      apply (li_link _ _ _ _ _ _ Hi y x Hxy).
    + rewrite length_rev. unfold vd' in Hlen. rewrite decide_True in Hlen by reflexivity.
      lia.
Qed.

(** C4 (amended): for a depth limit [L >= 1] and a free start cell, every
    path [run_dls] returns is a valid path of at most [L + 1] cells, and the
    run ends either with a path or with the no-path outcome; hence it reports
    no path within the limit whenever every valid path has more than [L + 1]
    cells. *)
Theorem dls_found_within_limit (g : Grid) (L : Z) (s t : coord) :
  1 <= L -> free_cell g s ->
  (forall p, result (run_dls g L s t) = Found p ->
     valid_path g s t p /\ (length p <= Z.to_nat L + 1)%nat) /\
  (result (run_dls g L s t) = NoPathFound \/ exists p, result (run_dls g L s t) = Found p) /\
  ((forall q, valid_path g s t q -> (Z.to_nat L + 1 < length q)%nat) ->
     result (run_dls g L s t) = NoPathFound).
Proof.
  intros HL Hs.
  destruct (dls_outcome g L s t) as [Hn|(p & Hp & Hw & Hlen)].
  - rewrite Hn. split; [intros p Hp; discriminate|]. split; [left; reflexivity|].
    intros _. reflexivity.
  - rewrite (Z.max_l L 0) in Hlen by lia. rewrite Hp.
    assert (Hv : valid_path g s t p) by (apply walk_from_valid; assumption).
    split; [intros p' Hp'; injection Hp' as <-; split; assumption|].
    split; [right; exists p; reflexivity|].
    intros Hall. specialize (Hall p Hv). lia.
Qed.

Lemma dls_found_within_limit_witness :
  (forall p, result (run_dls open_floor_2x3 3 (0, 2) (0, 0)) = Found p ->
     valid_path open_floor_2x3 (0, 2) (0, 0) p /\ (length p <= Z.to_nat 3 + 1)%nat) /\
  (result (run_dls open_floor_2x3 3 (0, 2) (0, 0)) = NoPathFound \/
   exists p, result (run_dls open_floor_2x3 3 (0, 2) (0, 0)) = Found p) /\
  ((forall q, valid_path open_floor_2x3 (0, 2) (0, 0) q -> (Z.to_nat 3 + 1 < length q)%nat) ->
     result (run_dls open_floor_2x3 3 (0, 2) (0, 0)) = NoPathFound).
Proof.
  apply (dls_found_within_limit open_floor_2x3 3 (0, 2) (0, 0)); [lia|].
  split; reflexivity.
Defined.

(** ** Uniform-Cost *)

Lemma heappop_elem (h rest : list entry) (m : entry) :
  heappop h = Some (m, rest) ->
  (forall e, e ∈ h <-> e = m \/ e ∈ rest) /\ length h = S (length rest) /\
  (forall e, e ∈ h -> ~ entry_lt e m).
Proof.
  intros E. destruct (heappop_spec h m rest E) as [Hp Hmin].
  split; [|split; [apply Permutation_length in Hp; exact Hp | exact Hmin]].
  intros e. rewrite Hp, elem_of_cons. reflexivity.
Qed.

Lemma heappush_elem (h : list entry) (e x : entry) :
  x ∈ heappush h e <-> x = e \/ x ∈ h.
Proof. rewrite (heappush_perm h e), elem_of_cons. reflexivity. Qed.

Lemma length_heappush (h : list entry) (e : entry) :
  length (heappush h e) = S (length h).
Proof. unfold heappush. rewrite length_app. simpl. lia. Qed.

Section UCSInvariant.
Context (g : Grid) (s goal : coord).

(** The invariant of [run_ucs]. [pend] lists the pairs [(current, neighbor)]
    whose relaxation is still to come in the expansion under way. *)
Record ucs_inv (pend : list (coord * coord)) (st : RunUCS.state) : Prop := {
  ui_cells : RunUCS.visited_cells st ⊆ cells_of g s;
  ui_heap_cells : forall k x, (k, x) ∈ RunUCS.open_set st -> x ∈ cells_of g s;
  ui_start : (RunUCS.visited_cells st = ∅ /\ RunUCS.open_set st = [(0, s)] /\
              RunUCS.came_from st = ∅ /\ RunUCS.g_score st = {[s := 0]}) \/
             s ∈ RunUCS.visited_cells st;
  ui_root : RunUCS.came_from st !! s = None;
  ui_link : forall v u, RunUCS.came_from st !! v = Some u ->
    u ∈ RunUCS.visited_cells st /\ In v (get_neighbors g u) /\
    exists gu, RunUCS.g_score st !! u = Some gu /\ RunUCS.g_score st !! v = Some (gu + 1);
  ui_parent : forall v z, RunUCS.g_score st !! v = Some z ->
    v = s \/ exists u, RunUCS.came_from st !! v = Some u;
  ui_nonneg : forall v z, RunUCS.g_score st !! v = Some z -> 0 <= z;
  ui_heap : forall k x, (k, x) ∈ RunUCS.open_set st ->
    exists z, RunUCS.g_score st !! x = Some z /\ z <= k;
  ui_open : forall x z, x ∉ RunUCS.visited_cells st -> RunUCS.g_score st !! x = Some z ->
    (z, x) ∈ RunUCS.open_set st;
  ui_relax : forall x y, x ∈ RunUCS.visited_cells st -> In y (get_neighbors g x) ->
    y ∉ RunUCS.visited_cells st -> (x, y) ∉ pend ->
    exists gx gy, RunUCS.g_score st !! x = Some gx /\ RunUCS.g_score st !! y = Some gy /\
      gy <= gx + 1;
  ui_dist : forall x z w, x ∈ RunUCS.visited_cells st -> RunUCS.g_score st !! x = Some z ->
    walk_from g s x w -> z + 1 <= Z.of_nat (length w);
  ui_goal : goal ∉ RunUCS.visited_cells st
}.

Definition ucs_measure (st : RunUCS.state) : nat :=
  (5 * size (cells_of g s ∖ RunUCS.visited_cells st) + length (RunUCS.open_set st))%nat.

Lemma ucs_init_inv : ucs_inv [] (RunUCS.init s).
Proof.
  unfold RunUCS.init. constructor; simpl.
  - set_solver.
  - intros k x Hx. apply list_elem_of_singleton in Hx. injection Hx as -> ->.
    unfold cells_of. set_solver.
  - left. auto.
  - apply lookup_empty.
  - intros v u H. rewrite lookup_empty in H. discriminate.
  - intros v z H. apply lookup_singleton_Some in H as [-> _]. left. reflexivity.
  - intros v z H. apply lookup_singleton_Some in H as [_ <-]. lia.
  - intros k x Hx. apply list_elem_of_singleton in Hx. injection Hx as -> ->.
    exists 0. split; [apply lookup_singleton_eq | lia].
  - intros x z _ H. apply lookup_singleton_Some in H as [<- <-]. left.
  - intros x y Hx. set_solver.
  - intros x z w Hx. set_solver.
  - set_solver.
Qed.

(** Every walk to a cell not yet visited passes a cell of the frontier whose
    [g_score] is at most the walk's length minus one. *)
Lemma ucs_frontier (st : RunUCS.state) :
  ucs_inv [] st ->
  forall w x, walk_from g s x w -> x ∉ RunUCS.visited_cells st ->
  exists y z, (y ∉ RunUCS.visited_cells st) /\ RunUCS.g_score st !! y = Some z /\
    z + 1 <= Z.of_nat (length w).
Proof.
  intros Hi w. induction w as [|x0 w IH] using rev_ind; intros x Hw Hx.
  - destruct Hw as [Hh _]. discriminate.
  - rewrite length_app. simpl length.
    apply walk_from_snoc in Hw as [-> [[-> ->] | (p & Hp & Hn)]].
    + exists s, 0. split; [exact Hx|]. split; [|simpl; lia].
      destruct (ui_start _ _ Hi) as [(_ & _ & _ & ->)|Hs]; [apply lookup_singleton_eq|].
      contradiction.
    + destruct (decide (p ∈ RunUCS.visited_cells st)) as [HpV|HpV].
      * destruct (ui_relax _ _ Hi p x HpV Hn Hx ltac:(apply not_elem_of_nil))
          as (gp & gx & Hgp & Hgx & Hle).
        pose proof (ui_dist _ _ Hi p gp w HpV Hgp Hp).
        exists x, gx. split; [exact Hx|]. split; [exact Hgx|]. lia.
      * destruct (IH p Hp HpV) as (y & z & Hy & Hz & Hle).
        exists y, z. split; [exact Hy|]. split; [exact Hz|]. lia.
Qed.

(** Relaxing [y] from the visited [current] with a better [g_score]. *)
Lemma ucs_improve_inv (c y : coord) (gc : Z) (P : list (coord * coord))
    (st : RunUCS.state) :
  ucs_inv ((c, y) :: P) st -> c ∈ RunUCS.visited_cells st ->
  RunUCS.g_score st !! c = Some gc -> In y (get_neighbors g c) ->
  y ∉ RunUCS.visited_cells st ->
  (forall gy, RunUCS.g_score st !! y = Some gy -> gc + 1 < gy) ->
  ucs_inv P (RunUCS.mkState (heappush (RunUCS.open_set st) (gc + 1, y))
    (RunUCS.visited_cells st) (<[y:=c]> (RunUCS.came_from st))
    (<[y:=gc + 1]> (RunUCS.g_score st)) (RunUCS.n_visited st) (S (RunUCS.n_explored st))).
Proof.
  intros Hi HcV Hgc Hy HyV Hbetter.
  assert (HsV : s ∈ RunUCS.visited_cells st).
  { destruct (ui_start _ _ Hi) as [(HV & _)|Hs]; [rewrite HV in HcV; set_solver | exact Hs]. }
  assert (Hyc : y <> c) by (intros ->; contradiction).
  assert (HgV : forall x, x ∈ RunUCS.visited_cells st ->
            (<[y:=gc + 1]> (RunUCS.g_score st)) !! x = RunUCS.g_score st !! x).
  { intros x Hx. apply lookup_insert_ne. intros ->. contradiction. }
  constructor; cbn [RunUCS.open_set RunUCS.visited_cells RunUCS.came_from RunUCS.g_score].
  - apply (ui_cells _ _ Hi).
  - intros k x Hx. apply heappush_elem in Hx as [Hx|Hx].
    + injection Hx as -> ->. eapply neighbor_in_cells. exact Hy.
    + eapply (ui_heap_cells _ _ Hi). exact Hx.
  - right. exact HsV.
  - rewrite lookup_insert_ne by (intros ->; contradiction). apply (ui_root _ _ Hi).
  - intros v u Hvu. destruct (decide (v = y)) as [->|Hvy].
    + rewrite lookup_insert_eq in Hvu. injection Hvu as <-.
      split; [exact HcV|]. split; [exact Hy|]. exists gc.
      rewrite (HgV c HcV), lookup_insert_eq. auto.
    + rewrite lookup_insert_ne in Hvu by congruence.
      destruct (ui_link _ _ Hi v u Hvu) as (Hu & Hn & gu & Hgu & Hgv).
      split; [exact Hu|]. split; [exact Hn|]. exists gu.
      rewrite (HgV u Hu), lookup_insert_ne by congruence. auto.
  - intros v z Hv. destruct (decide (v = y)) as [->|Hvy].
    + right. exists c. apply lookup_insert_eq.
    + rewrite lookup_insert_ne in Hv by congruence.
      rewrite lookup_insert_ne by congruence. apply (ui_parent _ _ Hi v z Hv).
  - intros v z Hv. destruct (decide (v = y)) as [->|Hvy].
    + rewrite lookup_insert_eq in Hv. injection Hv as <-.
      pose proof (ui_nonneg _ _ Hi c gc Hgc). lia.
    + rewrite lookup_insert_ne in Hv by congruence. apply (ui_nonneg _ _ Hi v z Hv).
  - intros k x Hx. destruct (decide (x = y)) as [->|Hxy].
    + rewrite lookup_insert_eq. exists (gc + 1). split; [reflexivity|].
      apply heappush_elem in Hx as [Hx|Hx]; [injection Hx as ->; lia|].
      destruct (ui_heap _ _ Hi k y Hx) as (z & Hz & Hzk).
      specialize (Hbetter z Hz). lia.
    + rewrite lookup_insert_ne by congruence.
      apply heappush_elem in Hx as [Hx|Hx]; [injection Hx as _ ->; congruence|].
      apply (ui_heap _ _ Hi k x Hx).
  - intros x z Hx Hz. apply heappush_elem. destruct (decide (x = y)) as [->|Hxy].
    + rewrite lookup_insert_eq in Hz. injection Hz as <-. left. reflexivity.
    + rewrite lookup_insert_ne in Hz by congruence. right.
      apply (ui_open _ _ Hi x z Hx Hz).
  - intros x y' Hx Hn Hy' Hp. rewrite (HgV x Hx).
    destruct (decide (y' = y)) as [->|Hy'y].
    + rewrite lookup_insert_eq. destruct (decide (x = c)) as [->|Hxc].
      * exists gc, (gc + 1). split; [exact Hgc|]. split; [reflexivity | lia].
      * destruct (ui_relax _ _ Hi x y Hx Hn Hy') as (gx & gy & Hgx & Hgy & Hle).
        { intros H. apply elem_of_cons in H as [H|H]; [congruence | contradiction]. }
        specialize (Hbetter gy Hgy). exists gx, (gc + 1). split; [exact Hgx|].
        split; [reflexivity | lia].
    + rewrite lookup_insert_ne by congruence. apply (ui_relax _ _ Hi x y' Hx Hn Hy').
      intros H. apply elem_of_cons in H as [H|H]; [congruence | contradiction].
  - intros x z w Hx. rewrite (HgV x Hx). apply (ui_dist _ _ Hi x z w Hx).
  - apply (ui_goal _ _ Hi).
Qed.

Lemma ucs_inv_drop (c y : coord) (P : list (coord * coord)) (st : RunUCS.state) :
  ucs_inv ((c, y) :: P) st ->
  (c ∈ RunUCS.visited_cells st -> In y (get_neighbors g c) -> y ∉ RunUCS.visited_cells st ->
   exists gx gy, RunUCS.g_score st !! c = Some gx /\ RunUCS.g_score st !! y = Some gy /\
     gy <= gx + 1) ->
  ucs_inv P st.
Proof.
  intros Hi Hcy. destruct Hi. constructor; try assumption.
  intros x y' Hx Hn Hy' Hp. destruct (decide ((x, y') = (c, y))) as [E|E].
  - injection E as -> ->. apply Hcy; assumption.
  - apply ui_relax0; [exact Hx | exact Hn | exact Hy' |].
    intros H. apply elem_of_cons in H as [H|H]; contradiction.
Qed.

Lemma ucs_visit_inv (c y : coord) (gc : Z) (P : list (coord * coord)) (st : RunUCS.state) :
  ucs_inv ((c, y) :: P) st -> c ∈ RunUCS.visited_cells st ->
  RunUCS.g_score st !! c = Some gc -> In y (get_neighbors g c) ->
  ucs_inv P (RunUCS.visit_neighbor c st y) /\
  RunUCS.visited_cells (RunUCS.visit_neighbor c st y) = RunUCS.visited_cells st /\
  RunUCS.g_score (RunUCS.visit_neighbor c st y) !! c = Some gc /\
  (length (RunUCS.open_set (RunUCS.visit_neighbor c st y)) <=
   S (length (RunUCS.open_set st)))%nat.
Proof.
  intros Hi HcV Hgc Hy.
  assert (Hkeep : (c ∈ RunUCS.visited_cells st -> In y (get_neighbors g c) ->
                   y ∉ RunUCS.visited_cells st ->
                   exists gx gy, RunUCS.g_score st !! c = Some gx /\
                     RunUCS.g_score st !! y = Some gy /\ gy <= gx + 1) ->
            ucs_inv P st /\ RunUCS.visited_cells st = RunUCS.visited_cells st /\
            RunUCS.g_score st !! c = Some gc /\
            (length (RunUCS.open_set st) <= S (length (RunUCS.open_set st)))%nat).
  { intros H. split; [exact (ucs_inv_drop c y P st Hi H)|]. split; [reflexivity|].
    split; [exact Hgc | lia]. }
  assert (Himp : y ∉ RunUCS.visited_cells st ->
            (forall gy, RunUCS.g_score st !! y = Some gy -> gc + 1 < gy) ->
            let st' := RunUCS.mkState (heappush (RunUCS.open_set st) (gc + 1, y))
              (RunUCS.visited_cells st) (<[y:=c]> (RunUCS.came_from st))
              (<[y:=gc + 1]> (RunUCS.g_score st)) (RunUCS.n_visited st)
              (S (RunUCS.n_explored st)) in
            ucs_inv P st' /\ RunUCS.visited_cells st' = RunUCS.visited_cells st /\
            RunUCS.g_score st' !! c = Some gc /\
            (length (RunUCS.open_set st') <= S (length (RunUCS.open_set st)))%nat).
  { intros HyV Hb st'. split; [apply (ucs_improve_inv c y gc P st); assumption|].
    split; [reflexivity|]. split.
    - cbn [RunUCS.g_score st']. rewrite lookup_insert_ne by (intros ->; contradiction).
      exact Hgc.
    - cbn [RunUCS.open_set st']. rewrite length_heappush. lia. }
  unfold RunUCS.visit_neighbor. case_decide as HyV.
  - apply Hkeep. intros _ _ H. contradiction.
  - unfold get_score. rewrite Hgc.
    destruct (RunUCS.g_score st !! y) as [gy|] eqn:Egy.
    + destruct (gc + 1 <? gy) eqn:Elt.
      * apply Himp; [exact HyV|]. intros gy' Hgy'. try rewrite Egy in Hgy'.
        injection Hgy' as <-. apply Z.ltb_lt, Elt.
      * apply Hkeep. intros _ _ _. exists gc, gy. split; [exact Hgc|]. split; [reflexivity|].
        apply Z.ltb_ge in Elt. lia.
    + apply Himp; [exact HyV|]. intros gy' Hgy'. try rewrite Egy in Hgy'. discriminate.
Qed.

Lemma ucs_fold_inv (c : coord) (gc : Z) (l : list coord) (st : RunUCS.state) :
  ucs_inv (map (fun n => (c, n)) l) st -> c ∈ RunUCS.visited_cells st ->
  RunUCS.g_score st !! c = Some gc -> (forall y, In y l -> In y (get_neighbors g c)) ->
  ucs_inv [] (fold_left (RunUCS.visit_neighbor c) l st) /\
  RunUCS.visited_cells (fold_left (RunUCS.visit_neighbor c) l st) = RunUCS.visited_cells st /\
  (length (RunUCS.open_set (fold_left (RunUCS.visit_neighbor c) l st)) <=
   length (RunUCS.open_set st) + length l)%nat.
Proof.
  revert st. induction l as [|y l IH]; intros st Hi HcV Hgc Hl.
  - simpl. split; [exact Hi|]. split; [reflexivity | lia].
  - cbn [fold_left]. cbn [map] in Hi.
    destruct (ucs_visit_inv c y gc _ st Hi HcV Hgc (Hl y (or_introl eq_refl)))
      as (Hi' & HV & Hgc' & Hlen).
    destruct (IH _ Hi' ltac:(rewrite HV; exact HcV) Hgc'
                (fun y' Hy' => Hl y' (or_intror Hy'))) as (Hi'' & HV' & Hlen').
    split; [exact Hi''|]. split; [rewrite HV', HV; reflexivity|]. simpl length. lia.
Qed.

(** The entry [heappop] returns for a cell not yet visited carries the
    cell's [g_score], and no walk to that cell is shorter than it. *)
Lemma ucs_pop_min (st : RunUCS.state) (k : Z) (c : coord) (rest : list entry) :
  ucs_inv [] st -> heappop (RunUCS.open_set st) = Some ((k, c), rest) ->
  c ∉ RunUCS.visited_cells st ->
  RunUCS.g_score st !! c = Some k /\
  forall w, walk_from g s c w -> k + 1 <= Z.of_nat (length w).
Proof.
  intros Hi Ep HcV. destruct (heappop_elem _ _ _ Ep) as (Hel & _ & Hmin).
  assert (Hkc : (k, c) ∈ RunUCS.open_set st) by (apply Hel; left; reflexivity).
  destruct (ui_heap _ _ Hi k c Hkc) as (gc & Hgc & Hgck).
  assert (Hgk : gc = k).
  { pose proof (Hmin _ (ui_open _ _ Hi c gc HcV Hgc)) as H.
    unfold entry_lt in H; simpl in H. lia. }
  subst gc. split; [exact Hgc|].
  intros w Hw. destruct (ucs_frontier st Hi w c Hw HcV) as (y & z & Hy & Hz & Hle).
  pose proof (Hmin _ (ui_open _ _ Hi y z Hy Hz)) as H.
  unfold entry_lt in H; simpl in H. lia.
Qed.

Lemma ucs_step_inv (st st' : RunUCS.state) :
  ucs_inv [] st -> RunUCS.step g goal st = Continue st' ->
  ucs_inv [] st' /\ (ucs_measure st' < ucs_measure st)%nat.
Proof.
  intros Hi Hstep. unfold RunUCS.step in Hstep.
  destruct (heappop (RunUCS.open_set st)) as [[[k c] rest]|] eqn:Ep; [|discriminate].
  destruct (heappop_elem _ _ _ Ep) as (Hel & Hlen & Hmin).
  destruct (decide (c ∈ RunUCS.visited_cells st)) as [HcV|HcV].
  - injection Hstep as <-. split.
    + destruct Hi. constructor;
        cbn [RunUCS.open_set RunUCS.visited_cells RunUCS.came_from RunUCS.g_score];
        try assumption.
      * intros k' x Hx. apply (ui_heap_cells0 k' x), Hel. right. exact Hx.
      * destruct ui_start0 as [(HV & _)|Hs]; [rewrite HV in HcV; set_solver | right; exact Hs].
      * intros k' x Hx. apply (ui_heap0 k' x), Hel. right. exact Hx.
      * intros x z Hx Hz. pose proof (ui_open0 x z Hx Hz) as H.
        apply Hel in H as [H|H]; [injection H as _ ->; contradiction | exact H].
    + unfold ucs_measure. cbn [RunUCS.open_set RunUCS.visited_cells]. lia.
  - destruct (decide (c = goal)) as [Hcg|Hcg]; [discriminate|].
    injection Hstep as <-. unfold RunUCS.expand.
    destruct (ucs_pop_min st k c rest Hi Ep HcV) as (Hgc & Hdist).
    assert (Hkc : (k, c) ∈ RunUCS.open_set st) by (apply Hel; left; reflexivity).
    assert (Hc_cells : c ∈ cells_of g s) by (apply (ui_heap_cells _ _ Hi k c Hkc)).
    assert (Hi1 : ucs_inv (map (fun n => (c, n)) (get_neighbors g c))
      (RunUCS.mkState rest ({[c]} ∪ RunUCS.visited_cells st) (RunUCS.came_from st)
         (RunUCS.g_score st) (S (RunUCS.n_visited st)) (RunUCS.n_explored st))).
    { destruct Hi. constructor;
        cbn [RunUCS.open_set RunUCS.visited_cells RunUCS.came_from RunUCS.g_score];
        try assumption.
      - apply union_subseteq. split; [apply singleton_subseteq_l, Hc_cells | assumption].
      - intros k' x Hx. apply (ui_heap_cells0 k' x), Hel. right. exact Hx.
      - right. destruct ui_start0 as [(_ & HH & _)|Hs]; [|set_solver].
        rewrite HH in Hkc. apply list_elem_of_singleton in Hkc. injection Hkc as _ ->.
        set_solver.
      - intros v u Hvu. destruct (ui_link0 v u Hvu) as (Hu & Hrest).
        split; [set_solver | exact Hrest].
      - intros k' x Hx. apply (ui_heap0 k' x), Hel. right. exact Hx.
      - intros x z Hx Hz. assert (Hx' : x ∉ RunUCS.visited_cells st) by set_solver.
        pose proof (ui_open0 x z Hx' Hz) as H.
        apply Hel in H as [H|H]; [injection H as _ ->; set_solver | exact H].
      - intros x y Hx Hn Hy Hp. apply elem_of_union in Hx as [Hx|Hx].
        + apply elem_of_singleton in Hx. subst x. exfalso. apply Hp.
          apply list_elem_of_In, in_map, Hn.
        + apply ui_relax0; [exact Hx | exact Hn | set_solver | apply not_elem_of_nil].
      - intros x z w Hx Hz Hw. apply elem_of_union in Hx as [Hx|Hx].
        + apply elem_of_singleton in Hx. subst x. rewrite Hgc in Hz. injection Hz as <-.
          apply Hdist, Hw.
        + apply (ui_dist0 x z w Hx Hz Hw).
      - intros H. apply elem_of_union in H as [H|H]; [|contradiction].
        apply elem_of_singleton in H. congruence. }
    destruct (ucs_fold_inv c k (get_neighbors g c) _ Hi1 ltac:(cbn; set_solver) Hgc
                (fun y Hy => Hy)) as (Hi' & HV' & Hlen').
    split; [exact Hi'|].
    unfold ucs_measure. rewrite HV'.
    cbn [RunUCS.open_set RunUCS.visited_cells] in Hlen' |- *.
    pose proof (size_difference_add (cells_of g s) (RunUCS.visited_cells st) c Hc_cells HcV).
    pose proof (length_get_neighbors g c). lia.
Qed.

Lemma ucs_loop_stops :
  exists st, ucs_inv [] st /\ RunUCS.step g goal st = Stop (run_ucs g s goal).
Proof.
  unfold run_ucs, RunUCS.loop.
  apply (while_loop_stops (RunUCS.step g goal) RunUCS.out_of_fuel (ucs_inv []) ucs_measure).
  - intros st st' Hi Hs. apply (ucs_step_inv st st' Hi Hs).
  - intros st st' Hi Hs. apply (ucs_step_inv st st' Hi Hs).
  - apply ucs_init_inv.
  - unfold ucs_measure, RunUCS.init. simpl.
    rewrite (difference_empty_L (cells_of g s)). pose proof (search_fuel_bound g s). lia.
Qed.

(** [run_ucs] ends with no path only when no walk reaches the goal, and
    otherwise returns a walk from the start to the goal with no more cells
    than any other such walk. *)
Lemma ucs_outcome :
  (result (run_ucs g s goal) = NoPathFound /\ forall w, ~ walk_from g s goal w) \/
  (exists p, result (run_ucs g s goal) = Found p /\ walk_from g s goal p /\
     forall w, walk_from g s goal w -> (length p <= length w)%nat).
Proof.
  destruct ucs_loop_stops as (st & Hi & Hstop).
  unfold RunUCS.step in Hstop.
  destruct (heappop (RunUCS.open_set st)) as [[[k c] rest]|] eqn:Ep.
  - destruct (decide (c ∈ RunUCS.visited_cells st)) as [HcV|HcV]; [discriminate|].
    destruct (decide (c = goal)) as [->|Hcg]; [|discriminate].
    right. injection Hstop as Hr. rewrite <- Hr. cbn [RunUCS.came_from result].
    destruct (ucs_pop_min st k goal rest Hi Ep HcV) as (Hgc & Hdist).
    set (P := fun v => exists z, RunUCS.g_score st !! v = Some z).
    set (D := fun v => Z.to_nat (get_score (RunUCS.g_score st) v)).
    assert (Hrank : forall v u, P v -> RunUCS.came_from st !! v = Some u ->
                      P u /\ (D u < D v)%nat).
    { intros v u _ Hvu. destruct (ui_link _ _ Hi v u Hvu) as (_ & _ & gu & Hgu & Hgv).
      split; [exists gu; exact Hgu|]. unfold D, get_score. rewrite Hgu, Hgv.
      pose proof (ui_nonneg _ _ Hi u gu Hgu). lia. }
    destruct (reconstruct_path_ranked (RunUCS.came_from st) P D Hrank goal
                (ex_intro _ k Hgc)) as (l & Hl & Hrec & HF & Hlen).
    rewrite Hrec. exists (rev l). split; [reflexivity|].
    assert (Hw : walk_from g s goal (rev l)).
    { destruct (parent_chain_path _ _ _ Hl) as (Hc & Hlast & r & Hr0 & Hrn).
      assert (Hrs : r = s).
      { assert (Hrl : In r l).
        { apply in_rev. destruct (rev l) as [|a l0]; [discriminate|].
          injection Hr0 as ->. left. reflexivity. }
        rewrite Forall_forall in HF. destruct (HF r (proj2 (list_elem_of_In l r) Hrl)) as [z Hz].
        destruct (ui_parent _ _ Hi r z Hz) as [->|(u & Hu)]; [reflexivity | congruence]. }
      subst r. split; [exact Hr0|]. split; [exact Hlast|].
      revert Hc. apply chain_mono. intros x y Hxy.
      apply (ui_link _ _ Hi y x Hxy). }
    split; [exact Hw|]. intros w Hw'. pose proof (Hdist w Hw') as Hle.
    unfold D, get_score in Hlen. rewrite Hgc in Hlen. rewrite length_rev.
    pose proof (ui_nonneg _ _ Hi goal k Hgc). lia.
  - left. injection Hstop as Hr. rewrite <- Hr. split; [reflexivity|].
    apply heappop_None in Ep. intros w Hw.
    destruct (ucs_frontier st Hi w goal Hw (ui_goal _ _ Hi)) as (y & z & Hy & Hz & _).
    pose proof (ui_open _ _ Hi y z Hy Hz) as H. rewrite Ep in H. inversion H.
Qed.

End UCSInvariant.

(** ** A* *)

Section AStarInvariant.
Context (g : Grid) (s goal : coord).

(** The invariant of [run_astar]. *)
Record astar_inv (st : RunAStar.state) : Prop := {
  ai_cells : RunAStar.closed_set st ⊆ cells_of g s;
  ai_heap_cells : forall k x, (k, x) ∈ RunAStar.open_set st -> x ∈ cells_of g s;
  ai_start : (RunAStar.closed_set st = ∅ /\ RunAStar.open_set st = [(0, s)]) \/
             s ∈ RunAStar.closed_set st;
  ai_root : RunAStar.came_from st !! s = None;
  ai_link : forall v u, RunAStar.came_from st !! v = Some u ->
    u ∈ RunAStar.closed_set st /\ In v (get_neighbors g u) /\
    exists gu, RunAStar.g_score st !! u = Some gu /\ RunAStar.g_score st !! v = Some (gu + 1);
  ai_parent : forall v z, RunAStar.g_score st !! v = Some z ->
    v = s \/ exists u, RunAStar.came_from st !! v = Some u;
  ai_nonneg : forall v z, RunAStar.g_score st !! v = Some z -> 0 <= z;
  ai_heap : forall k x, (k, x) ∈ RunAStar.open_set st ->
    (x ∉ RunAStar.closed_set st) /\ exists z, RunAStar.g_score st !! x = Some z;
  ai_nodup : NoDup (map snd (RunAStar.open_set st));
  ai_goal : goal ∉ RunAStar.closed_set st
}.

Definition astar_measure (st : RunAStar.state) : nat :=
  (5 * size (cells_of g s ∖ RunAStar.closed_set st) + length (RunAStar.open_set st))%nat.

Lemma astar_init_inv : astar_inv (RunAStar.init s goal).
Proof.
  unfold RunAStar.init. constructor; simpl.
  - set_solver.
  - intros k x Hx. apply list_elem_of_singleton in Hx. injection Hx as -> ->.
    unfold cells_of. set_solver.
  - left. auto.
  - apply lookup_empty.
  - intros v u H. rewrite lookup_empty in H. discriminate.
  - intros v z H. apply lookup_singleton_Some in H as [-> _]. left. reflexivity.
  - intros v z H. apply lookup_singleton_Some in H as [_ <-]. lia.
  - intros k x Hx. apply list_elem_of_singleton in Hx. injection Hx as -> ->.
    split; [set_solver|]. exists 0. apply lookup_singleton_eq.
  - constructor; [apply not_elem_of_nil | constructor].
  - set_solver.
Qed.

Lemma astar_improve_inv (c y : coord) (gc : Z) (st : RunAStar.state) :
  astar_inv st -> c ∈ RunAStar.closed_set st ->
  RunAStar.g_score st !! c = Some gc -> In y (get_neighbors g c) ->
  y ∉ RunAStar.closed_set st ->
  astar_inv (RunAStar.improve goal c y (gc + 1) st).
Proof.
  intros Hi HcV Hgc Hy HyV.
  assert (HsV : s ∈ RunAStar.closed_set st).
  { destruct (ai_start _ Hi) as [(HV & _)|Hs]; [rewrite HV in HcV; set_solver | exact Hs]. }
  assert (HgV : forall x, x ∈ RunAStar.closed_set st ->
            (<[y:=gc + 1]> (RunAStar.g_score st)) !! x = RunAStar.g_score st !! x).
  { intros x Hx. apply lookup_insert_ne. intros ->. contradiction. }
  (* the fields that do not depend on the open list *)
  assert (Hcommon : forall H : list entry,
    (forall k x, (k, x) ∈ H -> x ∈ cells_of g s) ->
    (forall k x, (k, x) ∈ H -> (x ∉ RunAStar.closed_set st) /\
                   exists z, (<[y:=gc + 1]> (RunAStar.g_score st)) !! x = Some z) ->
    NoDup (map snd H) ->
    forall f nv ne, astar_inv (RunAStar.mkState H (RunAStar.closed_set st)
      (<[y:=c]> (RunAStar.came_from st)) (<[y:=gc + 1]> (RunAStar.g_score st)) f nv ne)).
  { intros H HHc HHg HHn f nv ne. constructor;
      cbn [RunAStar.open_set RunAStar.closed_set RunAStar.came_from RunAStar.g_score].
    - apply (ai_cells _ Hi).
    - exact HHc.
    - right. exact HsV.
    - rewrite lookup_insert_ne by (intros ->; contradiction). apply (ai_root _ Hi).
    - intros v u Hvu. destruct (decide (v = y)) as [->|Hvy].
      + rewrite lookup_insert_eq in Hvu. injection Hvu as <-.
        split; [exact HcV|]. split; [exact Hy|]. exists gc.
        rewrite (HgV c HcV), lookup_insert_eq. auto.
      + rewrite lookup_insert_ne in Hvu by congruence.
        destruct (ai_link _ Hi v u Hvu) as (Hu & Hn & gu & Hgu & Hgv).
        split; [exact Hu|]. split; [exact Hn|]. exists gu.
        rewrite (HgV u Hu), lookup_insert_ne by congruence. auto.
    - intros v z Hv. destruct (decide (v = y)) as [->|Hvy].
      + right. exists c. apply lookup_insert_eq.
      + rewrite lookup_insert_ne in Hv by congruence.
        rewrite lookup_insert_ne by congruence. apply (ai_parent _ Hi v z Hv).
    - intros v z Hv. destruct (decide (v = y)) as [->|Hvy].
      + rewrite lookup_insert_eq in Hv. injection Hv as <-.
        pose proof (ai_nonneg _ Hi c gc Hgc). lia.
      + rewrite lookup_insert_ne in Hv by congruence. apply (ai_nonneg _ Hi v z Hv).
    - exact HHg.
    - exact HHn.
    - apply (ai_goal _ Hi). }
  unfold RunAStar.improve. case_decide as Hnew.
  - apply Hcommon.
    + intros k x Hx. apply heappush_elem in Hx as [Hx|Hx].
      * injection Hx as -> ->. eapply neighbor_in_cells. exact Hy.
      * eapply (ai_heap_cells _ Hi). exact Hx.
    + intros k x Hx. apply heappush_elem in Hx as [Hx|Hx].
      * injection Hx as -> ->. split; [exact HyV|]. exists (gc + 1). apply lookup_insert_eq.
      * destruct (ai_heap _ Hi k x Hx) as [Hx' [z Hz]]. split; [exact Hx'|].
        destruct (decide (x = y)) as [->|Hxy]; [exists (gc + 1); apply lookup_insert_eq|].
        exists z. rewrite lookup_insert_ne by congruence. exact Hz.
    + unfold heappush. rewrite map_app. apply NoDup_app. split; [apply (ai_nodup _ Hi)|].
      split; [|constructor; [apply not_elem_of_nil | constructor]].
      intros x Hx Hx'. simpl in Hx'. apply list_elem_of_singleton in Hx'. subst x.
      contradiction.
  - apply Hcommon.
    + apply (ai_heap_cells _ Hi).
    + intros k x Hx. destruct (ai_heap _ Hi k x Hx) as [Hx' [z Hz]]. split; [exact Hx'|].
      destruct (decide (x = y)) as [->|Hxy]; [exists (gc + 1); apply lookup_insert_eq|].
      exists z. rewrite lookup_insert_ne by congruence. exact Hz.
    + apply (ai_nodup _ Hi).
Qed.

Lemma length_improve (c y : coord) (z : Z) (st : RunAStar.state) :
  (length (RunAStar.open_set (RunAStar.improve goal c y z st)) <=
   S (length (RunAStar.open_set st)))%nat.
Proof.
  unfold RunAStar.improve. case_decide; simpl; [rewrite length_heappush|]; lia.
Qed.

Lemma astar_fold_inv (c : coord) (gc : Z) (l : list coord) (st : RunAStar.state) :
  astar_inv st -> c ∈ RunAStar.closed_set st ->
  RunAStar.g_score st !! c = Some gc -> (forall y, In y l -> In y (get_neighbors g c)) ->
  astar_inv (fold_left (RunAStar.visit_neighbor goal c) l st) /\
  RunAStar.closed_set (fold_left (RunAStar.visit_neighbor goal c) l st) =
    RunAStar.closed_set st /\
  (length (RunAStar.open_set (fold_left (RunAStar.visit_neighbor goal c) l st)) <=
   length (RunAStar.open_set st) + length l)%nat.
Proof.
  revert st. induction l as [|y l IH]; intros st Hi HcV Hgc Hl.
  - simpl. split; [exact Hi|]. split; [reflexivity | lia].
  - cbn [fold_left].
    assert (Hstep : astar_inv (RunAStar.visit_neighbor goal c st y) /\
              RunAStar.closed_set (RunAStar.visit_neighbor goal c st y) =
                RunAStar.closed_set st /\
              RunAStar.g_score (RunAStar.visit_neighbor goal c st y) !! c = Some gc /\
              (length (RunAStar.open_set (RunAStar.visit_neighbor goal c st y)) <=
               S (length (RunAStar.open_set st)))%nat).
    { unfold RunAStar.visit_neighbor. case_decide as HyV.
      - split; [exact Hi|]. split; [reflexivity|]. split; [exact Hgc | lia].
      - unfold get_score. rewrite Hgc.
        assert (Himp : astar_inv (RunAStar.improve goal c y (gc + 1) st) /\
                  RunAStar.closed_set (RunAStar.improve goal c y (gc + 1) st) =
                    RunAStar.closed_set st /\
                  RunAStar.g_score (RunAStar.improve goal c y (gc + 1) st) !! c = Some gc /\
                  (length (RunAStar.open_set (RunAStar.improve goal c y (gc + 1) st)) <=
                   S (length (RunAStar.open_set st)))%nat).
        { split; [apply astar_improve_inv; auto; apply Hl; left; reflexivity|].
          split; [unfold RunAStar.improve; case_decide; reflexivity|].
          split; [|apply length_improve].
          unfold RunAStar.improve. assert (y <> c) by (intros ->; contradiction).
          case_decide; simpl; rewrite lookup_insert_ne by congruence; exact Hgc. }
        destruct (RunAStar.g_score st !! y) as [gy|].
        + destruct (gc + 1 <? gy); [exact Himp|].
          split; [exact Hi|]. split; [reflexivity|]. split; [exact Hgc | lia].
        + exact Himp. }
    destruct Hstep as (Hi' & HV & Hgc' & Hlen).
    destruct (IH _ Hi' ltac:(rewrite HV; exact HcV) Hgc'
                (fun y' Hy' => Hl y' (or_intror Hy'))) as (Hi'' & HV' & Hlen').
    split; [exact Hi''|]. split; [rewrite HV', HV; reflexivity|]. simpl length. lia.
Qed.

(** What [heappop] returns from A*'s open list. *)
Lemma astar_pop (st : RunAStar.state) (k : Z) (c : coord) (rest : list entry) :
  astar_inv st -> heappop (RunAStar.open_set st) = Some ((k, c), rest) ->
  (forall e, e ∈ RunAStar.open_set st <-> e = (k, c) \/ e ∈ rest) /\
  length (RunAStar.open_set st) = S (length rest) /\
  (forall e, e ∈ RunAStar.open_set st -> ~ entry_lt e (k, c)) /\
  (c ∉ map snd rest) /\ NoDup (map snd rest) /\ (c ∉ RunAStar.closed_set st) /\
  exists z, RunAStar.g_score st !! c = Some z.
Proof.
  intros Hi Ep. destruct (heappop_elem _ _ _ Ep) as (Hel & Hlen & Hmin).
  destruct (heappop_spec _ _ _ Ep) as [Hp _].
  pose proof (ai_nodup _ Hi) as Hnd.
  assert (Hnd' : NoDup (map snd ((k, c) :: rest))).
  { apply (Permutation_map snd) in Hp. rewrite Hp in Hnd. exact Hnd. }
  cbn [map snd] in Hnd'. apply NoDup_cons in Hnd' as [Hc Hnd'].
  destruct (ai_heap _ Hi k c ltac:(apply Hel; left; reflexivity)) as [HcV Hz].
  auto 10.
Qed.

Lemma astar_step_inv (st st' : RunAStar.state) :
  astar_inv st -> RunAStar.step g goal st = Continue st' ->
  astar_inv st' /\ (astar_measure st' < astar_measure st)%nat.
Proof.
  intros Hi Hstep. unfold RunAStar.step in Hstep.
  destruct (heappop (RunAStar.open_set st)) as [[[k c] rest]|] eqn:Ep; [|discriminate].
  destruct (astar_pop st k c rest Hi Ep) as (Hel & Hlen & _ & Hcr & Hnd & HcV & gc & Hgc).
  destruct (decide (c = goal)) as [Hcg|Hcg]; [discriminate|].
  injection Hstep as <-. unfold RunAStar.expand.
  assert (Hc_cells : c ∈ cells_of g s)
    by (apply (ai_heap_cells _ Hi k c), Hel; left; reflexivity).
  assert (Hi1 : astar_inv (RunAStar.mkState rest ({[c]} ∪ RunAStar.closed_set st)
     (RunAStar.came_from st) (RunAStar.g_score st) (RunAStar.f_score st)
     (S (RunAStar.n_visited st)) (RunAStar.n_explored st))).
  { destruct Hi. constructor;
      cbn [RunAStar.open_set RunAStar.closed_set RunAStar.came_from RunAStar.g_score];
      try assumption.
    - apply union_subseteq. split; [apply singleton_subseteq_l, Hc_cells | assumption].
    - intros k' x Hx. apply (ai_heap_cells0 k' x), Hel. right. exact Hx.
    - right. destruct ai_start0 as [(_ & HH)|Hs]; [|set_solver].
      assert (Hkc : (k, c) ∈ RunAStar.open_set st) by (apply Hel; left; reflexivity).
      rewrite HH in Hkc. apply list_elem_of_singleton in Hkc. injection Hkc as _ ->.
      set_solver.
    - intros v u Hvu. destruct (ai_link0 v u Hvu) as (Hu & Hrest).
      split; [set_solver | exact Hrest].
    - intros k' x Hx. destruct (ai_heap0 k' x) as [Hx' Hz]; [apply Hel; right; exact Hx|].
      split; [|exact Hz]. intros H. apply elem_of_union in H as [H|H]; [|contradiction].
      apply elem_of_singleton in H. subst x. apply Hcr.
      apply list_elem_of_In, in_map_iff. exists (k', c). split; [reflexivity|].
      apply list_elem_of_In, Hx.
    - intros H. apply elem_of_union in H as [H|H]; [|contradiction].
      apply elem_of_singleton in H. congruence. }
  destruct (astar_fold_inv c gc (get_neighbors g c) _ Hi1 ltac:(cbn; set_solver) Hgc
              (fun y Hy => Hy)) as (Hi' & HV' & Hlen').
  split; [exact Hi'|].
  unfold astar_measure. rewrite HV'.
  cbn [RunAStar.open_set RunAStar.closed_set] in Hlen' |- *.
  pose proof (size_difference_add (cells_of g s) (RunAStar.closed_set st) c Hc_cells HcV).
  pose proof (length_get_neighbors g c). lia.
Qed.

Lemma astar_loop_stops :
  exists st, astar_inv st /\ RunAStar.step g goal st = Stop (run_astar g s goal).
Proof.
  unfold run_astar, RunAStar.loop.
  apply (while_loop_stops (RunAStar.step g goal) RunAStar.out_of_fuel astar_inv
           astar_measure).
  - intros st st' Hi Hs. apply (astar_step_inv st st' Hi Hs).
  - intros st st' Hi Hs. apply (astar_step_inv st st' Hi Hs).
  - apply astar_init_inv.
  - unfold astar_measure, RunAStar.init. simpl.
    rewrite (difference_empty_L (cells_of g s)). pose proof (search_fuel_bound g s). lia.
Qed.

(** Where A* stops: with an empty open list, or on popping the goal, whose
    reconstructed path is a walk from the start with at most
    [g_score[goal] + 1] cells. *)
Lemma astar_stop_result (st : RunAStar.state) (r : run_result) :
  astar_inv st -> RunAStar.step g goal st = Stop r ->
  (result r = NoPathFound /\ RunAStar.open_set st = []) \/
  (exists p k rest z, result r = Found p /\
     heappop (RunAStar.open_set st) = Some ((k, goal), rest) /\
     RunAStar.g_score st !! goal = Some z /\
     walk_from g s goal p /\ (length p <= Z.to_nat z + 1)%nat).
Proof.
  intros Hi Hstop. unfold RunAStar.step in Hstop.
  destruct (heappop (RunAStar.open_set st)) as [[[k c] rest]|] eqn:Ep.
  - destruct (decide (c = goal)) as [->|Hcg]; [|discriminate].
    right. injection Hstop as <-. cbn [result].
    destruct (astar_pop st k goal rest Hi Ep) as (_ & _ & _ & _ & _ & _ & z & Hgz).
    set (P := fun v => exists z, RunAStar.g_score st !! v = Some z).
    set (D := fun v => Z.to_nat (get_score (RunAStar.g_score st) v)).
    assert (Hrank : forall v u, P v -> RunAStar.came_from st !! v = Some u ->
                      P u /\ (D u < D v)%nat).
    { intros v u _ Hvu. destruct (ai_link _ Hi v u Hvu) as (_ & _ & gu & Hgu & Hgv).
      split; [exists gu; exact Hgu|]. unfold D, get_score. rewrite Hgu, Hgv.
      pose proof (ai_nonneg _ Hi u gu Hgu). lia. }
    destruct (reconstruct_path_ranked (RunAStar.came_from st) P D Hrank goal
                (ex_intro _ z Hgz)) as (l & Hl & Hrec & HF & Hlen).
    rewrite Hrec. exists (rev l), k, rest, z. split; [reflexivity|].
    split; [reflexivity|]. split; [exact Hgz|]. split.
    + destruct (parent_chain_path _ _ _ Hl) as (Hc & Hlast & r & Hr0 & Hrn).
      assert (Hrs : r = s).
      { assert (Hrl : In r l).
        { apply in_rev. destruct (rev l) as [|a l0]; [discriminate|].
          injection Hr0 as ->. left. reflexivity. }
        rewrite Forall_forall in HF.
        destruct (HF r (proj2 (list_elem_of_In l r) Hrl)) as [z' Hz'].
        destruct (ai_parent _ Hi r z' Hz') as [->|(u & Hu)]; [reflexivity | congruence]. }
      subst r. split; [exact Hr0|]. split; [exact Hlast|].
      revert Hc. apply chain_mono. intros x y Hxy.
      apply (ai_link _ Hi y x Hxy).
    + rewrite length_rev. unfold D, get_score in Hlen. rewrite Hgz in Hlen. lia.
  - left. injection Hstop as <-. split; [reflexivity|]. apply heappop_None, Ep.
Qed.

End AStarInvariant.

(** ** Termination of the five loops *)

(** A run whose result is not the exhausted-fuel outcome left its loop
    through the loop body, at a state reached by iterating the body. *)
Lemma while_loop_reaches_stop {S : Type} (step : S -> step_result S)
    (out_of_fuel : S -> run_result) (fuel : nat) (st0 : S) :
  (forall st, result (out_of_fuel st) = OutOfFuel) ->
  result (while_loop step out_of_fuel fuel st0) <> OutOfFuel ->
  exists st, reachable step st0 st /\ step st = Stop (while_loop step out_of_fuel fuel st0).
Proof.
  intros Hoof Hne.
  destruct (while_loop_cases step out_of_fuel (reachable step st0)
              (fun st st' Hr Hs => reach_step step st0 st st' Hr Hs) fuel st0
              (reach_init step st0)) as [H|(st' & _ & Heq)].
  - exact H.
  - exfalso. apply Hne. rewrite Heq. apply Hoof.
Qed.

Lemma bfs_outcome_cases (g : Grid) (s t : coord) :
  result (run_bfs g s t) = NoPathFound \/ exists p, result (run_bfs g s t) = Found p.
Proof.
  destruct (bfs_loop_stops g s t) as (st & [D Hi] & Hstop).
  unfold RunBFS.step in Hstop. destruct (RunBFS.queue st) as [|c rest] eqn:EQ.
  - left. injection Hstop as Hr. rewrite <- Hr. reflexivity.
  - destruct (decide (c = t)) as [->|Hct]; [|discriminate].
    right. injection Hstop as Hr. rewrite <- Hr. cbn [RunBFS.came_from result].
    assert (Ht : t ∈ RunBFS.visited st) by (apply (bi_queue _ _ _ _ _ Hi); rewrite EQ; left).
    destruct (bfs_found_path g s t D st Hi Ht) as (l & Hrec & _ & _).
    rewrite Hrec. eexists. reflexivity.
Qed.

Lemma astar_outcome (g : Grid) (s t : coord) :
  result (run_astar g s t) = NoPathFound \/
  exists p, result (run_astar g s t) = Found p /\ walk_from g s t p.
Proof.
  destruct (astar_loop_stops g s t) as (st & Hi & Hstop).
  destruct (astar_stop_result g s t st _ Hi Hstop) as [[Hr _]|(p & _ & _ & _ & Hr & _ & _ & Hw & _)].
  - left. exact Hr.
  - right. exists p. split; assumption.
Qed.

Lemma found_or_none_not_fuel (o : outcome) :
  o = NoPathFound \/ (exists p, o = Found p) -> o <> OutOfFuel.
Proof. intros [->|[p ->]]; discriminate. Qed.

(** C9: on every grid, for every start, goal and depth limit, each of the
    five search loops stops: iterating its body from the initial state
    reaches a state where the body leaves the loop with the run's result,
    and that result is either a path (the goal was reached) or the no-path
    outcome (the frontier was exhausted), never the exhausted-fuel outcome.
    The fuel is [search_fuel g], five iterations per cell of the grid plus
    two, so at most that many iterations run. *)
Theorem search_loops_terminate (g : Grid) (s t : coord) (L : Z) :
  ((exists st, reachable (RunAStar.step g t) (RunAStar.init s t) st /\
      RunAStar.step g t st = Stop (run_astar g s t)) /\
   (result (run_astar g s t) = NoPathFound \/ exists p, result (run_astar g s t) = Found p)) /\
  ((exists st, reachable (RunBFS.step g t) (RunBFS.init s) st /\
      RunBFS.step g t st = Stop (run_bfs g s t)) /\
   (result (run_bfs g s t) = NoPathFound \/ exists p, result (run_bfs g s t) = Found p)) /\
  ((exists st, reachable (RunDFS.step g t) (RunDFS.init s) st /\
      RunDFS.step g t st = Stop (run_dfs g s t)) /\
   (result (run_dfs g s t) = NoPathFound \/ exists p, result (run_dfs g s t) = Found p)) /\
  ((exists st, reachable (RunUCS.step g t) (RunUCS.init s) st /\
      RunUCS.step g t st = Stop (run_ucs g s t)) /\
   (result (run_ucs g s t) = NoPathFound \/ exists p, result (run_ucs g s t) = Found p)) /\
  ((exists st, reachable (RunDLS.step g t L) (RunDLS.init s) st /\
      RunDLS.step g t L st = Stop (run_dls g L s t)) /\
   (result (run_dls g L s t) = NoPathFound \/ exists p, result (run_dls g L s t) = Found p)).
Proof.
  assert (HA : result (run_astar g s t) = NoPathFound \/
               exists p, result (run_astar g s t) = Found p).
  { destruct (astar_outcome g s t) as [H|(p & H & _)]; [left; exact H | right; eauto]. }
  assert (HB := bfs_outcome_cases g s t).
  assert (HD : result (run_dfs g s t) = NoPathFound \/
               exists p, result (run_dfs g s t) = Found p).
  { destruct (dfs_outcome g s t) as [[H _]|(p & H & _)]; [left; exact H | right; eauto]. }
  assert (HU : result (run_ucs g s t) = NoPathFound \/
               exists p, result (run_ucs g s t) = Found p).
  { destruct (ucs_outcome g s t) as [[H _]|(p & H & _)]; [left; exact H | right; eauto]. }
  assert (HL : result (run_dls g L s t) = NoPathFound \/
               exists p, result (run_dls g L s t) = Found p).
  { destruct (dls_outcome g L s t) as [H|(p & H & _)]; [left; exact H | right; eauto]. }
  split; [split; [|exact HA]|]; [apply while_loop_reaches_stop;
    [intros; reflexivity | apply found_or_none_not_fuel, HA]|].
  split; [split; [|exact HB]|]; [apply while_loop_reaches_stop;
    [intros; reflexivity | apply found_or_none_not_fuel, HB]|].
  split; [split; [|exact HD]|]; [apply while_loop_reaches_stop;
    [intros; reflexivity | apply found_or_none_not_fuel, HD]|].
  split; [split; [|exact HU]|]; [apply while_loop_reaches_stop;
    [intros; reflexivity | apply found_or_none_not_fuel, HU]|].
  split; [|exact HL]. apply while_loop_reaches_stop;
    [intros; reflexivity | apply found_or_none_not_fuel, HL].
Qed.

(** ** Straight lines between start and goal *)

(** [c] lies on the segment of a row or a column from [s] to [t]. *)
Definition on_line (s t c : coord) : Prop :=
  (c.1 = t.1 /\ s.1 = t.1 /\ Z.min s.2 t.2 <= c.2 <= Z.max s.2 t.2) \/
  (c.2 = t.2 /\ s.2 = t.2 /\ Z.min s.1 t.1 <= c.1 <= Z.max s.1 t.1).

(** The next cell from [c] along the segment towards [t]. *)
Definition line_step (c t : coord) : coord :=
  if decide (c.1 = t.1) then (c.1, c.2 + Z.sgn (t.2 - c.2))
  else (c.1 + Z.sgn (t.1 - c.1), c.2).

(** The segment from [c] to [t], [n + 1] cells. *)
Fixpoint line_walk (n : nat) (c t : coord) : list coord :=
  match n with
  | O => [c]
  | S n' => c :: line_walk n' (line_step c t) t
  end.

Lemma sgn_cases (x : Z) :
  (x < 0 /\ Z.sgn x = -1) \/ (x = 0 /\ Z.sgn x = 0) \/ (0 < x /\ Z.sgn x = 1).
Proof.
  destruct (Z.lt_trichotomy x 0) as [H|[H|H]].
  - left. split; [exact H | apply Z.sgn_neg, H].
  - right. left. split; [exact H | subst; reflexivity].
  - right. right. split; [exact H | apply Z.sgn_pos, H].
Qed.

Lemma on_line_start (s t : coord) : s.1 = t.1 \/ s.2 = t.2 -> on_line s t s.
Proof. unfold on_line. lia. Qed.

Lemma heuristic_zero (c t : coord) : heuristic c t = 0 -> c = t.
Proof.
  destruct c as [a b], t as [a' b']. unfold heuristic. simpl. intros H.
  f_equal; lia.
Qed.

Lemma heuristic_adjacent (x y t : coord) :
  adjacent x y -> heuristic x t <= heuristic y t + 1.
Proof. destruct x, y, t. unfold adjacent, heuristic. simpl. lia. Qed.

Lemma line_step_spec (s t c : coord) :
  on_line s t c -> c <> t ->
  on_line s t (line_step c t) /\ heuristic (line_step c t) t + 1 = heuristic c t /\
  adjacent c (line_step c t).
Proof.
  destruct s as [s1 s2], t as [t1 t2], c as [c1 c2].
  unfold on_line, line_step, heuristic, adjacent. simpl. intros Hon Hne.
  assert (Hne' : c1 <> t1 \/ c2 <> t2) by (destruct (decide (c1 = t1)); [|lia];
    destruct (decide (c2 = t2)); [subst; congruence | lia]).
  case_decide as H1; simpl.
  - destruct (sgn_cases (t2 - c2)) as [(Hx & ->)|[(Hx & ->)|(Hx & ->)]]; lia.
  - destruct (sgn_cases (t1 - c1)) as [(Hx & ->)|[(Hx & ->)|(Hx & ->)]]; lia.
Qed.

(** On the segment, the only neighbour closer to [t] is the next cell. *)
Lemma line_neighbor (s t c n : coord) :
  on_line s t c -> c <> t -> adjacent c n ->
  n = line_step c t \/ heuristic n t = heuristic c t + 1.
Proof.
  destruct s as [s1 s2], t as [t1 t2], c as [c1 c2], n as [n1 n2].
  unfold on_line, line_step, heuristic, adjacent. simpl. intros Hon Hne Hadj.
  assert (Hne' : c1 <> t1 \/ c2 <> t2) by (destruct (decide (c1 = t1)); [|lia];
    destruct (decide (c2 = t2)); [subst; congruence | lia]).
  case_decide as H1.
  - destruct (sgn_cases (t2 - c2)) as [(Hx & Hs)|[(Hx & Hs)|(Hx & Hs)]]; rewrite Hs;
      (assert ((n1 = c1 /\ n2 = c2 + Z.sgn (t2 - c2)) \/
               Z.abs (n1 - t1) + Z.abs (n2 - t2) = Z.abs (c1 - t1) + Z.abs (c2 - t2) + 1)
         as [[-> ->]|H] by (rewrite Hs; lia); [left; rewrite Hs; reflexivity | right; exact H]).
  - destruct (sgn_cases (t1 - c1)) as [(Hx & Hs)|[(Hx & Hs)|(Hx & Hs)]]; rewrite Hs;
      (assert ((n1 = c1 + Z.sgn (t1 - c1) /\ n2 = c2) \/
               Z.abs (n1 - t1) + Z.abs (n2 - t2) = Z.abs (c1 - t1) + Z.abs (c2 - t2) + 1)
         as [[-> ->]|H] by (rewrite Hs; lia); [left; rewrite Hs; reflexivity | right; exact H]).
Qed.

Lemma in_bounds_intro (g : Grid) (p : coord) :
  0 <= p.1 < rows g -> 0 <= p.2 < cols g -> in_bounds g p = true.
Proof. unfold in_bounds. rewrite !andb_true_iff, !Z.leb_le, !Z.ltb_lt. lia. Qed.

Lemma line_in_bounds (g : Grid) (s t c : coord) :
  in_bounds g s = true -> in_bounds g t = true -> on_line s t c -> in_bounds g c = true.
Proof.
  intros Hs Ht Hon. apply in_bounds_true in Hs, Ht. apply in_bounds_intro;
    destruct s, t, c; unfold on_line in Hon; simpl in *; lia.
Qed.

Lemma in_neighbors_adjacent (g : Grid) (p q : coord) :
  In q (get_neighbors g p) -> adjacent p q.
Proof. intros H. apply get_neighbors_In in H as [H _]. apply around_adjacent, H. Qed.

Lemma line_step_neighbor (g : Grid) (s t c : coord) :
  (forall x, on_line s t x -> free_cell g x) -> on_line s t c -> c <> t ->
  In (line_step c t) (get_neighbors g c).
Proof.
  intros Hfree Hon Hne. destruct (line_step_spec s t c Hon Hne) as (Hon' & _ & Hadj).
  destruct (Hfree _ Hon') as [Hb Ho]. apply get_neighbors_In.
  split; [apply around_adjacent, Hadj|]. split; assumption.
Qed.

(** A walk from [s] to [x] has at least [heuristic s x + 1] cells. *)
Lemma walk_length_manhattan (g : Grid) (s x : coord) (w : list coord) :
  walk_from g s x w -> heuristic s x + 1 <= Z.of_nat (length w).
Proof.
  revert x. induction w as [|y w IH] using rev_ind; intros x Hw.
  - destruct Hw as [Hh _]. discriminate.
  - rewrite length_app. simpl length.
    apply walk_from_snoc in Hw as [-> [[-> ->] | (p & Hp & Hn)]].
    + unfold heuristic. simpl. lia.
    + pose proof (IH p Hp). apply in_neighbors_adjacent in Hn.
      destruct s, p, x. unfold adjacent, heuristic in *. simpl in *. lia.
Qed.

Lemma valid_path_cons (g : Grid) (c d t : coord) (q : list coord) :
  free_cell g c -> adjacent c d -> valid_path g d t q -> valid_path g c t (c :: q).
Proof.
  intros Hc Hcd (Hh & Hl & Hf & Hch). destruct q as [|d' q]; [discriminate|].
  injection Hh as ->. split; [reflexivity|]. split; [exact Hl|].
  split; [constructor; assumption|]. split; assumption.
Qed.

Lemma line_walk_valid (g : Grid) (s t : coord) (n : nat) :
  (forall x, on_line s t x -> free_cell g x) ->
  forall c, on_line s t c -> heuristic c t = Z.of_nat n ->
  valid_path g c t (line_walk n c t) /\ length (line_walk n c t) = S n.
Proof.
  intros Hfree. induction n as [|n IH]; intros c Hon Hh.
  - apply heuristic_zero in Hh. subst c. simpl. split; [|reflexivity].
    split; [reflexivity|]. split; [reflexivity|].
    split; [constructor; [apply Hfree, Hon | constructor] | exact I].
  - assert (Hne : c <> t) by (intros ->; unfold heuristic in Hh; rewrite !Z.sub_diag in Hh;
      simpl in Hh; lia).
    destruct (line_step_spec s t c Hon Hne) as (Hon' & Hh' & Hadj).
    destruct (IH (line_step c t) Hon' ltac:(lia)) as [Hv Hlen].
    cbn [line_walk length]. rewrite Hlen. split; [|reflexivity].
    apply (valid_path_cons g c (line_step c t)); [apply Hfree, Hon | exact Hadj | exact Hv].
Qed.

Section AStarLine.
Context (g : Grid) (s t : coord).
Hypothesis line_free : forall x, on_line s t x -> free_cell g x.

(** While A* runs from [s] to [t] along a free segment, the open list holds
    the next cell [c] of the segment with key at most [heuristic s t], every
    other entry has a larger key, and only cells of the segment are closed. *)
Record aline (c : coord) (st : RunAStar.state) : Prop := {
  al_on : on_line s t c;
  al_g : RunAStar.g_score st !! c = Some (heuristic s t - heuristic c t);
  al_key : exists kc, (kc, c) ∈ RunAStar.open_set st /\ kc <= heuristic s t;
  al_others : forall k x, (k, x) ∈ RunAStar.open_set st -> x <> c -> heuristic s t < k;
  al_closed : forall x, x ∈ RunAStar.closed_set st ->
    on_line s t x /\ heuristic c t < heuristic x t;
  al_dom : forall x z, RunAStar.g_score st !! x = Some z ->
    x = c \/ x ∈ RunAStar.closed_set st \/
    exists y, y ∈ RunAStar.closed_set st /\ In x (get_neighbors g y)
}.

(** The same during the expansion of [c], whose successor on the segment
    is [c']. *)
Record afold (c c' : coord) (st : RunAStar.state) : Prop := {
  af_closed_c : c ∈ RunAStar.closed_set st;
  af_g_c : RunAStar.g_score st !! c = Some (heuristic s t - heuristic c t);
  af_next : (RunAStar.g_score st !! c' = None /\ c' ∉ map snd (RunAStar.open_set st)) \/
            (RunAStar.g_score st !! c' = Some (heuristic s t - heuristic c' t) /\
             (heuristic s t, c') ∈ RunAStar.open_set st);
  af_others : forall k x, (k, x) ∈ RunAStar.open_set st -> x <> c' -> heuristic s t < k;
  af_closed : forall x, x ∈ RunAStar.closed_set st ->
    on_line s t x /\ heuristic c' t < heuristic x t;
  af_dom : forall x z, RunAStar.g_score st !! x = Some z ->
    x = c' \/ x ∈ RunAStar.closed_set st \/
    exists y, y ∈ RunAStar.closed_set st /\ In x (get_neighbors g y)
}.

Lemma aline_init : s.1 = t.1 \/ s.2 = t.2 -> aline s (RunAStar.init s t).
Proof.
  intros Hst. unfold RunAStar.init. constructor; simpl.
  - apply on_line_start, Hst.
  - rewrite Z.sub_diag. apply lookup_singleton_eq.
  - exists 0. split; [left|]. unfold heuristic. lia.
  - intros k x Hx Hxs. apply list_elem_of_singleton in Hx. injection Hx as _ ->.
    contradiction.
  - intros x Hx. set_solver.
  - intros x z H. apply lookup_singleton_Some in H as [-> _]. left. reflexivity.
Qed.

Lemma elem_of_map_snd (x : coord) (H : list entry) :
  x ∈ map snd H <-> exists k, (k, x) ∈ H.
Proof.
  rewrite list_elem_of_In, in_map_iff. split.
  - intros ([k y] & Hy & Hin). simpl in Hy. subst y. exists k. apply list_elem_of_In, Hin.
  - intros [k Hk]. exists (k, x). split; [reflexivity | apply list_elem_of_In, Hk].
Qed.

(** Relaxing a neighbour [y] of [c] other than [c']. *)
Lemma afold_improve_other (c c' y : coord) (st : RunAStar.state) :
  afold c c' st -> In y (get_neighbors g c) -> y ∉ RunAStar.closed_set st -> y <> c' ->
  heuristic y t = heuristic c t + 1 ->
  afold c c' (RunAStar.improve t c y (heuristic s t - heuristic c t + 1) st).
Proof.
  intros Hi Hy HyV Hyc' Hhy.
  assert (Hyc : y <> c) by (intros ->; apply HyV, (af_closed_c _ _ _ Hi)).
  destruct Hi as [Hc Hgc Hnext Hoth Hcl Hdom].
  assert (Hgen : forall H : list entry,
    (forall e, e ∈ RunAStar.open_set st -> e ∈ H) ->
    (forall k x, (k, x) ∈ H -> x <> c' -> heuristic s t < k) ->
    (c' ∉ map snd (RunAStar.open_set st) -> c' ∉ map snd H) ->
    forall f nv ne, afold c c' (RunAStar.mkState H (RunAStar.closed_set st)
      (<[y:=c]> (RunAStar.came_from st))
      (<[y:=heuristic s t - heuristic c t + 1]> (RunAStar.g_score st)) f nv ne)).
  { intros H Hsub HHo HHn f nv ne. constructor;
      cbn [RunAStar.open_set RunAStar.closed_set RunAStar.came_from RunAStar.g_score].
    - exact Hc.
    - rewrite lookup_insert_ne by congruence. exact Hgc.
    - rewrite lookup_insert_ne by congruence.
      destruct Hnext as [[Hn1 Hn2]|[Hn1 Hn2]]; [left; split; [exact Hn1 | apply HHn, Hn2]|].
      right. split; [exact Hn1 | apply Hsub, Hn2].
    - exact HHo.
    - exact Hcl.
    - intros x z Hx. destruct (decide (x = y)) as [->|Hxy].
      + right. right. exists c. split; assumption.
      + rewrite lookup_insert_ne in Hx by congruence. apply (Hdom x z Hx). }
  unfold RunAStar.improve. case_decide as Hnew.
  - apply Hgen.
    + intros e He. apply heappush_elem. right. exact He.
    + intros k x Hx Hxc. apply heappush_elem in Hx as [Hx|Hx].
      * injection Hx as -> ->. lia.
      * apply (Hoth k x Hx Hxc).
    + intros Hn. unfold heappush. rewrite map_app, elem_of_app. intros [H|H]; [contradiction|].
      simpl in H. apply list_elem_of_singleton in H. congruence.
  - apply Hgen; auto.
Qed.

Lemma afold_visit (c c' y : coord) (st : RunAStar.state) :
  on_line s t c -> c <> t -> c' = line_step c t ->
  afold c c' st -> In y (get_neighbors g c) ->
  afold c c' (RunAStar.visit_neighbor t c st y) /\
  ((RunAStar.g_score st !! c' = Some (heuristic s t - heuristic c' t) /\
    (heuristic s t, c') ∈ RunAStar.open_set st) \/ y = c' ->
   RunAStar.g_score (RunAStar.visit_neighbor t c st y) !! c' =
     Some (heuristic s t - heuristic c' t) /\
   (heuristic s t, c') ∈ RunAStar.open_set (RunAStar.visit_neighbor t c st y)).
Proof.
  intros Hon Hne Hc' Hi Hy.
  destruct (line_step_spec s t c Hon Hne) as (_ & Hh' & _). rewrite <- Hc' in Hh'.
  pose proof (af_g_c _ _ _ Hi) as Hgc.
  unfold RunAStar.visit_neighbor. case_decide as HyV.
  - split; [exact Hi|]. intros [H| ->]; [exact H|].
    exfalso. destruct (af_closed _ _ _ Hi c' HyV). lia.
  - unfold get_score. rewrite Hgc.
    destruct (decide (y = c')) as [->|Hyc'].
    + destruct (af_next _ _ _ Hi) as [[Hn1 Hn2]|[Hn1 Hn2]].
      * rewrite Hn1. unfold RunAStar.improve. rewrite decide_True by exact Hn2.
        assert (Hkey : heuristic s t - heuristic c t + 1 + heuristic c' t = heuristic s t)
          by lia.
        assert (Hgv : heuristic s t - heuristic c t + 1 = heuristic s t - heuristic c' t)
          by lia.
        split.
        -- destruct Hi as [Hc Hgc' Hnext Hoth Hcl Hdom]. constructor;
             cbn [RunAStar.open_set RunAStar.closed_set RunAStar.came_from
                  RunAStar.g_score].
           ++ exact Hc.
           ++ rewrite lookup_insert_ne by (intros ->; lia). exact Hgc.
           ++ right. rewrite lookup_insert_eq, Hgv. split; [reflexivity|].
              apply heappush_elem. left. simpl. f_equal. lia.
           ++ intros k x Hx Hxc. apply heappush_elem in Hx as [Hx|Hx].
              ** injection Hx as _ ->. contradiction.
              ** apply (Hoth k x Hx Hxc).
           ++ exact Hcl.
           ++ intros x z Hx. destruct (decide (x = c')) as [->|Hxc]; [left; reflexivity|].
              rewrite lookup_insert_ne in Hx by congruence. apply (Hdom x z Hx).
        -- intros _. cbn [RunAStar.open_set RunAStar.g_score].
           rewrite lookup_insert_eq, Hgv. split; [reflexivity|].
           apply heappush_elem. left. simpl. f_equal. lia.
      * rewrite Hn1.
        replace (heuristic s t - heuristic c t + 1 <? heuristic s t - heuristic c' t)
          with false by (symmetry; apply Z.ltb_ge; lia).
        split; [constructor; try apply Hi; right; split; assumption|].
        intros _. split; assumption.
    + assert (Hhy : heuristic y t = heuristic c t + 1).
      { destruct (line_neighbor s t c y Hon Hne (in_neighbors_adjacent g c y Hy))
          as [H|H]; [congruence | exact H]. }
      assert (Himp := afold_improve_other c c' y st Hi Hy HyV Hyc' Hhy).
      assert (Hkeep : forall st', afold c c' st' ->
                RunAStar.g_score st' !! c' = RunAStar.g_score st !! c' ->
                (forall e, e ∈ RunAStar.open_set st -> e ∈ RunAStar.open_set st') ->
                afold c c' st' /\
                ((RunAStar.g_score st !! c' = Some (heuristic s t - heuristic c' t) /\
                  (heuristic s t, c') ∈ RunAStar.open_set st) \/ y = c' ->
                 RunAStar.g_score st' !! c' = Some (heuristic s t - heuristic c' t) /\
                 (heuristic s t, c') ∈ RunAStar.open_set st')).
      { intros st' Hi' Hg' Hsub. split; [exact Hi'|].
        intros [[H1 H2]|H]; [|congruence]. rewrite Hg'. split; [exact H1 | apply Hsub, H2]. }
      assert (Himp' : afold c c' (RunAStar.improve t c y (heuristic s t - heuristic c t + 1) st) /\
                ((RunAStar.g_score st !! c' = Some (heuristic s t - heuristic c' t) /\
                  (heuristic s t, c') ∈ RunAStar.open_set st) \/ y = c' ->
                 RunAStar.g_score (RunAStar.improve t c y (heuristic s t - heuristic c t + 1) st)
                   !! c' = Some (heuristic s t - heuristic c' t) /\
                 (heuristic s t, c') ∈
                   RunAStar.open_set (RunAStar.improve t c y (heuristic s t - heuristic c t + 1) st))).
      { apply Hkeep; [exact Himp| |].
        - unfold RunAStar.improve. case_decide; simpl; apply lookup_insert_ne; congruence.
        - intros e He. unfold RunAStar.improve. case_decide; simpl; [|exact He].
          apply heappush_elem. right. exact He. }
      destruct (RunAStar.g_score st !! y) as [gy|].
      * destruct (_ <? gy); [exact Himp'|]. apply Hkeep; auto.
      * exact Himp'.
Qed.

Lemma afold_fold (c c' : coord) (l : list coord) (st : RunAStar.state) :
  on_line s t c -> c <> t -> c' = line_step c t ->
  afold c c' st -> (forall y, In y l -> In y (get_neighbors g c)) ->
  afold c c' (fold_left (RunAStar.visit_neighbor t c) l st) /\
  ((RunAStar.g_score st !! c' = Some (heuristic s t - heuristic c' t) /\
    (heuristic s t, c') ∈ RunAStar.open_set st) \/ In c' l ->
   RunAStar.g_score (fold_left (RunAStar.visit_neighbor t c) l st) !! c' =
     Some (heuristic s t - heuristic c' t) /\
   (heuristic s t, c') ∈ RunAStar.open_set (fold_left (RunAStar.visit_neighbor t c) l st)).
Proof.
  intros Hon Hne Hc'. revert st. induction l as [|y l IH]; intros st Hi Hl.
  - simpl. split; [exact Hi|]. intros [H|[]]. exact H.
  - cbn [fold_left].
    destruct (afold_visit c c' y st Hon Hne Hc' Hi (Hl y (or_introl eq_refl))) as [Hi' Hv].
    destruct (IH _ Hi' (fun y' Hy' => Hl y' (or_intror Hy'))) as [Hi'' Hv'].
    split; [exact Hi''|]. intros H. apply Hv'.
    destruct H as [H|[-> | H]]; [left; apply Hv; left; exact H | left; apply Hv; right;
      reflexivity | right; exact H].
Qed.

(** With the invariants, [heappop] returns the entry of [c]. *)
Lemma aline_pop (c : coord) (st : RunAStar.state) (k : Z) (x : coord) (rest : list entry) :
  aline c st -> heappop (RunAStar.open_set st) = Some ((k, x), rest) -> x = c.
Proof.
  intros Hl Ep. destruct (heappop_spec _ _ _ Ep) as [Hp Hmin].
  destruct (decide (x = c)) as [|Hxc]; [assumption|]. exfalso.
  assert (Hx : (k, x) ∈ RunAStar.open_set st) by (rewrite Hp; left).
  pose proof (al_others _ _ Hl k x Hx Hxc).
  destruct (al_key _ _ Hl) as (kc & Hkc & Hle).
  apply (Hmin _ Hkc). unfold entry_lt. simpl. lia.
Qed.

Lemma aline_step (c : coord) (st st' : RunAStar.state) :
  astar_inv g s t st -> aline c st -> RunAStar.step g t st = Continue st' ->
  aline (line_step c t) st'.
Proof.
  intros Hi Hl Hstep. unfold RunAStar.step in Hstep.
  destruct (heappop (RunAStar.open_set st)) as [[[k x] rest]|] eqn:Ep; [|discriminate].
  pose proof (aline_pop c st k x rest Hl Ep) as ->.
  destruct (astar_pop g s t st k c rest Hi Ep) as (Hel & _ & _ & Hcr & _ & HcV & _).
  destruct (decide (c = t)) as [Hct|Hct]; [discriminate|].
  injection Hstep as <-. unfold RunAStar.expand.
  pose proof (al_on _ _ Hl) as Hon.
  destruct (line_step_spec s t c Hon Hct) as (Hon' & Hh' & Hadj).
  set (c' := line_step c t) in *.
  assert (Hf1 : afold c c' (RunAStar.mkState rest ({[c]} ∪ RunAStar.closed_set st)
     (RunAStar.came_from st) (RunAStar.g_score st) (RunAStar.f_score st)
     (S (RunAStar.n_visited st)) (RunAStar.n_explored st))).
  { destruct Hl as [_ Hgc Hkey Hoth Hcl Hdom]. constructor;
      cbn [RunAStar.open_set RunAStar.closed_set RunAStar.came_from RunAStar.g_score].
    - set_solver.
    - exact Hgc.
    - left. split.
      + destruct (RunAStar.g_score st !! c') as [z|] eqn:Ez; [|reflexivity]. exfalso.
        destruct (Hdom c' z Ez) as [H|[H|(y & Hy & Hn)]].
        * rewrite H in Hh'. lia.
        * destruct (Hcl c' H). lia.
        * destruct (Hcl y Hy) as [_ Hlt]. apply in_neighbors_adjacent in Hn.
          pose proof (heuristic_adjacent y c' t Hn). lia.
      + intros H. apply elem_of_map_snd in H as [k' Hk'].
        destruct (ai_heap _ _ _ _ Hi k' c') as [_ [z Hz]]; [apply Hel; right; exact Hk'|].
        destruct (Hdom c' z Hz) as [H|[H|(y & Hy & Hn)]].
        * rewrite H in Hh'. lia.
        * destruct (Hcl c' H). lia.
        * destruct (Hcl y Hy) as [_ Hlt]. apply in_neighbors_adjacent in Hn.
          pose proof (heuristic_adjacent y c' t Hn). lia.
    - intros k' x Hx Hxc'. assert (Hxc : x <> c).
      { intros ->. apply Hcr. apply elem_of_map_snd. exists k'. exact Hx. }
      apply (Hoth k' x); [apply Hel; right; exact Hx | exact Hxc].
    - intros x Hx. apply elem_of_union in Hx as [Hx|Hx].
      + apply elem_of_singleton in Hx. subst x. split; [exact Hon | lia].
      + destruct (Hcl x Hx). split; [assumption | lia].
    - intros x z Hx. destruct (Hdom x z Hx) as [->|[H|(y & Hy & Hn)]].
      + right. left. set_solver.
      + right. left. set_solver.
      + right. right. exists y. split; [set_solver | exact Hn]. }
  destruct (afold_fold c c' (get_neighbors g c) _ Hon Hct eq_refl Hf1 (fun y Hy => Hy))
    as [Hf Hnext].
  destruct (Hnext (or_intror (line_step_neighbor g s t c line_free Hon Hct))) as [Hg' Hk'].
  destruct Hf as [_ _ _ Hoth Hcl Hdom]. constructor.
  - exact Hon'.
  - exact Hg'.
  - exists (heuristic s t). split; [exact Hk' | lia].
  - exact Hoth.
  - exact Hcl.
  - exact Hdom.
Qed.

Lemma astar_line_loop_stops :
  s.1 = t.1 \/ s.2 = t.2 ->
  exists st, (astar_inv g s t st /\ exists c, aline c st) /\
    RunAStar.step g t st = Stop (run_astar g s t).
Proof.
  intros Hst. unfold run_astar, RunAStar.loop.
  apply (while_loop_stops (RunAStar.step g t) RunAStar.out_of_fuel
           (fun st => astar_inv g s t st /\ exists c, aline c st) (astar_measure g s)).
  - intros st st' [Hi [c Hl]] Hs. split; [apply (astar_step_inv g s t st st' Hi Hs)|].
    exists (line_step c t). apply (aline_step c st st' Hi Hl Hs).
  - intros st st' [Hi _] Hs. apply (astar_step_inv g s t st st' Hi Hs).
  - split; [apply astar_init_inv | exists s; apply aline_init, Hst].
  - unfold astar_measure, RunAStar.init. simpl.
    rewrite (difference_empty_L (cells_of g s)). pose proof (search_fuel_bound g s). lia.
Qed.

(** Along a free segment, A* finds a walk of [heuristic s t + 1] cells. *)
Lemma astar_line_path :
  s.1 = t.1 \/ s.2 = t.2 ->
  exists p, result (run_astar g s t) = Found p /\ walk_from g s t p /\
    length p = S (Z.to_nat (heuristic s t)).
Proof.
  intros Hst. destruct (astar_line_loop_stops Hst) as (st & [Hi [c Hl]] & Hstop).
  destruct (astar_stop_result g s t st _ Hi Hstop)
    as [[_ Hnil]|(p & k & rest & z & Hr & Ep & Hz & Hw & Hlen)].
  - exfalso. destruct (al_key _ _ Hl) as (kc & Hkc & _). rewrite Hnil in Hkc. inversion Hkc.
  - exists p. split; [exact Hr|]. split; [exact Hw|].
    pose proof (aline_pop c st k t rest Hl Ep) as <-.
    rewrite (al_g _ _ Hl) in Hz. injection Hz as <-.
    pose proof (walk_length_manhattan g s t p Hw).
    assert (Ht : heuristic t t = 0) by (unfold heuristic; lia).
    assert (Hs : 0 <= heuristic s t) by (unfold heuristic; lia).
    rewrite Ht, Z.sub_0_r in Hlen. apply Nat2Z.inj_le in Hlen.
    rewrite Nat2Z.inj_add, Z2Nat.id in Hlen by exact Hs.
    apply Nat2Z.inj. rewrite Nat2Z.inj_succ, Z2Nat.id by exact Hs. lia.
Qed.

End AStarLine.

(** The segment from [s] to [t] is free when both ends are in the grid and
    no cell of it is an obstacle. *)
Lemma line_free_of (g : Grid) (s t : coord) :
  in_bounds g s = true -> in_bounds g t = true ->
  (forall c, on_line s t c -> is_obstacle g c = false) ->
  forall c, on_line s t c -> free_cell g c.
Proof.
  intros Hs Ht Hob c Hc. split; [apply (line_in_bounds g s t c Hs Ht Hc) | apply Hob, Hc].
Qed.

Lemma line_path_exists (g : Grid) (s t : coord) :
  (s.1 = t.1 \/ s.2 = t.2) -> (forall c, on_line s t c -> free_cell g c) ->
  exists q, valid_path g s t q /\ length q = S (Z.to_nat (heuristic s t)).
Proof.
  intros Hst Hfree.
  assert (Hs : 0 <= heuristic s t) by (unfold heuristic; lia).
  exists (line_walk (Z.to_nat (heuristic s t)) s t).
  apply (line_walk_valid g s t _ Hfree s (on_line_start s t Hst)). rewrite Z2Nat.id; lia.
Qed.

(** A walk from [s] to [t] no longer than a walk of [heuristic s t + 1]
    cells has exactly that length. *)
Lemma manhattan_tight (g : Grid) (s t : coord) (p q : list coord) :
  walk_from g s t p -> length q = S (Z.to_nat (heuristic s t)) ->
  (length p <= length q)%nat -> length p = S (Z.to_nat (heuristic s t)).
Proof.
  intros Hw Hq Hle. pose proof (walk_length_manhattan g s t p Hw) as Hlo.
  assert (Hs : 0 <= heuristic s t) by (unfold heuristic; lia).
  apply Nat2Z.inj_le in Hle. rewrite Hq, Nat2Z.inj_succ, Z2Nat.id in Hle by exact Hs.
  apply Nat2Z.inj. rewrite Nat2Z.inj_succ, Z2Nat.id by exact Hs. lia.
Qed.

(** C2: when start and goal lie in the grid on a common row or column and
    no cell of the straight segment between them is an obstacle, BFS, UCS
    and A* each return a valid path whose number of cells is the Manhattan
    distance between start and goal plus 1. *)
Theorem straight_line_paths (g : Grid) (s t : coord) :
  in_bounds g s = true -> in_bounds g t = true -> (s.1 = t.1 \/ s.2 = t.2) ->
  (forall c, on_line s t c -> is_obstacle g c = false) ->
  exists pb pu pa,
    result (run_bfs g s t) = Found pb /\ result (run_ucs g s t) = Found pu /\
    result (run_astar g s t) = Found pa /\
    valid_path g s t pb /\ valid_path g s t pu /\ valid_path g s t pa /\
    length pb = S (Z.to_nat (heuristic s t)) /\
    length pu = S (Z.to_nat (heuristic s t)) /\
    length pa = S (Z.to_nat (heuristic s t)).
Proof.
  intros Hs Ht Hst Hob.
  pose proof (line_free_of g s t Hs Ht Hob) as Hfree.
  assert (Hsf : free_cell g s) by (apply Hfree, on_line_start, Hst).
  destruct (line_path_exists g s t Hst Hfree) as (q & Hq & Hlq).
  destruct (bfs_finds_shortest g s t q Hq) as (pb & Hb & Hvb & Hminb).
  destruct (ucs_outcome g s t) as [[_ Hnone]|(pu & Hu & Hwu & Hminu)].
  { exfalso. apply (Hnone q), valid_path_walk, Hq. }
  destruct (astar_line_path g s t Hfree Hst) as (pa & Ha & Hwa & Hla).
  exists pb, pu, pa.
  split; [exact Hb|]. split; [exact Hu|]. split; [exact Ha|].
  split; [exact Hvb|]. split; [apply walk_from_valid; assumption|].
  split; [apply walk_from_valid; assumption|].
  split; [apply (manhattan_tight g s t pb q (valid_path_walk g s t pb Hvb) Hlq (Hminb q Hq))|].
  split; [apply (manhattan_tight g s t pu q Hwu Hlq (Hminu q (valid_path_walk g s t q Hq)))|].
  exact Hla.
Qed.

Lemma straight_line_paths_witness :
  in_bounds open_floor_2x3 (0, 2) = true /\ in_bounds open_floor_2x3 (0, 0) = true /\
  ((0, 2).1 = (0, 0).1 \/ (0, 2).2 = (0, 0).2) /\
  (forall c, on_line (0, 2) (0, 0) c -> is_obstacle open_floor_2x3 c = false) /\
  exists pb pu pa,
    result (run_bfs open_floor_2x3 (0, 2) (0, 0)) = Found pb /\
    result (run_ucs open_floor_2x3 (0, 2) (0, 0)) = Found pu /\
    result (run_astar open_floor_2x3 (0, 2) (0, 0)) = Found pa /\
    valid_path open_floor_2x3 (0, 2) (0, 0) pb /\ valid_path open_floor_2x3 (0, 2) (0, 0) pu /\
    valid_path open_floor_2x3 (0, 2) (0, 0) pa /\
    length pb = S (Z.to_nat (heuristic (0, 2) (0, 0))) /\
    length pu = S (Z.to_nat (heuristic (0, 2) (0, 0))) /\
    length pa = S (Z.to_nat (heuristic (0, 2) (0, 0))).
Proof.
  assert (Hob : forall c, on_line (0, 2) (0, 0) c -> is_obstacle open_floor_2x3 c = false).
  { intros [r k] [(H1 & _ & H3)|(H1 & H2 & _)]; simpl in *; [|lia].
    subst r. assert (k = 0 \/ k = 1 \/ k = 2) as [-> | [-> | ->]] by lia; reflexivity. }
  split; [reflexivity|]. split; [reflexivity|]. split; [left; reflexivity|].
  split; [exact Hob|].
  apply (straight_line_paths open_floor_2x3 (0, 2) (0, 0));
    [reflexivity | reflexivity | left; reflexivity | exact Hob].
Defined.

(** ** Completeness of A*

    Every coordinate with a [g_score] is closed or on the open list, and
    every neighbour of a closed coordinate has a [g_score]: when the open
    list runs empty, the closed coordinates are closed under
    [get_neighbors]. *)

Section AStarClosure.
Context (g : Grid) (s goal : coord).

Record astar_closure (st : RunAStar.state) : Prop := {
  ac_start : exists z, RunAStar.g_score st !! s = Some z;
  ac_open : forall x z, RunAStar.g_score st !! x = Some z ->
    x ∈ RunAStar.closed_set st \/ x ∈ map snd (RunAStar.open_set st);
  ac_closed_g : forall x, x ∈ RunAStar.closed_set st ->
    exists z, RunAStar.g_score st !! x = Some z;
  ac_expanded : forall c y, c ∈ RunAStar.closed_set st -> In y (get_neighbors g c) ->
    exists z, RunAStar.g_score st !! y = Some z
}.

Lemma astar_closure_init : astar_closure (RunAStar.init s goal).
Proof.
  unfold RunAStar.init. constructor; simpl.
  - exists 0. apply lookup_singleton_eq.
  - intros x z H. apply lookup_singleton_Some in H as [-> _]. right. left.
  - intros x Hx. set_solver.
  - intros c y Hc. set_solver.
Qed.

Lemma improve_closure_facts (c y : coord) (z : Z) (st : RunAStar.state) :
  RunAStar.closed_set (RunAStar.improve goal c y z st) = RunAStar.closed_set st /\
  RunAStar.g_score (RunAStar.improve goal c y z st) = <[y:=z]> (RunAStar.g_score st) /\
  (forall e, e ∈ RunAStar.open_set st -> e ∈ RunAStar.open_set (RunAStar.improve goal c y z st)) /\
  y ∈ map snd (RunAStar.open_set (RunAStar.improve goal c y z st)).
Proof.
  unfold RunAStar.improve. case_decide as Hnew; simpl.
  - split; [reflexivity|]. split; [reflexivity|]. split.
    + intros e He. apply heappush_elem. right. exact He.
    + apply elem_of_map_snd. exists (z + heuristic y goal). apply heappush_elem. left.
      reflexivity.
  - split; [reflexivity|]. split; [reflexivity|]. split; [auto|].
    destruct (decide (y ∈ map snd (RunAStar.open_set st))); [assumption | contradiction].
Qed.

Lemma visit_closure_facts (c y : coord) (st : RunAStar.state) :
  (forall x, x ∈ RunAStar.closed_set st -> exists z, RunAStar.g_score st !! x = Some z) ->
  (forall x z, RunAStar.g_score st !! x = Some z ->
     x ∈ RunAStar.closed_set st \/ x ∈ map snd (RunAStar.open_set st)) ->
  RunAStar.closed_set (RunAStar.visit_neighbor goal c st y) = RunAStar.closed_set st /\
  (forall x z, RunAStar.g_score st !! x = Some z ->
     exists z', RunAStar.g_score (RunAStar.visit_neighbor goal c st y) !! x = Some z') /\
  (forall x z, RunAStar.g_score (RunAStar.visit_neighbor goal c st y) !! x = Some z ->
     x ∈ RunAStar.closed_set (RunAStar.visit_neighbor goal c st y) \/
     x ∈ map snd (RunAStar.open_set (RunAStar.visit_neighbor goal c st y))) /\
  exists z, RunAStar.g_score (RunAStar.visit_neighbor goal c st y) !! y = Some z.
Proof.
  intros Hcl Hop.
  assert (Himp : forall z, 
    RunAStar.closed_set (RunAStar.improve goal c y z st) = RunAStar.closed_set st /\
    (forall x z0, RunAStar.g_score st !! x = Some z0 ->
       exists z', RunAStar.g_score (RunAStar.improve goal c y z st) !! x = Some z') /\
    (forall x z0, RunAStar.g_score (RunAStar.improve goal c y z st) !! x = Some z0 ->
       x ∈ RunAStar.closed_set (RunAStar.improve goal c y z st) \/
       x ∈ map snd (RunAStar.open_set (RunAStar.improve goal c y z st))) /\
    exists z', RunAStar.g_score (RunAStar.improve goal c y z st) !! y = Some z').
  { intros z. destruct (improve_closure_facts c y z st) as (HV & Hg & Ho & Hy).
    rewrite HV, Hg. split; [reflexivity|]. split.
    - intros x z0 Hx. destruct (decide (x = y)) as [->|Hxy].
      + exists z. apply lookup_insert_eq.
      + exists z0. rewrite lookup_insert_ne by congruence. exact Hx.
    - split; [|exists z; apply lookup_insert_eq].
      intros x z0 Hx. destruct (decide (x = y)) as [->|Hxy]; [right; exact Hy|].
      rewrite lookup_insert_ne in Hx by congruence.
      destruct (Hop x z0 Hx) as [H|H]; [left; exact H|right].
      apply elem_of_map_snd in H as [k Hk]. apply elem_of_map_snd. exists k. apply Ho, Hk. }
  assert (Hsame : 
    RunAStar.closed_set st = RunAStar.closed_set st /\
    (forall x z, RunAStar.g_score st !! x = Some z ->
       exists z', RunAStar.g_score st !! x = Some z') /\
    (forall x z, RunAStar.g_score st !! x = Some z ->
       x ∈ RunAStar.closed_set st \/ x ∈ map snd (RunAStar.open_set st))).
  { split; [reflexivity|]. split; [eauto | exact Hop]. }
  unfold RunAStar.visit_neighbor. case_decide as HyV.
  - destruct Hsame as (H1 & H2 & H3). split; [exact H1|]. split; [exact H2|].
    split; [exact H3 | apply Hcl, HyV].
  - destruct (RunAStar.g_score st !! y) as [gy|] eqn:Egy.
    + destruct (_ <? gy); [apply Himp|].
      destruct Hsame as (H1 & H2 & H3). split; [exact H1|]. split; [exact H2|].
      split; [exact H3 | exists gy; exact Egy].
    + apply Himp.
Qed.

Lemma fold_closure_facts (c : coord) (l : list coord) (st : RunAStar.state) :
  (forall x, x ∈ RunAStar.closed_set st -> exists z, RunAStar.g_score st !! x = Some z) ->
  (forall x z, RunAStar.g_score st !! x = Some z ->
     x ∈ RunAStar.closed_set st \/ x ∈ map snd (RunAStar.open_set st)) ->
  RunAStar.closed_set (fold_left (RunAStar.visit_neighbor goal c) l st) =
    RunAStar.closed_set st /\
  (forall x z, RunAStar.g_score st !! x = Some z ->
     exists z', RunAStar.g_score (fold_left (RunAStar.visit_neighbor goal c) l st) !! x =
       Some z') /\
  (forall x z, RunAStar.g_score (fold_left (RunAStar.visit_neighbor goal c) l st) !! x =
       Some z ->
     x ∈ RunAStar.closed_set (fold_left (RunAStar.visit_neighbor goal c) l st) \/
     x ∈ map snd (RunAStar.open_set (fold_left (RunAStar.visit_neighbor goal c) l st))) /\
  (forall y, In y l ->
     exists z, RunAStar.g_score (fold_left (RunAStar.visit_neighbor goal c) l st) !! y =
       Some z).
Proof.
  revert st. induction l as [|y l IH]; intros st Hcl Hop.
  - simpl. split; [reflexivity|]. split; [eauto|]. split; [exact Hop | intros y []].
  - cbn [fold_left].
    destruct (visit_closure_facts c y st Hcl Hop) as (HV & Hg & Ho & Hy).
    assert (Hcl' : forall x, x ∈ RunAStar.closed_set (RunAStar.visit_neighbor goal c st y) ->
              exists z, RunAStar.g_score (RunAStar.visit_neighbor goal c st y) !! x = Some z).
    { intros x Hx. rewrite HV in Hx. destruct (Hcl x Hx) as [z Hz]. apply (Hg x z Hz). }
    destruct (IH _ Hcl' Ho) as (HV' & Hg' & Ho' & Hl').
    split; [rewrite HV'; exact HV|]. split.
    + intros x z Hx. destruct (Hg x z Hx) as [z' Hz']. apply (Hg' x z' Hz').
    + split; [exact Ho'|]. intros y' [<-|Hy'].
      * destruct Hy as [z Hz]. apply (Hg' y z Hz).
      * apply Hl', Hy'.
Qed.

Lemma astar_closure_step (st st' : RunAStar.state) :
  astar_inv g s goal st -> astar_closure st -> RunAStar.step g goal st = Continue st' ->
  astar_closure st'.
Proof.
  intros Hi Hc Hstep. unfold RunAStar.step in Hstep.
  destruct (heappop (RunAStar.open_set st)) as [[[k c] rest]|] eqn:Ep; [|discriminate].
  destruct (astar_pop g s goal st k c rest Hi Ep) as (Hel & _ & _ & Hcr & _ & HcV & gc & Hgc).
  destruct (decide (c = goal)) as [Hcg|Hcg]; [discriminate|].
  injection Hstep as <-. unfold RunAStar.expand.
  set (st1 := RunAStar.mkState rest ({[c]} ∪ RunAStar.closed_set st)
     (RunAStar.came_from st) (RunAStar.g_score st) (RunAStar.f_score st)
     (S (RunAStar.n_visited st)) (RunAStar.n_explored st)).
  assert (Hcl1 : forall x, x ∈ RunAStar.closed_set st1 ->
            exists z, RunAStar.g_score st1 !! x = Some z).
  { intros x Hx. simpl in *. apply elem_of_union in Hx as [Hx|Hx].
    - apply elem_of_singleton in Hx. subst x. exists gc. exact Hgc.
    - apply (ac_closed_g _ Hc x Hx). }
  assert (Hop1 : forall x z, RunAStar.g_score st1 !! x = Some z ->
            x ∈ RunAStar.closed_set st1 \/ x ∈ map snd (RunAStar.open_set st1)).
  { intros x z Hx. simpl in *. destruct (ac_open _ Hc x z Hx) as [H|H]; [left; set_solver|].
    destruct (decide (x = c)) as [->|Hxc]; [left; set_solver|]. right.
    apply elem_of_map_snd in H as [k' Hk']. apply elem_of_map_snd. exists k'.
    apply Hel in Hk' as [Hk'|Hk']; [congruence | exact Hk']. }
  destruct (fold_closure_facts c (get_neighbors g c) st1 Hcl1 Hop1) as (HV & Hg & Ho & Hl).
  constructor.
  - destruct (ac_start _ Hc) as [z Hz]. apply (Hg s z Hz).
  - exact Ho.
  - intros x Hx. rewrite HV in Hx. destruct (Hcl1 x Hx) as [z Hz]. apply (Hg x z Hz).
  - intros c' y Hc' Hy. rewrite HV in Hc'. simpl in Hc'. apply elem_of_union in Hc' as [H|H].
    + apply elem_of_singleton in H. subst c'. apply Hl, Hy.
    + destruct (ac_expanded _ Hc c' y H Hy) as [z Hz]. apply (Hg y z Hz).
Qed.

Lemma astar_closure_loop_stops :
  exists st, (astar_inv g s goal st /\ astar_closure st) /\
    RunAStar.step g goal st = Stop (run_astar g s goal).
Proof.
  unfold run_astar, RunAStar.loop.
  apply (while_loop_stops (RunAStar.step g goal) RunAStar.out_of_fuel
           (fun st => astar_inv g s goal st /\ astar_closure st) (astar_measure g s)).
  - intros st st' [Hi Hc] Hs. split; [apply (astar_step_inv g s goal st st' Hi Hs)|].
    apply (astar_closure_step st st' Hi Hc Hs).
  - intros st st' [Hi _] Hs. apply (astar_step_inv g s goal st st' Hi Hs).
  - split; [apply astar_init_inv | apply astar_closure_init].
  - unfold astar_measure, RunAStar.init. simpl.
    rewrite (difference_empty_L (cells_of g s)). pose proof (search_fuel_bound g s). lia.
Qed.

End AStarClosure.

(** A set closed under [get_neighbors] holds every cell a walk from one of
    its members reaches. *)
Lemma walk_stays_in (g : Grid) (C : coord -> Prop) (s t : coord) (w : list coord) :
  (forall a b, C a -> In b (get_neighbors g a) -> C b) -> C s -> walk_from g s t w -> C t.
Proof.
  intros Hcl Hs (Hh & Hl & Hw). revert s Hs Hh. induction w as [|x w IH]; intros s Hs Hh;
    [discriminate|].
  simpl in Hh. injection Hh as ->. destruct w as [|y w].
  - simpl in Hl. injection Hl as <-. exact Hs.
  - destruct Hw as [Hxy Hw]. apply (IH Hl Hw y); [apply (Hcl s y Hs Hxy) | reflexivity].
Qed.

Lemma astar_none_unreachable (g : Grid) (s t : coord) :
  result (run_astar g s t) = NoPathFound -> forall w, ~ walk_from g s t w.
Proof.
  intros Hr w Hw. destruct (astar_closure_loop_stops g s t) as (st & [Hi Hc] & Hstop).
  destruct (astar_stop_result g s t st _ Hi Hstop)
    as [[_ Hnil]|(p & _ & _ & _ & Hr' & _)]; [|congruence].
  apply (ai_goal _ _ _ _ Hi).
  apply (walk_stays_in g (fun x => x ∈ RunAStar.closed_set st) s t w); [| |exact Hw].
  - intros a b Ha Hb. destruct (ac_expanded _ _ _ Hc a b Ha Hb) as [z Hz].
    destruct (ac_open _ _ _ Hc b z Hz) as [H|H]; [exact H|].
    rewrite Hnil in H. inversion H.
  - destruct (ac_start _ _ _ Hc) as [z Hz].
    destruct (ac_open _ _ _ Hc s z Hz) as [H|H]; [exact H|].
    rewrite Hnil in H. inversion H.
Qed.

(** * Further properties of the code *)

(** ** The search loops beyond the shortest-path claims *)

(** [run_dfs] from a free start cell: any path it returns is a valid path
    to the goal, and it reports no path exactly when no valid path exists. *)
Theorem dfs_sound_complete (g : Grid) (s t : coord) :
  free_cell g s ->
  (forall p, result (run_dfs g s t) = Found p -> valid_path g s t p) /\
  (result (run_dfs g s t) = NoPathFound <-> ~ exists q, valid_path g s t q).
Proof.
  intros Hs. destruct (dfs_outcome g s t) as [[Hr Hnone]|(p & Hr & Hw)]; rewrite Hr.
  - split; [discriminate|]. split; [|reflexivity].
    intros _ (q & Hq). apply (Hnone q), valid_path_walk, Hq.
  - split.
    + intros p' Hp'. injection Hp' as <-. apply walk_from_valid; assumption.
    + split; [discriminate|]. intros H. exfalso. apply H. exists p.
      apply walk_from_valid; assumption.
Qed.

(** [run_ucs] from a free start cell: it reports no path exactly when no
    valid path exists, and otherwise returns a valid path with no more
    cells than any valid path. *)
Theorem ucs_sound_complete_shortest (g : Grid) (s t : coord) :
  free_cell g s ->
  (result (run_ucs g s t) = NoPathFound <-> ~ exists q, valid_path g s t q) /\
  (forall p, result (run_ucs g s t) = Found p ->
     valid_path g s t p /\ forall q, valid_path g s t q -> (length p <= length q)%nat).
Proof.
  intros Hs. destruct (ucs_outcome g s t) as [[Hr Hnone]|(p & Hr & Hw & Hmin)]; rewrite Hr.
  - split; [|discriminate]. split; [|reflexivity].
    intros _ (q & Hq). apply (Hnone q), valid_path_walk, Hq.
  - split.
    + split; [discriminate|]. intros H. exfalso. apply H. exists p.
      apply walk_from_valid; assumption.
    + intros p' Hp'. injection Hp' as <-. split; [apply walk_from_valid; assumption|].
      intros q Hq. apply Hmin, valid_path_walk, Hq.
Qed.

(** [run_astar] from a free start cell: any path it returns is a valid
    path to the goal, and it reports no path exactly when no valid path
    exists. *)
Theorem astar_sound_complete (g : Grid) (s t : coord) :
  free_cell g s ->
  (forall p, result (run_astar g s t) = Found p -> valid_path g s t p) /\
  (result (run_astar g s t) = NoPathFound <-> ~ exists q, valid_path g s t q).
Proof.
  intros Hs. destruct (astar_outcome g s t) as [Hr|(p & Hr & Hw)].
  - rewrite Hr. split; [discriminate|]. split; [|reflexivity].
    intros _ (q & Hq). apply (astar_none_unreachable g s t Hr q), valid_path_walk, Hq.
  - rewrite Hr. split.
    + intros p' Hp'. injection Hp' as <-. apply walk_from_valid; assumption.
    + split; [discriminate|]. intros H. exfalso. apply H. exists p.
      apply walk_from_valid; assumption.
Qed.

Lemma dfs_sound_complete_witness :
  free_cell walled_corner_grid (2, 3) /\
  (forall p, result (run_dfs walled_corner_grid (2, 3) (0, 0)) = Found p ->
     valid_path walled_corner_grid (2, 3) (0, 0) p) /\
  (result (run_dfs walled_corner_grid (2, 3) (0, 0)) = NoPathFound <->
   ~ exists q, valid_path walled_corner_grid (2, 3) (0, 0) q).
Proof.
  assert (Hs : free_cell walled_corner_grid (2, 3)) by (split; reflexivity).
  split; [exact Hs | apply (dfs_sound_complete walled_corner_grid (2, 3) (0, 0) Hs)].
Defined.

Lemma ucs_sound_complete_shortest_witness :
  free_cell open_floor_2x3 (0, 2) /\
  (result (run_ucs open_floor_2x3 (0, 2) (1, 0)) = NoPathFound <->
   ~ exists q, valid_path open_floor_2x3 (0, 2) (1, 0) q) /\
  (forall p, result (run_ucs open_floor_2x3 (0, 2) (1, 0)) = Found p ->
     valid_path open_floor_2x3 (0, 2) (1, 0) p /\
     forall q, valid_path open_floor_2x3 (0, 2) (1, 0) q -> (length p <= length q)%nat).
Proof.
  assert (Hs : free_cell open_floor_2x3 (0, 2)) by (split; reflexivity).
  split; [exact Hs | apply (ucs_sound_complete_shortest open_floor_2x3 (0, 2) (1, 0) Hs)].
Defined.

Lemma astar_sound_complete_witness :
  free_cell walled_corner_grid (2, 3) /\
  (forall p, result (run_astar walled_corner_grid (2, 3) (0, 0)) = Found p ->
     valid_path walled_corner_grid (2, 3) (0, 0) p) /\
  (result (run_astar walled_corner_grid (2, 3) (0, 0)) = NoPathFound <->
   ~ exists q, valid_path walled_corner_grid (2, 3) (0, 0) q).
Proof.
  assert (Hs : free_cell walled_corner_grid (2, 3)) by (split; reflexivity).
  split; [exact Hs | apply (astar_sound_complete walled_corner_grid (2, 3) (0, 0) Hs)].
Defined.

(** ** Cells of a well-formed grid *)

Lemma nth_error_lookup {A} (l : list A) (i : nat) : nth_error l i = l !! i.
Proof. revert i. induction l as [|x l IH]; intros [|i]; simpl; auto. Qed.

Lemma get_cell_wf (g : Grid) (r c : Z) :
  grid_wf g -> 0 <= r < rows g -> 0 <= c < cols g ->
  get_cell (grid g) r c = Some (cell_at g r c).
Proof.
  intros [HR HC] Hr Hc. unfold get_cell, py_list_get, cell_at.
  rewrite py_index_in_range by lia.
  destruct (lookup_lt_is_Some_2 (grid g) (Z.to_nat r)) as [row Hrow]; [lia|].
  rewrite nth_error_lookup, Hrow. simpl.
  pose proof (Forall_lookup_1 _ _ _ _ HC Hrow) as Hlen. simpl in Hlen.
  rewrite py_index_in_range by lia.
  destruct (lookup_lt_is_Some_2 row (Z.to_nat c)) as [t Ht]; [lia|].
  rewrite nth_error_lookup, Ht. reflexivity.
Qed.

Lemma set_cell_wf (g : Grid) (r c : Z) (v : CellType) :
  grid_wf g -> 0 <= r < rows g -> 0 <= c < cols g ->
  exists cells, set_cell (grid g) r c v = Some cells /\ grid_wf (with_cells g cells) /\
    forall r' c', 0 <= r' < rows g -> 0 <= c' < cols g ->
      cell_at (with_cells g cells) r' c' =
        if decide ((r', c') = (r, c)) then v else cell_at g r' c'.
Proof.
  intros [HR HC] Hr Hc. unfold set_cell.
  rewrite py_index_in_range by lia.
  destruct (lookup_lt_is_Some_2 (grid g) (Z.to_nat r)) as [row Hrow]; [lia|].
  rewrite Hrow.
  pose proof (Forall_lookup_1 _ _ _ _ HC Hrow) as Hlen. simpl in Hlen.
  rewrite py_index_in_range by lia.
  eexists; split; [reflexivity|]. split.
  - split; simpl.
    + rewrite length_insert. exact HR.
    + apply Forall_insert; [exact HC|]. rewrite length_insert. exact Hlen.
  - intros r' c' Hr' Hc'. unfold cell_at. simpl. rewrite !nth_error_lookup.
    destruct (decide ((r', c') = (r, c))) as [Heq|Hne].
    + injection Heq as -> ->. rewrite list_lookup_insert_eq by lia.
      rewrite nth_error_lookup, list_lookup_insert_eq by lia. reflexivity.
    + destruct (decide (r' = r)) as [->|Hrr].
      * assert (Hcc : c' <> c) by congruence.
        rewrite list_lookup_insert_eq by lia. rewrite Hrow.
        rewrite !nth_error_lookup, list_lookup_insert_ne by lia. reflexivity.
      * rewrite list_lookup_insert_ne by lia. reflexivity.
Qed.

Lemma clear_path_wf (st : app) :
  grid_wf (app_grid st) ->
  (forall p, start_pos st = Some p -> in_bounds (app_grid st) p = true) ->
  (forall p, goal_pos st = Some p -> in_bounds (app_grid st) p = true) ->
  exists cells, clear_path st = inl cells /\ grid_wf (with_cells (app_grid st) cells) /\
    forall r c, 0 <= r < rows (app_grid st) -> 0 <= c < cols (app_grid st) ->
      cell_at (with_cells (app_grid st) cells) r c =
        if decide (goal_pos st = Some (r, c)) then GOAL
        else if decide (start_pos st = Some (r, c)) then START
        else clear_overlay (cell_at (app_grid st) r c).
Proof.
  intros Hwf Hs Hg. set (g := app_grid st) in *.
  set (g0 := with_cells g (map (map clear_overlay) (grid g))).
  assert (Hwf0 : grid_wf g0).
  { destruct Hwf as [HR HC]. split; simpl.
    - rewrite length_map. exact HR.
    - apply Forall_fmap. eapply Forall_impl; [exact HC|]. intros row H. simpl.
      rewrite length_map. exact H. }
  assert (Hc0 : forall r c, 0 <= r < rows g -> 0 <= c < cols g ->
            cell_at g0 r c = clear_overlay (cell_at g r c)).
  { intros r c Hr Hc. destruct Hwf as [HR HC]. unfold cell_at. simpl.
    rewrite !nth_error_lookup, list_lookup_fmap.
    destruct (lookup_lt_is_Some_2 (grid g) (Z.to_nat r)) as [row Hrow]; [lia|].
    rewrite Hrow. simpl.
    pose proof (Forall_lookup_1 _ _ _ _ HC Hrow) as Hlen. simpl in Hlen.
    rewrite !nth_error_lookup, list_lookup_fmap.
    destruct (lookup_lt_is_Some_2 row (Z.to_nat c)) as [t Ht]; [lia|].
    rewrite Ht. reflexivity. }
  rewrite (clear_path_loop_wf st Hwf). unfold restore_markers. fold g.
  destruct (start_pos st) as [[sr sc]|] eqn:Es.
  - destruct (in_bounds_true g (sr, sc) (Hs _ eq_refl)) as [Hsr Hsc]. simpl in Hsr, Hsc.
    destruct (set_cell_wf g0 sr sc START Hwf0 Hsr Hsc) as (c1 & Hc1 & Hwf1 & Hcell1).
    simpl in Hc1. rewrite Hc1.
    set (g1 := with_cells g0 c1) in *.
    destruct (goal_pos st) as [[gr gc]|] eqn:Eg.
    + destruct (in_bounds_true g (gr, gc) (Hg _ eq_refl)) as [Hgr Hgc]. simpl in Hgr, Hgc.
      destruct (set_cell_wf g1 gr gc GOAL Hwf1 Hgr Hgc) as (c2 & Hc2 & Hwf2 & Hcell2).
      simpl in Hc2. rewrite Hc2. eexists. split; [reflexivity|]. split; [exact Hwf2|].
      intros r c Hr Hc. etransitivity; [apply (Hcell2 r c Hr Hc)|].
      destruct (decide ((r, c) = (gr, gc))) as [Heq|Hne];
        [rewrite decide_True by congruence; reflexivity|].
      rewrite decide_False by congruence.
      rewrite (Hcell1 r c Hr Hc).
      destruct (decide ((r, c) = (sr, sc))) as [Heq'|Hne'];
        [rewrite decide_True by congruence; reflexivity|].
      rewrite decide_False by congruence. apply Hc0; assumption.
    + eexists. split; [reflexivity|]. split; [exact Hwf1|].
      intros r c Hr Hc. rewrite decide_False by congruence.
      etransitivity; [apply (Hcell1 r c Hr Hc)|].
      destruct (decide ((r, c) = (sr, sc))) as [Heq'|Hne'];
        [rewrite decide_True by congruence; reflexivity|].
      rewrite decide_False by congruence. apply Hc0; assumption.
  - destruct (goal_pos st) as [[gr gc]|] eqn:Eg.
    + destruct (in_bounds_true g (gr, gc) (Hg _ eq_refl)) as [Hgr Hgc]. simpl in Hgr, Hgc.
      destruct (set_cell_wf g0 gr gc GOAL Hwf0 Hgr Hgc) as (c2 & Hc2 & Hwf2 & Hcell2).
      simpl in Hc2. rewrite Hc2. eexists. split; [reflexivity|]. split; [exact Hwf2|].
      intros r c Hr Hc. etransitivity; [apply (Hcell2 r c Hr Hc)|].
      destruct (decide ((r, c) = (gr, gc))) as [Heq|Hne];
        [rewrite decide_True by congruence; reflexivity|].
      rewrite decide_False by congruence. rewrite decide_False by congruence.
      apply Hc0; assumption.
    + eexists. split; [reflexivity|]. split; [exact Hwf0|].
      intros r c Hr Hc. rewrite !decide_False by congruence. apply Hc0; assumption.
Qed.

Lemma in_grid_true (g : Grid) (r c : Z) :
  in_grid g r c = true <-> 0 <= r < rows g /\ 0 <= c < cols g.
Proof. unfold in_grid. rewrite !andb_true_iff, !Z.leb_le, !Z.ltb_lt. lia. Qed.

Lemma grid_ext (g1 g2 : Grid) :
  grid_wf g1 -> grid_wf g2 -> rows g1 = rows g2 -> cols g1 = cols g2 ->
  (forall r c, 0 <= r < rows g1 -> 0 <= c < cols g1 -> cell_at g1 r c = cell_at g2 r c) ->
  g1 = g2.
Proof.
  destruct g1 as [nr nc cells1], g2 as [nr' nc' cells2]. simpl.
  intros [HR1 HC1] [HR2 HC2] <- <- Hcell. simpl in *. f_equal.
  apply list_eq. intros i.
  destruct (decide (i < length cells1)%nat) as [Hi|Hi].
  - destruct (lookup_lt_is_Some_2 cells1 i Hi) as [row1 H1].
    destruct (lookup_lt_is_Some_2 cells2 i) as [row2 H2]; [lia|].
    rewrite H1, H2. f_equal.
    pose proof (Forall_lookup_1 _ _ _ _ HC1 H1) as L1.
    pose proof (Forall_lookup_1 _ _ _ _ HC2 H2) as L2. simpl in L1, L2.
    apply list_eq. intros j.
    destruct (decide (j < length row1)%nat) as [Hj|Hj].
    + specialize (Hcell (Z.of_nat i) (Z.of_nat j) ltac:(lia) ltac:(lia)).
      unfold cell_at in Hcell. simpl in Hcell.
      rewrite !Nat2Z.id, !nth_error_lookup, H1, H2, !nth_error_lookup in Hcell.
      destruct (lookup_lt_is_Some_2 row1 j Hj) as [t1 E1].
      destruct (lookup_lt_is_Some_2 row2 j) as [t2 E2]; [lia|].
      rewrite E1, E2 in *. congruence.
    + rewrite !lookup_ge_None_2 by lia. reflexivity.
  - rewrite !lookup_ge_None_2 by lia. reflexivity.
Qed.

Lemma length_py_range (n : Z) : length (py_range n) = Z.to_nat n.
Proof. unfold py_range. rewrite length_map, length_seq. reflexivity. Qed.

Lemma py_range_lookup (n : Z) (k : nat) :
  (k < Z.to_nat n)%nat -> py_range n !! k = Some (Z.of_nat k).
Proof.
  intros Hk. unfold py_range. rewrite list_lookup_fmap, lookup_seq_lt by exact Hk.
  reflexivity.
Qed.

Lemma in_py_range (n k : Z) : In k (py_range n) <-> 0 <= k < n.
Proof.
  unfold py_range. rewrite in_map_iff. split.
  - intros (m & <- & Hm). apply in_seq in Hm. lia.
  - intros Hk. exists (Z.to_nat k). split; [lia|]. apply in_seq. lia.
Qed.

Lemma write_cell_wf (st : app) (r c : Z) (v : CellType) :
  grid_wf (app_grid st) -> 0 <= r < rows (app_grid st) -> 0 <= c < cols (app_grid st) ->
  exists cells, write_cell st r c v = inl (set_app_cells st cells) /\
    grid_wf (with_cells (app_grid st) cells) /\
    forall r' c', 0 <= r' < rows (app_grid st) -> 0 <= c' < cols (app_grid st) ->
      cell_at (with_cells (app_grid st) cells) r' c' =
        if decide ((r', c') = (r, c)) then v else cell_at (app_grid st) r' c'.
Proof.
  intros Hwf Hr Hc. destruct (set_cell_wf _ r c v Hwf Hr Hc) as (cells & E & Hwf' & Hcell).
  exists cells. unfold write_cell. rewrite E. auto.
Qed.


(** [on_canvas_click], first two clicks: on a well-formed grid with neither
    position set and no run in progress, a click at pixel [(xp, yp)] sets
    the start to its cell and a click at [(xq, yq)] sets the goal to its
    cell; the goal's cell shows [GOAL], the start's cell [START] unless it
    is the same cell, and no other cell changes. Two clicks on the same
    cell make it both the start and the goal. *)
Theorem click_sets_start_then_goal (st : app) (xp yp xq yq : Z) :
  grid_wf (app_grid st) -> is_running st = false ->
  start_pos st = None -> goal_pos st = None ->
  in_grid (app_grid st) (yp / cell_size) (xp / cell_size) = true ->
  in_grid (app_grid st) (yq / cell_size) (xq / cell_size) = true ->
  exists st1 st2,
    on_canvas_click st xp yp = inl st1 /\ on_canvas_click st1 xq yq = inl st2 /\
    start_pos st2 = Some (yp / cell_size, xp / cell_size) /\
    goal_pos st2 = Some (yq / cell_size, xq / cell_size) /\
    is_running st2 = false /\
    rows (app_grid st2) = rows (app_grid st) /\ cols (app_grid st2) = cols (app_grid st) /\
    grid_wf (app_grid st2) /\
    forall r c, 0 <= r < rows (app_grid st) -> 0 <= c < cols (app_grid st) ->
      cell_at (app_grid st2) r c =
        if decide ((r, c) = (yq / cell_size, xq / cell_size)) then GOAL
        else if decide ((r, c) = (yp / cell_size, xp / cell_size)) then START
        else cell_at (app_grid st) r c.
Proof.
  intros Hwf Hrun Hs Hg Hp Hq.
  destruct st as [g sp gp run alg]. simpl in *. subst sp gp run.
  pose proof Hp as Hp'. apply in_grid_true in Hp' as [Hrp Hcp].
  pose proof Hq as Hq'. apply in_grid_true in Hq' as [Hrq Hcq].
  destruct (set_cell_wf g _ _ START Hwf Hrp Hcp) as (c1 & E1 & Hwf1 & H1).
  destruct (set_cell_wf (with_cells g c1) _ _ GOAL Hwf1 Hrq Hcq) as (c2 & E2 & Hwf2 & H2).
  exists (mkApp (with_cells g c1) (Some (yp / cell_size, xp / cell_size)) None false alg).
  exists (mkApp (with_cells g c2) (Some (yp / cell_size, xp / cell_size))
            (Some (yq / cell_size, xq / cell_size)) false alg).
  split; [|split].
  - unfold on_canvas_click. cbv zeta. cbn [is_running app_grid start_pos goal_pos].
    rewrite Hp. unfold write_cell. cbn [app_grid]. rewrite E1. reflexivity.
  - unfold on_canvas_click. cbv zeta. cbn [is_running app_grid start_pos goal_pos].
    change (in_grid (with_cells g c1)) with (in_grid g). rewrite Hq.
    unfold write_cell. cbn [app_grid grid with_cells]. simpl in E2. rewrite E2. reflexivity.
  - cbn [start_pos goal_pos is_running app_grid].
    do 5 (split; [reflexivity|]). split; [exact Hwf2|].
    intros r c Hr Hc. etransitivity; [apply H2; assumption|].
    destruct (decide _); [reflexivity|]. apply H1; assumption.
Qed.

Lemma click_sets_start_then_goal_witness :
  grid_wf open_floor_2x3 /\
  exists st1 st2,
    on_canvas_click (mkApp open_floor_2x3 None None false BFS) 45 5 = inl st1 /\
    on_canvas_click st1 5 25 = inl st2 /\
    start_pos st2 = Some (0, 2) /\ goal_pos st2 = Some (1, 0) /\
    cell_at (app_grid st2) 0 2 = START /\ cell_at (app_grid st2) 1 0 = GOAL.
Proof.
  assert (Hwf : grid_wf open_floor_2x3) by (split; [reflexivity | repeat constructor]).
  split; [exact Hwf|].
  destruct (click_sets_start_then_goal (mkApp open_floor_2x3 None None false BFS) 45 5 5 25
              Hwf eq_refl eq_refl eq_refl eq_refl eq_refl)
    as (st1 & st2 & H1 & H2 & H3 & H4 & _ & _ & _ & _ & H5).
  exists st1, st2. split; [exact H1|]. split; [exact H2|]. split; [exact H3|].
  split; [exact H4|].
  split; [rewrite H5 by (simpl; lia) | rewrite H5 by (simpl; lia)]; reflexivity.
Defined.





(** [on_canvas_drag]: on a well-formed grid, dragging over a pixel never
    raises and changes at most the cell under it, which becomes
    [OBSTACLE] only when no run is in progress and it was [EMPTY]; the
    positions and the running flag are kept. *)
Theorem drag_marks_only_empty_cell (st : app) (x y : Z) :
  grid_wf (app_grid st) ->
  exists st1,
    on_canvas_drag st x y = inl st1 /\
    start_pos st1 = start_pos st /\ goal_pos st1 = goal_pos st /\
    is_running st1 = is_running st /\
    rows (app_grid st1) = rows (app_grid st) /\ cols (app_grid st1) = cols (app_grid st) /\
    grid_wf (app_grid st1) /\
    forall r c, 0 <= r < rows (app_grid st) -> 0 <= c < cols (app_grid st) ->
      cell_at (app_grid st1) r c =
        if bool_decide (is_running st = false /\ (r, c) = (y / cell_size, x / cell_size) /\
                        cell_at (app_grid st) r c = EMPTY)
        then OBSTACLE else cell_at (app_grid st) r c.
Proof.
  intros Hwf.
  assert (Hkeep : (forall r c, 0 <= r < rows (app_grid st) -> 0 <= c < cols (app_grid st) ->
                    bool_decide (is_running st = false /\ (r, c) = (y / cell_size, x / cell_size) /\
                                 cell_at (app_grid st) r c = EMPTY) = false) ->
                  exists st1, inl st = inl st1 (B := app) /\
                    start_pos st1 = start_pos st /\ goal_pos st1 = goal_pos st /\
                    is_running st1 = is_running st /\
                    rows (app_grid st1) = rows (app_grid st) /\
                    cols (app_grid st1) = cols (app_grid st) /\ grid_wf (app_grid st1) /\
                    forall r c, 0 <= r < rows (app_grid st) -> 0 <= c < cols (app_grid st) ->
                      cell_at (app_grid st1) r c =
                        if bool_decide (is_running st = false /\
                                        (r, c) = (y / cell_size, x / cell_size) /\
                                        cell_at (app_grid st) r c = EMPTY)
                        then OBSTACLE else cell_at (app_grid st) r c).
  { intros Hno. exists st. do 7 (split; [reflexivity + exact Hwf|]).
    intros r c Hr Hc. rewrite Hno by assumption. reflexivity. }
  unfold on_canvas_drag. cbv zeta.
  destruct (is_running st) eqn:Hrun.
  { apply Hkeep. intros r c _ _. apply bool_decide_eq_false. intros [H _]. discriminate. }
  destruct (in_grid (app_grid st) (y / cell_size) (x / cell_size)) eqn:Hin.
  2:{ apply Hkeep. intros r c Hr Hc. apply bool_decide_eq_false. intros (_ & Heq & _).
      injection Heq as Er Ec. rewrite <- Er, <- Ec in Hin.
      assert (in_grid (app_grid st) r c = true) by (apply in_grid_true; lia). congruence. }
  pose proof Hin as Hin'. apply in_grid_true in Hin' as [Hr0 Hc0].
  rewrite (get_cell_wf _ _ _ Hwf Hr0 Hc0).
  destruct (cell_at (app_grid st) (y / cell_size) (x / cell_size)) eqn:Ecell;
    try (apply Hkeep; intros r c _ _; apply bool_decide_eq_false;
         intros (_ & Heq & He); injection Heq as -> ->; congruence).
  destruct (write_cell_wf st _ _ OBSTACLE Hwf Hr0 Hc0) as (cells & E & Hwf' & Hcell).
  exists (set_app_cells st cells). split; [exact E|].
  cbn [set_app_cells start_pos goal_pos is_running app_grid].
  do 5 (split; [reflexivity + exact Hrun|]). split; [exact Hwf'|].
  intros r c Hr Hc. rewrite Hcell by assumption.
  destruct (decide ((r, c) = (y / cell_size, x / cell_size))) as [Heq|Hne].
  - rewrite bool_decide_eq_true_2; [reflexivity|].
    injection Heq as -> ->. auto.
  - rewrite bool_decide_eq_false_2; [reflexivity|]. intros (_ & Heq & _). contradiction.
Qed.

Lemma drag_marks_only_empty_cell_witness :
  grid_wf walled_corner_grid /\
  exists st1,
    on_canvas_drag (mkApp walled_corner_grid (Some (2, 0)) (Some (0, 3)) false BFS) 45 30
      = inl st1 /\
    cell_at (app_grid st1) 1 2 = OBSTACLE /\ cell_at (app_grid st1) 1 1 = EMPTY.
Proof.
  assert (Hwf : grid_wf walled_corner_grid) by (split; [reflexivity | repeat constructor]).
  split; [exact Hwf|].
  destruct (drag_marks_only_empty_cell
              (mkApp walled_corner_grid (Some (2, 0)) (Some (0, 3)) false BFS) 45 30 Hwf)
    as (st1 & H1 & _ & _ & _ & _ & _ & _ & H2).
  exists st1. split; [exact H1|].
  split; rewrite H2 by (simpl; lia); reflexivity.
Defined.


(** [reset_grid]: for non-negative dimensions the new grid is a
    well-formed [rows] x [cols] grid of [EMPTY] cells with neither
    position set and no run in progress, so "Find Path" right after a
    reset only warns about the missing positions. *)
Theorem reset_grid_empty (st : app) :
  0 <= rows (app_grid st) -> 0 <= cols (app_grid st) ->
  grid_wf (app_grid (reset_grid st)) /\
  rows (app_grid (reset_grid st)) = rows (app_grid st) /\
  cols (app_grid (reset_grid st)) = cols (app_grid st) /\
  start_pos (reset_grid st) = None /\ goal_pos (reset_grid st) = None /\
  is_running (reset_grid st) = false /\
  (forall r c, 0 <= r < rows (app_grid st) -> 0 <= c < cols (app_grid st) ->
     cell_at (app_grid (reset_grid st)) r c = EMPTY) /\
  find_path (reset_grid st) = (MissingPositionsWarning, reset_grid st).
Proof.
  intros HR HC. unfold reset_grid. cbn [app_grid rows cols start_pos goal_pos is_running grid].
  split; [|split; [reflexivity|split; [reflexivity|]]].
  - split; cbn [rows cols grid].
    + rewrite length_map, length_py_range. lia.
    + apply Forall_forall. intros row Hrow. apply list_elem_of_fmap in Hrow as (i & -> & _).
      rewrite length_map, length_py_range. lia.
  - do 3 (split; [reflexivity|]). split; [|reflexivity].
    intros r c Hr Hc. unfold cell_at. cbn [grid].
    rewrite nth_error_lookup, list_lookup_fmap, py_range_lookup by lia. simpl.
    rewrite nth_error_lookup, list_lookup_fmap, py_range_lookup by lia. reflexivity.
Qed.

Lemma reset_grid_empty_witness :
  0 <= rows walled_corner_grid /\ 0 <= cols walled_corner_grid /\
  cell_at (app_grid (reset_grid (mkApp walled_corner_grid (Some (2, 0)) None false DFS))) 0 1
    = EMPTY.
Proof.
  assert (HR : 0 <= rows walled_corner_grid) by (simpl; lia).
  assert (HC : 0 <= cols walled_corner_grid) by (simpl; lia).
  split; [exact HR|]. split; [exact HC|].
  destruct (reset_grid_empty (mkApp walled_corner_grid (Some (2, 0)) None false DFS) HR HC)
    as (_ & _ & _ & _ & _ & _ & H & _).
  apply H; simpl; lia.
Defined.


(** ** Layout files *)

Lemma mapM_Some_map {A B} (f : A -> option B) (h : A -> B) (l : list A) :
  (forall x, In x l -> f x = Some (h x)) -> mapM f l = Some (map h l).
Proof.
  induction l as [|x l IH]; intros Hf; [reflexivity|]. simpl.
  rewrite (Hf x (or_introl eq_refl)). simpl.
  rewrite IH by (intros y Hy; apply Hf; right; exact Hy). reflexivity.
Qed.

Lemma cell_of_value_cell_value (t : CellType) : cell_of_value (cell_value t) = Some t.
Proof. destruct t; reflexivity. Qed.

Lemma grid_of_cells (g : Grid) :
  grid_wf g ->
  map (fun i => map (fun j => cell_at g i j) (py_range (cols g))) (py_range (rows g)) = grid g.
Proof.
  intros Hwf.
  set (g' := mkGrid (rows g) (cols g)
               (map (fun i => map (fun j => cell_at g i j) (py_range (cols g)))
                  (py_range (rows g)))).
  assert (HR : 0 <= rows g) by (destruct Hwf as [HR _]; lia).
  assert (Hcols : 0 <= cols g \/ grid g = []).
  { destruct Hwf as [HR' HC]. destruct (grid g) as [|row rs] eqn:E; [right; reflexivity|].
    left. inversion HC; subst. lia. }
  assert (Hwf' : grid_wf g').
  { split; cbn [rows cols grid g'].
    - rewrite length_map, length_py_range. lia.
    - apply Forall_forall. intros row Hrow. apply list_elem_of_fmap in Hrow as (i & -> & Hi).
      rewrite length_map, length_py_range. destruct Hcols as [Hc|Hnil]; [lia|].
      destruct Hwf as [HR' _]. rewrite Hnil in HR'. simpl in HR'.
      exfalso. apply list_elem_of_In, in_py_range in Hi. lia. }
  change (grid g' = grid g). f_equal.
  apply grid_ext; [exact Hwf'|exact Hwf|reflexivity|reflexivity|].
  intros r c Hr Hc. change (rows g') with (rows g) in Hr. change (cols g') with (cols g) in Hc.
  unfold cell_at at 1. cbn [grid g'].
  rewrite nth_error_lookup, list_lookup_fmap, py_range_lookup by lia. simpl.
  rewrite nth_error_lookup, list_lookup_fmap, py_range_lookup by lia. simpl.
  rewrite !Z2Nat.id by lia. reflexivity.
Qed.

Lemma read_row_ok (layout : json) (i : Z) (js : list Z) (f : Z -> CellType) :
  (forall j, In j js -> read_cell layout i j = Some (f j)) ->
  read_row layout i js = Some (map f js).
Proof.
  induction js as [|j js IH]; intros Hf; [reflexivity|]. simpl.
  rewrite (Hf j (or_introl eq_refl)). simpl.
  rewrite IH by (intros k Hk; apply Hf; right; exact Hk). reflexivity.
Qed.

Lemma read_rows_ok (layout : json) (nc : Z) (is : list Z) (acc : list (list CellType))
    (f : Z -> list CellType) :
  (forall i, In i is -> read_row layout i (py_range nc) = Some (f i)) ->
  read_rows layout nc is acc = (acc ++ map f is, true).
Proof.
  revert acc. induction is as [|i is IH]; intros acc Hf; simpl.
  - rewrite app_nil_r. reflexivity.
  - rewrite (Hf i (or_introl eq_refl)).
    rewrite IH by (intros k Hk; apply Hf; right; exact Hk).
    rewrite <- app_assoc. reflexivity.
Qed.

Lemma read_rows_fail_length (layout : json) (nc : Z) (is : list Z)
    (acc cells : list (list CellType)) :
  read_rows layout nc is acc = (cells, false) -> (length cells < length acc + length is)%nat.
Proof.
  revert acc. induction is as [|i is IH]; intros acc H; simpl in H.
  - discriminate.
  - destruct (read_row layout i (py_range nc)) as [row|].
    + apply IH in H. rewrite length_app in H. simpl. simpl in H. lia.
    + injection H as <-. simpl. lia.
Qed.

Lemma json_get_layout (a b c d e : json) :
  let l := JObj [("rows", a); ("cols", b); ("grid", c); ("start_pos", d); ("goal_pos", e)] in
  json_get l "rows" = Some a /\ json_get l "cols" = Some b /\ json_get l "grid" = Some c /\
  json_get l "start_pos" = Some d /\ json_get l "goal_pos" = Some e.
Proof. repeat split. Qed.

Lemma load_pos_json (p : option coord) :
  load_pos (pos_json p) = match p with Some q => PosSome q | None => PosNone end.
Proof. destruct p as [[r c]|]; reflexivity. Qed.

(** [save_layout] then [load_layout]: on a well-formed grid, saving never
    raises, and loading the value written succeeds in any state and gives
    back the grid (dimensions and every cell) and both positions, keeping
    the loading state's running flag and selected algorithm. *)
Theorem save_load_roundtrip (st st' : app) :
  grid_wf (app_grid st) ->
  exists j, save_layout st = Some j /\
    load_layout j st' =
      (LoadOk, mkApp (app_grid st) (start_pos st) (goal_pos st) (is_running st')
                 (algorithm_var st')).
Proof.
  intros Hwf.
  set (g := app_grid st) in *.
  set (data := map (fun i => map (fun j => JInt (cell_value (cell_at g i j))) (py_range (cols g)))
                 (py_range (rows g))).
  assert (Hsave : mapM (fun i => mapM (fun j => t ← get_cell (grid g) i j;
                                                 Some (JInt (cell_value t)))
                                      (py_range (cols g)))
                       (py_range (rows g)) = Some data).
  { apply mapM_Some_map. intros i Hi. apply in_py_range in Hi.
    apply mapM_Some_map. intros j Hj. apply in_py_range in Hj.
    rewrite get_cell_wf by assumption. reflexivity. }
  unfold save_layout. fold g. rewrite Hsave. cbn [mbind option_bind].
  eexists. split; [reflexivity|].
  destruct (json_get_layout (JInt (rows g)) (JInt (cols g)) (JList (map JList data))
              (pos_json (start_pos st)) (pos_json (goal_pos st)))
    as (Hr & Hc & Hgr & Hs & Hg).
  unfold load_layout. rewrite Hr. cbn [json_int]. rewrite Hc. cbn [json_int].
  rewrite (read_rows_ok _ _ _ [] (fun i => map (fun j => cell_at g i j) (py_range (cols g)))).
  2:{ intros i Hi. apply in_py_range in Hi. apply read_row_ok. intros j Hj.
      apply in_py_range in Hj. unfold read_cell. rewrite Hgr. cbn [mbind option_bind].
      unfold json_index, py_list_get. rewrite length_map.
      assert (Hld : length data = Z.to_nat (rows g))
        by (unfold data; rewrite length_map, length_py_range; reflexivity).
      rewrite (py_index_in_range (length data) i) by lia.
      assert (Hd : map JList data !! Z.to_nat i =
                   Some (JList (map (fun j => JInt (cell_value (cell_at g i j)))
                                   (py_range (cols g))))).
      { unfold data. rewrite !list_lookup_fmap, py_range_lookup by lia. simpl.
        rewrite Z2Nat.id by lia. reflexivity. }
      rewrite Hd. cbn [mbind option_bind].
      rewrite (py_index_in_range (length (map (fun j => JInt (cell_value (cell_at g i j)))
                                                 (py_range (cols g)))) j)
        by (rewrite length_map, length_py_range; lia).
      rewrite list_lookup_fmap, py_range_lookup by lia. cbn [mbind option_bind fmap option_fmap option_map].
      rewrite Z2Nat.id by lia. unfold cell_of_json. cbn [json_int mbind option_bind].
      apply cell_of_value_cell_value. }
  rewrite app_nil_l, grid_of_cells by exact Hwf. cbn [negb].
  rewrite Hs, load_pos_json. rewrite Hg, load_pos_json.
  unfold g. destruct st as [[nr nc cells] sp gp run alg]. cbn.
  destruct sp, gp; reflexivity.
Qed.

Lemma save_load_roundtrip_witness :
  grid_wf walled_corner_grid /\
  exists j,
    save_layout (mkApp walled_corner_grid (Some (2, 0)) (Some (0, 3)) false BFS) = Some j /\
    load_layout j (mkApp open_floor_2x3 None None false DFS) =
      (LoadOk, mkApp walled_corner_grid (Some (2, 0)) (Some (0, 3)) false DFS).
Proof.
  assert (Hwf : grid_wf walled_corner_grid) by (split; [reflexivity | repeat constructor]).
  split; [exact Hwf|].
  exact (save_load_roundtrip (mkApp walled_corner_grid (Some (2, 0)) (Some (0, 3)) false BFS)
           (mkApp open_floor_2x3 None None false DFS) Hwf).
Defined.


(** [load_layout] when reading the grid raises (a missing or short row, a
    value that is no [CellType]): the error is reported, but [rows] and
    [cols] already hold the file's values while the grid holds fewer than
    [rows] rows, so the state is left with a grid that does not match its
    dimensions; the positions are those held before. *)
Theorem load_layout_grid_error (layout : json) (st : app) (nr nc : Z) :
  json_get layout "rows" = Some (JInt nr) -> json_get layout "cols" = Some (JInt nc) ->
  (read_rows layout nc (py_range nr) []).2 = false ->
  (load_layout layout st).1 = LoadError /\
  rows (app_grid (load_layout layout st).2) = nr /\
  cols (app_grid (load_layout layout st).2) = nc /\
  (length (grid (app_grid (load_layout layout st).2)) < Z.to_nat nr)%nat /\
  ~ grid_wf (app_grid (load_layout layout st).2) /\
  start_pos (load_layout layout st).2 = start_pos st /\
  goal_pos (load_layout layout st).2 = goal_pos st.
Proof.
  intros Hr Hc Hfail. unfold load_layout. rewrite Hr. cbn [json_int]. rewrite Hc. cbn [json_int].
  destruct (read_rows layout nc (py_range nr) []) as [cells ok] eqn:E.
  simpl in Hfail. subst ok.
  pose proof (read_rows_fail_length _ _ _ _ _ E) as Hlen.
  rewrite length_py_range in Hlen. simpl in Hlen |- *.
  do 4 (split; [reflexivity + lia|]). split; [|split; reflexivity].
  intros [HR _]. simpl in HR. lia.
Qed.

Lemma load_layout_grid_error_witness :
  let layout := JObj [("rows", JInt 2); ("cols", JInt 2);
                      ("grid", JList [JList [JInt 0; JInt 1]; JList [JInt 0; JInt 9]])] in
  json_get layout "rows" = Some (JInt 2) /\ json_get layout "cols" = Some (JInt 2) /\
  (read_rows layout 2 (py_range 2) []).2 = false /\
  (load_layout layout (mkApp open_floor_2x3 (Some (0, 0)) None false BFS)).1 = LoadError /\
  ~ grid_wf (app_grid (load_layout layout (mkApp open_floor_2x3 (Some (0, 0)) None false BFS)).2).
Proof.
  intros layout.
  assert (Hr : json_get layout "rows" = Some (JInt 2)) by reflexivity.
  assert (Hc : json_get layout "cols" = Some (JInt 2)) by reflexivity.
  assert (Hf : (read_rows layout 2 (py_range 2) []).2 = false) by reflexivity.
  destruct (load_layout_grid_error layout (mkApp open_floor_2x3 (Some (0, 0)) None false BFS)
              2 2 Hr Hc Hf) as (He & _ & _ & _ & Hnwf & _).
  split; [exact Hr|]. split; [exact Hc|]. split; [exact Hf|]. split; [exact He|exact Hnwf].
Defined.


(** ** Random obstacles *)

Lemma forall2_cells (R : CellType -> CellType -> Prop) (g : Grid)
    (cells : list (list CellType)) :
  grid_wf g -> Forall2 (Forall2 R) (grid g) cells ->
  grid_wf (with_cells g cells) /\
  forall r c, 0 <= r < rows g -> 0 <= c < cols g ->
    R (cell_at g r c) (cell_at (with_cells g cells) r c).
Proof.
  intros [HR HC] HF. split.
  - split; cbn [rows cols grid with_cells].
    + rewrite <- (Forall2_length _ _ _ HF). exact HR.
    + apply Forall_lookup_2. intros i row' Hrow'.
      destruct (Forall2_lookup_r _ _ _ _ _ HF Hrow') as (row & Hrow & Hrr).
      rewrite <- (Forall2_length _ _ _ Hrr).
      exact (Forall_lookup_1 _ _ _ _ HC Hrow).
  - intros r c Hr Hc. unfold cell_at. cbn [grid with_cells]. rewrite !nth_error_lookup.
    destruct (lookup_lt_is_Some_2 (grid g) (Z.to_nat r)) as [row Hrow]; [lia|].
    destruct (Forall2_lookup_l _ _ _ _ _ HF Hrow) as (row' & Hrow' & Hrr).
    rewrite Hrow, Hrow', !nth_error_lookup.
    pose proof (Forall_lookup_1 _ _ _ _ HC Hrow) as Hlen. simpl in Hlen.
    destruct (lookup_lt_is_Some_2 row (Z.to_nat c)) as [t Ht]; [lia|].
    destruct (Forall2_lookup_l _ _ _ _ _ Hrr Ht) as (t' & Ht' & Htt).
    rewrite Ht, Ht'. exact Htt.
Qed.

Lemma obstacles_row_step (density : Q) (rnd : nat -> Q) (n : nat) (row : list CellType) :
  Forall2 obstacle_step row (row_map (obstacle_body density rnd) n row).1.
Proof.
  revert n. induction row as [|t row IH]; intros n; [constructor|]. cbn [row_map].
  destruct (obstacle_body density rnd n t) as [w n'] eqn:Eb.
  destruct (row_map (obstacle_body density rnd) n' row) as [row'' n''] eqn:E. cbn [fst].
  constructor.
  - unfold obstacle_body in Eb. destruct (decide (t = EMPTY)) as [->|Hne].
    + destruct (draw_below rnd n density); injection Eb as <- <-;
        [right; split; reflexivity | left; reflexivity].
    + injection Eb as <- <-. left. reflexivity.
  - specialize (IH n'). rewrite E in IH. exact IH.
Qed.

Lemma obstacles_rows_step (density : Q) (rnd : nat -> Q) (n : nat)
    (cells : list (list CellType)) :
  Forall2 (Forall2 obstacle_step) cells (rows_map (obstacle_body density rnd) n cells).1.
Proof.
  revert n. induction cells as [|row cells IH]; intros n; [constructor|]. cbn [rows_map].
  destruct (row_map (obstacle_body density rnd) n row) as [row' n'] eqn:E1.
  destruct (rows_map (obstacle_body density rnd) n' cells) as [cells'' n''] eqn:E2.
  cbn [fst]. constructor.
  - pose proof (obstacles_row_step density rnd n row) as H. rewrite E1 in H. exact H.
  - specialize (IH n'). rewrite E2 in IH. exact IH.
Qed.

Lemma obstacles_rows_const (density : Q) (rnd : nat -> Q) (b : bool) :
  (forall n, draw_below rnd n density = b) ->
  forall n cells, (rows_map (obstacle_body density rnd) n cells).1 =
    map (map (fun t => if decide (t = EMPTY) then (if b then OBSTACLE else EMPTY) else t)) cells.
Proof.
  intros Hb.
  assert (Hrow : forall row n, (row_map (obstacle_body density rnd) n row).1 =
            map (fun t => if decide (t = EMPTY) then (if b then OBSTACLE else EMPTY) else t) row).
  { induction row as [|t row IH]; intros n; [reflexivity|]. cbn [row_map].
    destruct (obstacle_body density rnd n t) as [w n'] eqn:Eb.
    destruct (row_map (obstacle_body density rnd) n' row) as [row'' n''] eqn:E.
    cbn [fst map]. f_equal.
    - unfold obstacle_body in Eb. destruct (decide (t = EMPTY)) as [->|Hne].
      + rewrite Hb in Eb. destruct b; injection Eb as <- <-; reflexivity.
      + injection Eb as <- <-. reflexivity.
    - specialize (IH n'). rewrite E in IH. exact IH. }
  intros n cells. revert n. induction cells as [|row cells IH]; intros n; [reflexivity|].
  cbn [rows_map].
  destruct (row_map (obstacle_body density rnd) n row) as [row' n'] eqn:E1.
  destruct (rows_map (obstacle_body density rnd) n' cells) as [cells'' n''] eqn:E2.
  cbn [fst map]. f_equal.
  - specialize (Hrow row n). rewrite E1 in Hrow. exact Hrow.
  - specialize (IH n'). rewrite E2 in IH. exact IH.
Qed.

(** Once [clear_path] succeeds on a well-formed grid, the loop of
    [add_random_obstacles] runs the body over every cell. *)
Lemma add_random_obstacles_wf (st st1 : app) (density : Q) (rnd : nat -> Q) :
  clear_path_app st = inl st1 -> grid_wf (app_grid st1) ->
  add_random_obstacles st density rnd =
    inl (set_app_cells st1 (rows_map (obstacle_body density rnd) 0%nat (grid (app_grid st1))).1).
Proof.
  intros E Hwf. unfold add_random_obstacles. rewrite E. cbv zeta.
  rewrite (grid_loop_wf _ _ _ Hwf).
  destruct (rows_map (obstacle_body density rnd) 0%nat (grid (app_grid st1))); reflexivity.
Qed.

(** [restore_markers] keeps the shape of the grid it writes to. *)
Lemma restore_markers_shape (st : app) (cells cells' : list (list CellType)) (R C : Z) :
  Z.of_nat (length cells) = R ->
  Forall (fun row => Z.of_nat (length row) = C) cells ->
  restore_markers st cells = inl cells' ->
  Z.of_nat (length cells') = R /\ Forall (fun row => Z.of_nat (length row) = C) cells'.
Proof.
  intros HR HC. unfold restore_markers.
  assert (Hset : forall c0 r c v, Z.of_nat (length c0) = R ->
            Forall (fun row => Z.of_nat (length row) = C) c0 ->
            forall c1, set_cell c0 r c v = Some c1 ->
            Z.of_nat (length c1) = R /\ Forall (fun row => Z.of_nat (length row) = C) c1).
  { intros c0 r c v H0 H1 c1 E. pose proof (set_cell_py c0 R C r c v H0 H1) as H.
    rewrite E in H. tauto. }
  destruct (start_pos st) as [[sr sc]|].
  - destruct (set_cell cells sr sc START) as [c1|] eqn:E1; [|discriminate].
    destruct (Hset _ _ _ _ HR HC _ E1) as [HR1 HC1].
    destruct (goal_pos st) as [[gr gc]|].
    + destruct (set_cell c1 gr gc GOAL) as [c2|] eqn:E2; [|discriminate].
      intros H. injection H as <-. exact (Hset _ _ _ _ HR1 HC1 _ E2).
    + intros H. injection H as <-. tauto.
  - destruct (goal_pos st) as [[gr gc]|].
    + destruct (set_cell cells gr gc GOAL) as [c2|] eqn:E2; [|discriminate].
      intros H. injection H as <-. exact (Hset _ _ _ _ HR HC _ E2).
    + intros H. injection H as <-. tauto.
Qed.

Lemma clear_path_app_wf (st st1 : app) :
  grid_wf (app_grid st) -> clear_path_app st = inl st1 -> grid_wf (app_grid st1).
Proof.
  intros Hwf E. unfold clear_path_app in E.
  destruct (clear_path st) as [cells|cells] eqn:Ecl; [|discriminate].
  injection E as <-. rewrite (clear_path_loop_wf st Hwf) in Ecl.
  destruct Hwf as [HR HC].
  destruct (restore_markers_shape st _ cells _ _ ltac:(rewrite length_map; exact HR)
              ltac:(apply Forall_map; eapply Forall_impl; [exact HC|];
                    intros row Hrow; simpl; rewrite length_map; exact Hrow) Ecl)
    as [HR' HC'].
  split; assumption.
Qed.

(** [add_random_obstacles]: on a well-formed grid whose positions lie in
    it, the call never raises, keeps the positions, and changes a cell of
    the grid [clear_path] leaves only from [EMPTY] to [OBSTACLE]; in
    particular the start and goal cells never become obstacles. *)
Theorem add_random_obstacles_spec (st : app) (density : Q) (rnd : nat -> Q) :
  grid_wf (app_grid st) ->
  (forall p, start_pos st = Some p -> in_bounds (app_grid st) p = true) ->
  (forall p, goal_pos st = Some p -> in_bounds (app_grid st) p = true) ->
  exists cells st',
    clear_path st = inl cells /\
    add_random_obstacles st density rnd = inl st' /\
    start_pos st' = start_pos st /\ goal_pos st' = goal_pos st /\
    is_running st' = is_running st /\
    rows (app_grid st') = rows (app_grid st) /\ cols (app_grid st') = cols (app_grid st) /\
    grid_wf (app_grid st') /\
    (forall r c, 0 <= r < rows (app_grid st) -> 0 <= c < cols (app_grid st) ->
       cell_at (app_grid st') r c = cell_at (with_cells (app_grid st) cells) r c \/
       (cell_at (with_cells (app_grid st) cells) r c = EMPTY /\
        cell_at (app_grid st') r c = OBSTACLE)) /\
    (forall p, start_pos st = Some p \/ goal_pos st = Some p ->
       cell_at (app_grid st') p.1 p.2 <> OBSTACLE).
Proof.
  intros Hwf Hs Hg.
  destruct (clear_path_wf st Hwf Hs Hg) as (cells & Ecl & Hwf1 & Hcl).
  set (g1 := with_cells (app_grid st) cells) in *.
  set (cells2 := (rows_map (obstacle_body density rnd) 0%nat cells).1).
  destruct (forall2_cells obstacle_step g1 cells2 Hwf1 (obstacles_rows_step density rnd 0%nat cells))
    as (Hwf2 & Hstep).
  exists cells, (set_app_cells (set_app_cells st cells) cells2).
  split; [exact Ecl|]. split.
  { apply add_random_obstacles_wf; [unfold clear_path_app; rewrite Ecl; reflexivity|].
    exact Hwf1. }
  cbn [set_app_cells start_pos goal_pos is_running app_grid].
  do 5 (split; [reflexivity|]). split; [exact Hwf2|].
  assert (Hcells : forall r c, 0 <= r < rows (app_grid st) -> 0 <= c < cols (app_grid st) ->
            cell_at (with_cells g1 cells2) r c = cell_at g1 r c \/
            (cell_at g1 r c = EMPTY /\ cell_at (with_cells g1 cells2) r c = OBSTACLE)).
  { intros r c Hr Hc. destruct (Hstep r c Hr Hc) as [E|E]; [left|right]; exact E. }
  split; [exact Hcells|].
  intros [r c] Hp. change (cell_at (with_cells g1 cells2) r c <> OBSTACLE).
  assert (Hin : in_bounds (app_grid st) (r, c) = true)
    by (destruct Hp as [Hp|Hp]; [apply Hs|apply Hg]; exact Hp).
  destruct (in_bounds_true _ _ Hin) as [Hr Hc]. simpl in Hr, Hc.
  assert (Hmark : cell_at g1 r c = GOAL \/ cell_at g1 r c = START).
  { unfold g1. rewrite Hcl by assumption.
    destruct (decide (goal_pos st = Some (r, c))); [left; reflexivity|].
    destruct (decide (start_pos st = Some (r, c))); [right; reflexivity|].
    destruct Hp; contradiction. }
  destruct (Hcells r c Hr Hc) as [E|[E _]]; [rewrite E|];
    destruct Hmark as [M|M]; rewrite M in *; discriminate.
Qed.

Lemma add_random_obstacles_spec_witness :
  let st := mkApp walled_corner_grid (Some (2, 0)) (Some (0, 3)) false BFS in
  grid_wf (app_grid st) /\
  (forall p, start_pos st = Some p -> in_bounds (app_grid st) p = true) /\
  (forall p, goal_pos st = Some p -> in_bounds (app_grid st) p = true) /\
  exists st', add_random_obstacles st 1 (fun _ => 0%Q) = inl st' /\
    cell_at (app_grid st') 2 0 <> OBSTACLE /\ cell_at (app_grid st') 0 3 <> OBSTACLE.
Proof.
  intros st.
  assert (Hwf : grid_wf (app_grid st)) by (split; [reflexivity | repeat constructor]).
  assert (Hs : forall p, start_pos st = Some p -> in_bounds (app_grid st) p = true)
    by (intros p Hp; injection Hp as <-; reflexivity).
  assert (Hg : forall p, goal_pos st = Some p -> in_bounds (app_grid st) p = true)
    by (intros p Hp; injection Hp as <-; reflexivity).
  do 3 (split; [assumption|]).
  destruct (add_random_obstacles_spec st 1 (fun _ => 0%Q) Hwf Hs Hg)
    as (cells & st' & _ & E & _ & _ & _ & _ & _ & _ & _ & Hno).
  exists st'. split; [exact E|]. split.
  - exact (Hno (2, 0) (or_introl eq_refl)).
  - exact (Hno (0, 3) (or_intror eq_refl)).
Defined.


(** [add_random_obstacles] at the extreme densities, on a well-formed
    grid and for draws of [random.random()] in [[0, 1)]: a density of at
    most [0] adds no obstacle (the call is [clear_path] alone), and a
    density of at least [1] turns every [EMPTY] cell of the cleared grid
    into an obstacle; when [clear_path] raises, so does the call. *)
Theorem add_random_obstacles_density_extremes (st : app) (density : Q) (rnd : nat -> Q) :
  grid_wf (app_grid st) ->
  (forall n, 0 <= rnd n /\ rnd n < 1)%Q ->
  ((density <= 0)%Q -> add_random_obstacles st density rnd = clear_path_app st) /\
  ((1 <= density)%Q ->
   add_random_obstacles st density rnd =
     match clear_path_app st with
     | inl st1 =>
         inl (set_app_cells st1
                (map (map (fun t => if decide (t = EMPTY) then OBSTACLE else t))
                   (grid (app_grid st1))))
     | inr st1 => inr st1
     end).
Proof.
  intros Hwf Hrnd.
  destruct (clear_path_app st) as [st1|st1] eqn:Ecl.
  2:{ split; intros _; unfold add_random_obstacles; rewrite Ecl; reflexivity. }
  pose proof (clear_path_app_wf st st1 Hwf Ecl) as Hwf1.
  rewrite (add_random_obstacles_wf st st1 density rnd Ecl Hwf1).
  split; intros Hd.
  - assert (Hb : forall n, draw_below rnd n density = false).
    { intros n. unfold draw_below. apply negb_false_iff, Qle_bool_iff.
      apply (Qle_trans _ 0); [exact Hd|apply Hrnd]. }
    rewrite (obstacles_rows_const density rnd false Hb).
    f_equal. destruct st1 as [[nr nc cells] sp gp run alg]. unfold set_app_cells. simpl.
    do 2 f_equal. clear. induction cells as [|row cells IH]; [reflexivity|]. simpl.
    rewrite IH. f_equal. induction row as [|t row IHr]; [reflexivity|]. simpl.
    rewrite IHr. destruct (decide (t = EMPTY)) as [->|]; reflexivity.
  - assert (Hb : forall n, draw_below rnd n density = true).
    { intros n. unfold draw_below. apply negb_true_iff.
      destruct (Qle_bool density (rnd n)) eqn:E; [|reflexivity].
      apply Qle_bool_iff in E. destruct (Hrnd n) as [_ Hlt].
      exfalso. apply (Qlt_irrefl 1). apply (Qle_lt_trans _ density); [exact Hd|].
      apply (Qle_lt_trans _ (rnd n)); assumption. }
    rewrite (obstacles_rows_const density rnd true Hb). reflexivity.
Qed.

Lemma add_random_obstacles_density_extremes_witness :
  grid_wf (app_grid (mkApp walled_corner_grid (Some (2, 0)) (Some (0, 3)) false BFS)) /\
  (forall n : nat, 0 <= 1 # 2 /\ 1 # 2 < 1)%Q /\
  add_random_obstacles (mkApp walled_corner_grid (Some (2, 0)) (Some (0, 3)) false BFS) 0
    (fun _ => 1 # 2)%Q =
  clear_path_app (mkApp walled_corner_grid (Some (2, 0)) (Some (0, 3)) false BFS).
Proof.
  assert (Hwf : grid_wf (app_grid (mkApp walled_corner_grid (Some (2, 0)) (Some (0, 3)) false BFS)))
    by (split; [reflexivity | repeat constructor]).
  assert (Hr : forall n : nat, (0 <= 1 # 2 /\ 1 # 2 < 1)%Q)
    by (intros n; unfold Qle, Qlt; simpl; lia).
  split; [exact Hwf|]. split; [exact Hr|].
  apply (add_random_obstacles_density_extremes
           (mkApp walled_corner_grid (Some (2, 0)) (Some (0, 3)) false BFS) 0 (fun _ => 1 # 2)%Q
           Hwf Hr).
  unfold Qle; simpl; lia.
Defined.


(** ** Random start and goal *)

Lemma in_grid_positions (nr nc : Z) (p : coord) :
  In p (grid_positions nr nc) <-> 0 <= p.1 < nr /\ 0 <= p.2 < nc.
Proof.
  unfold grid_positions. rewrite in_flat_map. split.
  - intros (i & Hi & Hp). apply in_map_iff in Hp as (j & <- & Hj).
    apply in_py_range in Hi. apply in_py_range in Hj. simpl. lia.
  - destruct p as [i j]. simpl. intros [Hi Hj]. exists i. split; [apply in_py_range; lia|].
    apply in_map_iff. exists j. split; [reflexivity|apply in_py_range; lia].
Qed.

Lemma NoDup_py_range (n : Z) : NoDup (py_range n).
Proof. unfold py_range. apply NoDup_fmap_2; [apply _|apply NoDup_seq]. Qed.

Lemma NoDup_grid_positions (nr nc : Z) : NoDup (grid_positions nr nc).
Proof.
  unfold grid_positions. generalize (NoDup_py_range nr).
  induction (py_range nr) as [|i is IH]; intros Hnd; simpl; [constructor|].
  apply NoDup_cons in Hnd as [Hi Hnd].
  apply NoDup_app. split; [|split; [|apply IH; exact Hnd]].
  - apply NoDup_fmap_2_strong; [|apply NoDup_py_range].
    intros x y _ _ Hxy. injection Hxy as Hxy. exact Hxy.
  - intros x Hx Hx'. apply list_elem_of_In in Hx, Hx'.
    apply in_map_iff in Hx as (j & <- & _).
    apply in_flat_map in Hx' as (i' & Hi' & Hx'). apply in_map_iff in Hx' as (j' & E & _).
    injection E as -> _. apply Hi, list_elem_of_In, Hi'.
Qed.

Lemma collect_empty_wf (g : Grid) (ps : list coord) :
  grid_wf g -> (forall p, In p ps -> 0 <= p.1 < rows g /\ 0 <= p.2 < cols g) ->
  exists ec, collect_empty (grid g) ps = Some ec /\
    (forall p, In p ec <-> In p ps /\ cell_at g p.1 p.2 = EMPTY) /\
    (NoDup ps -> NoDup ec).
Proof.
  intros Hwf. induction ps as [|p ps IH]; intros Hin.
  - exists []. split; [reflexivity|]. split; [simpl; tauto|]. intros _. constructor.
  - destruct IH as (ec & E & Hmem & Hnd); [intros q Hq; apply Hin; right; exact Hq|].
    destruct (Hin p (or_introl eq_refl)) as [Hr Hc].
    simpl. rewrite get_cell_wf by assumption. cbn [mbind option_bind]. rewrite E.
    cbn [mbind option_bind].
    destruct (decide (cell_at g p.1 p.2 = EMPTY)) as [He|He].
    + exists (p :: ec). split; [reflexivity|]. split.
      * intros q. simpl. rewrite Hmem. split.
        -- intros [<-|[Hq Hq']]; auto.
        -- intros [[<-|Hq] Hq']; auto.
      * intros Hnd'. apply NoDup_cons in Hnd' as [Hp Hnd']. apply NoDup_cons.
        split; [|auto]. intros Hq. apply list_elem_of_In, Hmem in Hq as [Hq _].
        apply Hp, list_elem_of_In, Hq.
    + exists ec. split; [reflexivity|]. split.
      * intros q. rewrite Hmem. simpl. split.
        -- intros [Hq Hq']; auto.
        -- intros [[<-|Hq] Hq']; [contradiction|auto].
      * intros Hnd'. apply NoDup_cons in Hnd' as [_ Hnd']. auto.
Qed.

Lemma py_list_get_nonneg {A} (l : list A) (i : Z) (x : A) :
  0 <= i -> py_list_get l i = Some x -> l !! Z.to_nat i = Some x.
Proof.
  intros Hi. unfold py_list_get.
  destruct (decide (i < Z.of_nat (length l))) as [Hlt|Hge].
  - rewrite py_index_in_range by lia. auto.
  - unfold py_index.
    replace ((0 <=? i) && (i <? Z.of_nat (length l))) with false
      by (symmetry; apply andb_false_iff; right; apply Z.ltb_ge; lia).
    replace ((- Z.of_nat (length l) <=? i) && (i <? 0)) with false
      by (symmetry; apply andb_false_iff; right; apply Z.ltb_ge; lia).
    discriminate.
Qed.

Lemma draw_goal_idx_spec (si : Z) (ds : list Z) (gi : Z) :
  draw_goal_idx si ds = Some gi -> gi <> si /\ In gi ds.
Proof.
  induction ds as [|d ds IH]; simpl; [discriminate|].
  destruct (decide (d = si)) as [->|Hne].
  - intros H. destruct (IH H) as [H1 H2]. auto.
  - intros H. injection H as <-. auto.
Qed.

Lemma random_start_goal_set (st : app) (draws : list Z) (st' : app) :
  grid_wf (app_grid st) ->
  (forall p, start_pos st = Some p -> in_bounds (app_grid st) p = true) ->
  (forall p, goal_pos st = Some p -> in_bounds (app_grid st) p = true) ->
  Forall (fun d => 0 <= d) draws ->
  random_start_goal st draws = Some (StartGoalSet, st') ->
  exists cells p q,
    clear_path st = inl cells /\
    start_pos st' = Some p /\ goal_pos st' = Some q /\ p <> q /\
    in_bounds (app_grid st) p = true /\ in_bounds (app_grid st) q = true /\
    cell_at (with_cells (app_grid st) cells) p.1 p.2 = EMPTY /\
    cell_at (with_cells (app_grid st) cells) q.1 q.2 = EMPTY /\
    is_running st' = is_running st /\
    rows (app_grid st') = rows (app_grid st) /\ cols (app_grid st') = cols (app_grid st) /\
    grid_wf (app_grid st') /\
    forall r c, 0 <= r < rows (app_grid st) -> 0 <= c < cols (app_grid st) ->
      cell_at (app_grid st') r c =
        if decide ((r, c) = q) then GOAL
        else if decide ((r, c) = p) then START
        else cell_at (with_cells (app_grid st) cells) r c.
Proof.
  intros Hwf Hs Hg Hdr H.
  destruct (clear_path_wf st Hwf Hs Hg) as (cells & Ecl & Hwf1 & _).
  set (g1 := with_cells (app_grid st) cells) in *.
  destruct (collect_empty_wf g1 (grid_positions (rows g1) (cols g1)) Hwf1)
    as (ec & Eec & Hmem & Hnd).
  { intros p Hp. apply in_grid_positions in Hp. exact Hp. }
  specialize (Hnd (NoDup_grid_positions _ _)).
  unfold random_start_goal, clear_path_app in H. rewrite Ecl in H.
  replace (empty_cells (app_grid (set_app_cells st cells))) with (Some ec) in H
    by (symmetry; exact Eec).
  destruct (bool_decide (length ec < 2)%nat); [discriminate|].
  destruct draws as [|si ds]; [discriminate|].
  inversion Hdr as [|? ? Hsi Hds]; subst.
  destruct (py_list_get ec si) as [[sr sc]|] eqn:Esp; [|discriminate].
  destruct (draw_goal_idx si ds) as [gi|] eqn:Egi; [|discriminate].
  destruct (py_list_get ec gi) as [[gr gc]|] eqn:Egp; [|discriminate].
  destruct (draw_goal_idx_spec _ _ _ Egi) as [Hne Hgi].
  assert (Hgi0 : 0 <= gi) by (rewrite Forall_forall in Hds; apply Hds, list_elem_of_In, Hgi).
  apply py_list_get_nonneg in Esp; [|exact Hsi].
  apply py_list_get_nonneg in Egp; [|exact Hgi0].
  assert (Hpq : (sr, sc) <> (gr, gc)).
  { intros Heq. rewrite Heq in Esp. pose proof (NoDup_lookup _ _ _ _ Hnd Esp Egp). lia. }
  assert (Hsp : In (sr, sc) ec) by (apply list_elem_of_In, list_elem_of_lookup_2 with (Z.to_nat si); exact Esp).
  assert (Hgp : In (gr, gc) ec) by (apply list_elem_of_In, list_elem_of_lookup_2 with (Z.to_nat gi); exact Egp).
  apply Hmem in Hsp as [Hsp Hse]. apply Hmem in Hgp as [Hgp Hge].
  apply in_grid_positions in Hsp as [Hsr Hsc]. apply in_grid_positions in Hgp as [Hgr Hgc].
  simpl in Hsr, Hsc, Hgr, Hgc, Hse, Hge. cbn [fst snd] in H.
  match type of H with
  | context [write_cell ?s3 _ _ START] =>
      destruct (write_cell_wf s3 sr sc START Hwf1 Hsr Hsc) as (c4 & E4 & Hwf4 & H4);
      rewrite E4 in H
  end.
  match type of H with
  | context [write_cell ?s4 _ _ GOAL] =>
      destruct (write_cell_wf s4 gr gc GOAL Hwf4 Hgr Hgc) as (c5 & E5 & Hwf5 & H5);
      rewrite E5 in H
  end.
  injection H as <-.
  exists cells, (sr, sc), (gr, gc).
  split; [exact Ecl|]. do 3 (split; [reflexivity + exact Hpq|]).
  split; [unfold in_bounds; cbn [fst snd]; rewrite !andb_true_iff, !Z.leb_le, !Z.ltb_lt; lia|].
  split; [unfold in_bounds; cbn [fst snd]; rewrite !andb_true_iff, !Z.leb_le, !Z.ltb_lt; lia|].
  split; [exact Hse|]. split; [exact Hge|].
  do 3 (split; [reflexivity|]). split; [exact Hwf5|].
  intros r c Hr Hc. etransitivity; [apply H5; assumption|].
  destruct (decide _); [reflexivity|]. apply H4; assumption.
Qed.

(** [random_start_goal], when it sets the positions: on a well-formed
    grid whose positions lie in it, with [random.randint] returning
    indices in range, the new start and goal are two different cells of
    the grid that were [EMPTY] after [clear_path]; they show [START] and
    [GOAL], and every other cell is as [clear_path] left it. *)
Theorem random_start_goal_sets_two_empty_cells (st : app) (draws : list Z) (st' : app) :
  grid_wf (app_grid st) ->
  (forall p, start_pos st = Some p -> in_bounds (app_grid st) p = true) ->
  (forall p, goal_pos st = Some p -> in_bounds (app_grid st) p = true) ->
  Forall (fun d => 0 <= d) draws ->
  random_start_goal st draws = Some (StartGoalSet, st') ->
  exists cells p q,
    clear_path st = inl cells /\
    start_pos st' = Some p /\ goal_pos st' = Some q /\ p <> q /\
    in_bounds (app_grid st) p = true /\ in_bounds (app_grid st) q = true /\
    cell_at (with_cells (app_grid st) cells) p.1 p.2 = EMPTY /\
    cell_at (with_cells (app_grid st) cells) q.1 q.2 = EMPTY /\
    is_running st' = is_running st /\
    rows (app_grid st') = rows (app_grid st) /\ cols (app_grid st') = cols (app_grid st) /\
    grid_wf (app_grid st') /\
    forall r c, 0 <= r < rows (app_grid st) -> 0 <= c < cols (app_grid st) ->
      cell_at (app_grid st') r c =
        if decide ((r, c) = q) then GOAL
        else if decide ((r, c) = p) then START
        else cell_at (with_cells (app_grid st) cells) r c.
Proof. exact (random_start_goal_set st draws st'). Qed.

Lemma random_start_goal_sets_two_empty_cells_witness :
  let st := mkApp open_floor_2x3 (Some (0, 0)) (Some (1, 2)) false BFS in
  let st' := match random_start_goal st [0; 0; 3] with Some (_, s) => s | None => st end in
  grid_wf (app_grid st) /\
  (forall p, start_pos st = Some p -> in_bounds (app_grid st) p = true) /\
  (forall p, goal_pos st = Some p -> in_bounds (app_grid st) p = true) /\
  Forall (fun d => 0 <= d) [0; 0; 3] /\
  random_start_goal st [0; 0; 3] = Some (StartGoalSet, st') /\
  start_pos st' <> goal_pos st'.
Proof.
  intros st st'.
  assert (Hwf : grid_wf (app_grid st)) by (split; [reflexivity | repeat constructor]).
  assert (Hs : forall p, start_pos st = Some p -> in_bounds (app_grid st) p = true)
    by (intros p Hp; injection Hp as <-; reflexivity).
  assert (Hg : forall p, goal_pos st = Some p -> in_bounds (app_grid st) p = true)
    by (intros p Hp; injection Hp as <-; reflexivity).
  assert (Hd : Forall (fun d => 0 <= d) [0; 0; 3]) by (repeat constructor; lia).
  assert (E : random_start_goal st [0; 0; 3] = Some (StartGoalSet, st')) by reflexivity.
  do 5 (split; [assumption|]).
  destruct (random_start_goal_sets_two_empty_cells st [0; 0; 3] st' Hwf Hs Hg Hd E)
    as (cells & p & q & _ & Ep & Eq & Hpq & _).
  rewrite Ep, Eq. congruence.
Defined.

(** [random_start_goal] leaves the old markers in place: when it sets new
    positions, the cell of the previous start (if it was not also the
    goal) is neither new position but still shows [START], and the cell
    of the previous goal is neither new position but still shows [GOAL];
    the grid then shows two [START] or two [GOAL] cells. *)
Theorem random_start_goal_keeps_old_markers (st : app) (draws : list Z) (st' : app) :
  grid_wf (app_grid st) ->
  (forall p, start_pos st = Some p -> in_bounds (app_grid st) p = true) ->
  (forall p, goal_pos st = Some p -> in_bounds (app_grid st) p = true) ->
  Forall (fun d => 0 <= d) draws ->
  random_start_goal st draws = Some (StartGoalSet, st') ->
  (forall p0, start_pos st = Some p0 -> goal_pos st <> Some p0 ->
     start_pos st' <> Some p0 /\ goal_pos st' <> Some p0 /\
     cell_at (app_grid st') p0.1 p0.2 = START) /\
  (forall q0, goal_pos st = Some q0 ->
     start_pos st' <> Some q0 /\ goal_pos st' <> Some q0 /\
     cell_at (app_grid st') q0.1 q0.2 = GOAL).
Proof.
  intros Hwf Hs Hg Hdr H.
  destruct (random_start_goal_set st draws st' Hwf Hs Hg Hdr H)
    as (cells & p & q & Ecl & Ep & Eq & Hpq & _ & _ & Hpe & Hqe & _ & _ & _ & _ & Hcell).
  destruct (clear_path_wf st Hwf Hs Hg) as (cells' & Ecl' & _ & Hcl).
  rewrite Ecl in Ecl'. injection Ecl' as <-.
  rewrite Ep, Eq. split.
  - intros [r0 c0] Hs0 Hg0. destruct (in_bounds_true _ _ (Hs _ Hs0)) as [Hr Hc].
    simpl in Hr, Hc |- *.
    assert (Hcl0 : cell_at (with_cells (app_grid st) cells) r0 c0 = START).
    { rewrite Hcl by assumption. rewrite decide_False by exact Hg0.
      rewrite decide_True by exact Hs0. reflexivity. }
    assert (p <> (r0, c0)) by (intros ->; simpl in Hpe; congruence).
    assert (q <> (r0, c0)) by (intros ->; simpl in Hqe; congruence).
    split; [congruence|]. split; [congruence|].
    rewrite Hcell by assumption. rewrite !decide_False by congruence. exact Hcl0.
  - intros [r0 c0] Hg0. destruct (in_bounds_true _ _ (Hg _ Hg0)) as [Hr Hc].
    simpl in Hr, Hc |- *.
    assert (Hcl0 : cell_at (with_cells (app_grid st) cells) r0 c0 = GOAL).
    { rewrite Hcl by assumption. rewrite decide_True by exact Hg0. reflexivity. }
    assert (p <> (r0, c0)) by (intros ->; simpl in Hpe; congruence).
    assert (q <> (r0, c0)) by (intros ->; simpl in Hqe; congruence).
    split; [congruence|]. split; [congruence|].
    rewrite Hcell by assumption. rewrite !decide_False by congruence. exact Hcl0.
Qed.

Lemma random_start_goal_keeps_old_markers_witness :
  let st := mkApp open_floor_2x3 (Some (0, 0)) (Some (1, 2)) false BFS in
  let st' := match random_start_goal st [0; 0; 3] with Some (_, s) => s | None => st end in
  grid_wf (app_grid st) /\
  (forall p, start_pos st = Some p -> in_bounds (app_grid st) p = true) /\
  (forall p, goal_pos st = Some p -> in_bounds (app_grid st) p = true) /\
  Forall (fun d => 0 <= d) [0; 0; 3] /\
  random_start_goal st [0; 0; 3] = Some (StartGoalSet, st') /\
  start_pos st' <> Some (0, 0) /\ cell_at (app_grid st') 0 0 = START.
Proof.
  intros st st'.
  assert (Hwf : grid_wf (app_grid st)) by (split; [reflexivity | repeat constructor]).
  assert (Hs : forall p, start_pos st = Some p -> in_bounds (app_grid st) p = true)
    by (intros p Hp; injection Hp as <-; reflexivity).
  assert (Hg : forall p, goal_pos st = Some p -> in_bounds (app_grid st) p = true)
    by (intros p Hp; injection Hp as <-; reflexivity).
  assert (Hd : Forall (fun d => 0 <= d) [0; 0; 3]) by (repeat constructor; lia).
  assert (E : random_start_goal st [0; 0; 3] = Some (StartGoalSet, st')) by reflexivity.
  do 5 (split; [assumption|]).
  destruct (random_start_goal_keeps_old_markers st [0; 0; 3] st' Hwf Hs Hg Hd E) as [H0 _].
  destruct (H0 (0, 0) eq_refl ltac:(discriminate)) as (H1 & _ & H2).
  split; [exact H1|exact H2].
Defined.

(** ** The path animation *)

Lemma reconstruct_loop_prefix (fuel : nat) (cf : gmap coord coord) (cur : coord)
    (path res : list coord) :
  reconstruct_loop fuel cf cur path = Some res -> exists ext, res = path ++ ext.
Proof.
  revert cur path. induction fuel as [|fuel IH]; intros cur path H;
    rewrite reconstruct_loop_eq in H; destruct (cf !! cur) as [prev|].
  - discriminate.
  - injection H as <-. exists []. rewrite app_nil_r. reflexivity.
  - destruct (IH _ _ H) as [ext ->]. exists (prev :: ext). rewrite <- app_assoc. reflexivity.
  - injection H as <-. exists []. rewrite app_nil_r. reflexivity.
Qed.

Lemma reconstruct_path_last (cf : gmap coord coord) (cur : coord) (p : list coord) :
  reconstruct_path cf cur = Some p -> last p = Some cur.
Proof.
  unfold reconstruct_path.
  destruct (reconstruct_loop (size cf) cf cur [cur]) as [res|] eqn:E; [|discriminate].
  intros H. injection H as <-. destruct (reconstruct_loop_prefix _ _ _ _ _ E) as [ext ->].
  simpl. apply last_snoc.
Qed.

Lemma marked_dec (n i : Z) (ps : list coord) (q : coord) :
  {exists k, 0 < i + Z.of_nat k < n - 1 /\ ps !! k = Some q} +
  {~ exists k, 0 < i + Z.of_nat k < n - 1 /\ ps !! k = Some q}.
Proof.
  revert i. induction ps as [|x ps IH]; intros i.
  - right. intros (k & _ & Hk). discriminate Hk.
  - destruct (decide (0 < i < n - 1 /\ x = q)) as [[Hi ->]|Hno].
    + left. exists 0%nat. split; [lia|reflexivity].
    + destruct (IH (i + 1)) as [Hex|Hnex].
      * left. destruct Hex as (k & Hk & Hl). exists (S k). split; [lia|exact Hl].
      * right. intros ([|k] & Hk & Hl).
        -- simpl in Hl. injection Hl as ->. apply Hno. split; [lia|reflexivity].
        -- apply Hnex. exists k. split; [lia|exact Hl].
Qed.

Lemma mark_path_wf (g : Grid) (n i : Z) (ps : list coord) :
  grid_wf g -> (forall p, In p ps -> 0 <= p.1 < rows g /\ 0 <= p.2 < cols g) ->
  exists cells, mark_path (grid g) n i ps = inl cells /\ grid_wf (with_cells g cells) /\
    forall r c, 0 <= r < rows g -> 0 <= c < cols g ->
      ((exists k, 0 < i + Z.of_nat k < n - 1 /\ ps !! k = Some (r, c)) ->
       cell_at (with_cells g cells) r c = PATH) /\
      (~ (exists k, 0 < i + Z.of_nat k < n - 1 /\ ps !! k = Some (r, c)) ->
       cell_at (with_cells g cells) r c = cell_at g r c).
Proof.
  revert g i. induction ps as [|[r0 c0] ps IH]; intros g i Hwf Hin.
  - exists (grid g). split; [reflexivity|]. split; [exact Hwf|].
    intros r c _ _. split; [intros (k & _ & Hk); discriminate Hk|reflexivity].
  - destruct (Hin (r0, c0) (or_introl eq_refl)) as [Hr0 Hc0]. simpl in Hr0, Hc0.
    assert (Hin' : forall p, In p ps -> 0 <= p.1 < rows g /\ 0 <= p.2 < cols g)
      by (intros p Hp; apply Hin; right; exact Hp).
    simpl. destruct ((0 <? i) && (i <? n - 1)) eqn:Hcond.
    + apply andb_true_iff in Hcond as [H1 H2]. apply Z.ltb_lt in H1, H2.
      destruct (set_cell_wf g r0 c0 PATH Hwf Hr0 Hc0) as (c1 & E1 & Hwf1 & Hcell1).
      rewrite E1.
      destruct (IH (with_cells g c1) (i + 1) Hwf1 Hin') as (cells & E & Hwf2 & Hcell2).
      exists cells. split; [exact E|]. split; [exact Hwf2|].
      intros r c Hr Hc. destruct (Hcell2 r c Hr Hc) as [HP HN]. split.
      * intros ([|k] & Hk & Hl).
        -- simpl in Hl. injection Hl as <- <-.
           destruct (marked_dec n (i + 1) ps (r0, c0)) as [Hex|Hnex];
             [exact (HP Hex)|].
           etransitivity; [exact (HN Hnex)|]. rewrite Hcell1 by assumption.
           rewrite decide_True by reflexivity. reflexivity.
        -- apply HP. exists k. split; [lia|exact Hl].
      * intros Hnex. etransitivity.
        -- apply HN. intros (k & Hk & Hl). apply Hnex. exists (S k). split; [lia|exact Hl].
        -- rewrite Hcell1 by assumption. rewrite decide_False; [reflexivity|].
           intros Heq. apply Hnex. exists 0%nat. split; [lia|]. simpl. rewrite Heq. reflexivity.
    + destruct (IH g (i + 1) Hwf Hin') as (cells & E & Hwf2 & Hcell2).
      exists cells. split; [exact E|]. split; [exact Hwf2|].
      intros r c Hr Hc. destruct (Hcell2 r c Hr Hc) as [HP HN]. split.
      * intros ([|k] & Hk & Hl).
        -- exfalso. apply andb_false_iff in Hcond as [H|H]; apply Z.ltb_ge in H; lia.
        -- apply HP. exists k. split; [lia|exact Hl].
      * intros Hnex. apply HN. intros (k & Hk & Hl). apply Hnex. exists (S k).
        split; [lia|exact Hl].
Qed.

Lemma move_robot_along_path_end (v : view) (p : list coord) :
  p <> [] ->
  move_robot_along_path v p = mkView (stop_running (view_app v)) (last p) [].
Proof.
  revert v. induction p as [|x p IH]; intros v Hne; [contradiction|].
  simpl. destruct p as [|y p]; [reflexivity|].
  rewrite IH by discriminate. reflexivity.
Qed.

(** [animate_path] followed by the robot's moves: on a well-formed grid
    with a start position set, when [reconstruct_path] returns a path
    whose cells lie in the grid, the cells at the path's inner positions
    (neither its first nor its last) become [PATH] and the other cells
    keep their value; the robot ends on [current], the list [self.path] is
    left empty (it is the list the moves pop from), the run is no longer
    marked running and the positions are kept. *)
Theorem animate_path_marks_and_moves (v : view) (cf : gmap coord coord) (cur : coord)
    (p : list coord) (sp : coord) :
  grid_wf (app_grid (view_app v)) ->
  start_pos (view_app v) = Some sp ->
  reconstruct_path cf cur = Some p ->
  (forall q, In q p -> in_bounds (app_grid (view_app v)) q = true) ->
  exists v', animate_path v cf cur = Some (inl v') /\
    robot_pos v' = Some cur /\ path v' = [] /\
    is_running (view_app v') = false /\
    start_pos (view_app v') = start_pos (view_app v) /\
    goal_pos (view_app v') = goal_pos (view_app v) /\
    grid_wf (app_grid (view_app v')) /\
    forall r c, 0 <= r < rows (app_grid (view_app v)) -> 0 <= c < cols (app_grid (view_app v)) ->
      ((exists k, (0 < k < length p - 1)%nat /\ p !! k = Some (r, c)) ->
       cell_at (app_grid (view_app v')) r c = PATH) /\
      (~ (exists k, (0 < k < length p - 1)%nat /\ p !! k = Some (r, c)) ->
       cell_at (app_grid (view_app v')) r c = cell_at (app_grid (view_app v)) r c).
Proof.
  intros Hwf Hsp Hrec Hin.
  destruct (mark_path_wf (app_grid (view_app v)) (Z.of_nat (length p)) 0 p Hwf)
    as (cells & E & Hwf' & Hcell).
  { intros q Hq. apply in_bounds_true, Hin, Hq. }
  pose proof (reconstruct_path_last _ _ _ Hrec) as Hlast.
  assert (Hne : p <> []) by (intros ->; discriminate Hlast).
  unfold animate_path. rewrite Hrec, E. cbn zeta. cbn [set_app_cells start_pos]. rewrite Hsp.
  rewrite move_robot_along_path_end by exact Hne.
  eexists. split; [reflexivity|]. cbn [robot_pos path view_app].
  split; [exact Hlast|]. do 4 (split; [first [reflexivity | exact Hsp]|]). split; [exact Hwf'|].
  intros r c Hr Hc. destruct (Hcell r c Hr Hc) as [HP HN]. split.
  - intros (k & Hk & Hl). apply HP. exists k. split; [lia|exact Hl].
  - intros Hnex. apply HN. intros (k & Hk & Hl). apply Hnex. exists k. split; [lia|exact Hl].
Qed.

Lemma animate_path_marks_and_moves_witness :
  let v := mkView (mkApp open_floor_2x3 (Some (0, 0)) (Some (0, 2)) true BFS) None [] in
  let cf : gmap coord coord := <[(0, 2) := (0, 1)]> (<[(0, 1) := (0, 0)]> ∅) in
  grid_wf (app_grid (view_app v)) /\
  start_pos (view_app v) = Some (0, 0) /\
  reconstruct_path cf (0, 2) = Some [(0, 0); (0, 1); (0, 2)] /\
  (forall q, In q [(0, 0); (0, 1); (0, 2)] -> in_bounds (app_grid (view_app v)) q = true) /\
  exists v', animate_path v cf (0, 2) = Some (inl v') /\ robot_pos v' = Some (0, 2) /\
    cell_at (app_grid (view_app v')) 0 1 = PATH /\ cell_at (app_grid (view_app v')) 0 2 = EMPTY.
Proof.
  intros v cf.
  assert (Hwf : grid_wf (app_grid (view_app v))) by (split; [reflexivity | repeat constructor]).
  assert (Hsp : start_pos (view_app v) = Some (0, 0)) by reflexivity.
  assert (Hrec : reconstruct_path cf (0, 2) = Some [(0, 0); (0, 1); (0, 2)]) by reflexivity.
  assert (Hin : forall q, In q [(0, 0); (0, 1); (0, 2)] -> in_bounds (app_grid (view_app v)) q = true)
    by (intros q [<-|[<-|[<-|[]]]]; reflexivity).
  do 4 (split; [assumption|]).
  destruct (animate_path_marks_and_moves v cf (0, 2) _ (0, 0) Hwf Hsp Hrec Hin)
    as (v' & E & Hr & _ & _ & _ & _ & _ & Hcell).
  exists v'. split; [exact E|]. split; [exact Hr|]. split.
  - apply (Hcell 0 1 ltac:(simpl; lia) ltac:(simpl; lia)). exists 1%nat. split; [simpl; lia|reflexivity].
  - rewrite (proj2 (Hcell 0 2 ltac:(simpl; lia) ltac:(simpl; lia))); [reflexivity|].
    intros ([|[|[|k]]] & Hk & Hl); simpl in Hk; try lia; discriminate.
Defined.



(** ** The statistics panel *)

Lemma bfs_found_walk (g : Grid) (s t : coord) (p : list coord) :
  result (run_bfs g s t) = Found p -> walk_from g s t p.
Proof.
  destruct (bfs_loop_stops g s t) as (st & [D Hi] & Hstop).
  unfold RunBFS.step in Hstop. destruct (RunBFS.queue st) as [|c rest] eqn:EQ.
  - injection Hstop as Hr. rewrite <- Hr. intros H. discriminate H.
  - destruct (decide (c = t)) as [->|Hct]; [|discriminate].
    injection Hstop as Hr. rewrite <- Hr. cbn [RunBFS.came_from result].
    assert (Ht : t ∈ RunBFS.visited st) by (apply (bi_queue _ _ _ _ _ Hi); rewrite EQ; left).
    destruct (bfs_found_path g s t D st Hi Ht) as (l & Hrec & Hw & _).
    rewrite Hrec. intros H. injection H as <-. exact Hw.
Qed.

(** [update_stats] after a run that cannot succeed: when no valid path
    leads from a free start cell to the goal, an A*, BFS, DFS or UCS run
    reports no path, and the statistics panel then still shows the path
    length of an earlier successful run (["path_length"] is only written
    when a path is found), with an "Optimal" line answered for the
    algorithm just run. *)
Theorem unreachable_goal_keeps_stale_stats (old : stats) (a : Algorithm) (d : Z) (g : Grid)
    (s t : coord) :
  a <> DLS -> free_cell g s -> ~ (exists q, valid_path g s t q) ->
  (0 < path_length old)%nat ->
  result (run_algorithm a d g s t) = NoPathFound /\
  In (LinePathLength (path_length old))
    (update_stats (stats_after_run old a (run_algorithm a d g s t)) d) /\
  In (LineOptimal (bool_decide (a <> DFS)))
    (update_stats (stats_after_run old a (run_algorithm a d g s t)) d).
Proof.
  intros Ha Hs Hno Hpos.
  assert (Hnp : result (run_algorithm a d g s t) = NoPathFound).
  { destruct a; simpl; [| | | |contradiction].
    - destruct (astar_outcome g s t) as [Hr|(p & Hr & Hw)]; [exact Hr|].
      exfalso. apply Hno. exists p. apply walk_from_valid; assumption.
    - destruct (bfs_outcome_cases g s t) as [Hr|(p & Hr)]; [exact Hr|].
      exfalso. apply Hno. exists p. apply walk_from_valid; [exact Hs|].
      apply bfs_found_walk, Hr.
    - destruct (dfs_outcome g s t) as [[Hr _]|(p & Hr & Hw)]; [exact Hr|].
      exfalso. apply Hno. exists p. apply walk_from_valid; assumption.
    - destruct (ucs_outcome g s t) as [[Hr _]|(p & Hr & Hw & _)]; [exact Hr|].
      exfalso. apply Hno. exists p. apply walk_from_valid; assumption. }
  split; [exact Hnp|].
  unfold update_stats, stats_after_run. rewrite Hnp. cbn [stats_algorithm path_length].
  replace ((0 <? path_length old)%nat) with true by (symmetry; apply Nat.ltb_lt; exact Hpos).
  split; [simpl; auto|].
  destruct a; [| | | |contradiction]; simpl; auto 10.
Qed.

Lemma unreachable_goal_keeps_stale_stats_witness :
  let old := mkStats (Some BFS) 5 5 7 in
  DFS <> DLS /\ free_cell walled_corner_grid (2, 3) /\
  ~ (exists q, valid_path walled_corner_grid (2, 3) (0, 0) q) /\ (0 < path_length old)%nat /\
  In (LinePathLength 5)
    (update_stats (stats_after_run old DFS (run_algorithm DFS 10 walled_corner_grid (2, 3) (0, 0)))
       10).
Proof.
  intros old.
  assert (Ha : DFS <> DLS) by discriminate.
  assert (Hs : free_cell walled_corner_grid (2, 3)) by (split; reflexivity).
  assert (Hpos : (0 < path_length old)%nat) by (simpl; lia).
  assert (Hno : ~ (exists q, valid_path walled_corner_grid (2, 3) (0, 0) q)).
  { intros (q & Hq). pose proof (valid_path_walk _ _ _ _ Hq) as Hw.
    destruct (dfs_outcome walled_corner_grid (2, 3) (0, 0)) as [[_ Hn]|(p & Hr & _)].
    - exact (Hn q Hw).
    - vm_compute in Hr. discriminate Hr. }
  do 4 (split; [assumption|]).
  destruct (unreachable_goal_keeps_stale_stats old DFS 10 walled_corner_grid (2, 3) (0, 0)
              Ha Hs Hno Hpos) as (_ & H & _).
  exact H.
Defined.

(** ** Clearing the path *)

(** [clear_path]: on a well-formed grid whose positions lie in it, the
    call never raises; it turns every [PATH], [VISITED], [FRONTIER] and
    [CURRENT] cell into [EMPTY], writes [START] and [GOAL] at the
    positions (the goal winning when they coincide), keeps every other
    cell, and a second call changes nothing. *)
Theorem clear_path_idempotent (st : app) :
  grid_wf (app_grid st) ->
  (forall p, start_pos st = Some p -> in_bounds (app_grid st) p = true) ->
  (forall p, goal_pos st = Some p -> in_bounds (app_grid st) p = true) ->
  exists st1, clear_path_app st = inl st1 /\ clear_path_app st1 = inl st1 /\
    start_pos st1 = start_pos st /\ goal_pos st1 = goal_pos st /\
    is_running st1 = is_running st /\ grid_wf (app_grid st1) /\
    forall r c, 0 <= r < rows (app_grid st) -> 0 <= c < cols (app_grid st) ->
      cell_at (app_grid st1) r c =
        if decide (goal_pos st = Some (r, c)) then GOAL
        else if decide (start_pos st = Some (r, c)) then START
        else clear_overlay (cell_at (app_grid st) r c).
Proof.
  intros Hwf Hs Hg.
  destruct (clear_path_wf st Hwf Hs Hg) as (cells & E1 & Hwf1 & H1).
  set (st1 := set_app_cells st cells).
  destruct (clear_path_wf st1 Hwf1 Hs Hg) as (cells2 & E2 & Hwf2 & H2).
  exists st1. split; [unfold clear_path_app; rewrite E1; reflexivity|].
  split.
  - unfold clear_path_app. rewrite E2. f_equal.
    unfold st1 at 2. destruct st as [g sp gp run alg]. unfold set_app_cells. cbn.
    f_equal. apply grid_ext; [exact Hwf2|exact Hwf1|reflexivity|reflexivity|].
    intros r c Hr Hc. etransitivity; [apply H2; assumption|].
    unfold st1. cbn [set_app_cells start_pos goal_pos app_grid].
    cbn in H1. rewrite (H1 r c Hr Hc).
    destruct (decide (gp = Some (r, c))); [reflexivity|].
    destruct (decide (sp = Some (r, c))); [reflexivity|].
    destruct (cell_at g r c); reflexivity.
  - do 3 (split; [reflexivity|]). split; [exact Hwf1|]. exact H1.
Qed.

Lemma clear_path_idempotent_witness :
  let st := mkApp (mkGrid 2 2 [[START; PATH]; [VISITED; GOAL]]) (Some (0, 0)) (Some (1, 1))
              false UCS in
  grid_wf (app_grid st) /\
  (forall p, start_pos st = Some p -> in_bounds (app_grid st) p = true) /\
  (forall p, goal_pos st = Some p -> in_bounds (app_grid st) p = true) /\
  exists st1, clear_path_app st = inl st1 /\ clear_path_app st1 = inl st1 /\
    cell_at (app_grid st1) 0 1 = EMPTY.
Proof.
  intros st.
  assert (Hwf : grid_wf (app_grid st)) by (split; [reflexivity | repeat constructor]).
  assert (Hs : forall p, start_pos st = Some p -> in_bounds (app_grid st) p = true)
    by (intros p Hp; injection Hp as <-; reflexivity).
  assert (Hg : forall p, goal_pos st = Some p -> in_bounds (app_grid st) p = true)
    by (intros p Hp; injection Hp as <-; reflexivity).
  do 3 (split; [assumption|]).
  destruct (clear_path_idempotent st Hwf Hs Hg) as (st1 & E1 & E2 & _ & _ & _ & _ & H).
  exists st1. split; [exact E1|]. split; [exact E2|].
  rewrite H by (simpl; lia). reflexivity.
Defined.

(** ** Saving after a failed load *)

Lemma py_index_length (n : nat) : py_index n (Z.of_nat n) = None.
Proof.
  unfold py_index.
  replace ((0 <=? Z.of_nat n) && (Z.of_nat n <? Z.of_nat n)) with false
    by (symmetry; apply andb_false_iff; right; apply Z.ltb_ge; lia).
  replace ((- Z.of_nat n <=? Z.of_nat n) && (Z.of_nat n <? 0)) with false
    by (symmetry; apply andb_false_iff; right; apply Z.ltb_ge; lia).
  reflexivity.
Qed.

Lemma save_layout_short_grid (st : app) :
  Z.of_nat (length (grid (app_grid st))) < rows (app_grid st) -> 0 < cols (app_grid st) ->
  save_layout st = None.
Proof.
  intros Hlen Hc. unfold save_layout.
  rewrite mapM_None_2; [reflexivity|].
  apply Exists_exists. exists (Z.of_nat (length (grid (app_grid st)))).
  split; [apply list_elem_of_In, in_py_range; lia|].
  apply mapM_None_2. apply Exists_exists. exists 0.
  split; [apply list_elem_of_In, in_py_range; lia|].
  unfold get_cell, py_list_get. rewrite py_index_length. reflexivity.
Qed.

(** [load_layout] then [save_layout]: after a load that failed while
    reading the grid, with at least one column, saving the layout raises
    [IndexError] (the grid holds fewer rows than [rows] says), so the
    partial state cannot even be written back. *)
Theorem save_after_failed_load_raises (layout : json) (st : app) (nr nc : Z) :
  json_get layout "rows" = Some (JInt nr) -> json_get layout "cols" = Some (JInt nc) ->
  (read_rows layout nc (py_range nr) []).2 = false -> 0 < nc ->
  save_layout (load_layout layout st).2 = None.
Proof.
  intros Hr Hc Hfail Hnc. apply save_layout_short_grid.
  - unfold load_layout. rewrite Hr. cbn [json_int]. rewrite Hc. cbn [json_int].
    destruct (read_rows layout nc (py_range nr) []) as [cells ok] eqn:E.
    simpl in Hfail. subst ok.
    pose proof (read_rows_fail_length _ _ _ _ _ E) as Hlen.
    rewrite length_py_range in Hlen. simpl in Hlen |- *. lia.
  - unfold load_layout. rewrite Hr. cbn [json_int]. rewrite Hc. cbn [json_int].
    destruct (read_rows layout nc (py_range nr) []) as [cells ok] eqn:E.
    simpl in Hfail. subst ok. simpl. exact Hnc.
Qed.

Lemma save_after_failed_load_raises_witness :
  let layout := JObj [("rows", JInt 2); ("cols", JInt 2);
                      ("grid", JList [JList [JInt 0; JInt 1]; JList [JInt 0; JInt 9]])] in
  json_get layout "rows" = Some (JInt 2) /\ json_get layout "cols" = Some (JInt 2) /\
  (read_rows layout 2 (py_range 2) []).2 = false /\ 0 < 2 /\
  save_layout (load_layout layout (mkApp open_floor_2x3 (Some (0, 0)) None false BFS)).2 = None.
Proof.
  intros layout.
  assert (Hr : json_get layout "rows" = Some (JInt 2)) by reflexivity.
  assert (Hc : json_get layout "cols" = Some (JInt 2)) by reflexivity.
  assert (Hf : (read_rows layout 2 (py_range 2) []).2 = false) by reflexivity.
  assert (Hn : 0 < 2) by lia.
  do 4 (split; [assumption|]).
  exact (save_after_failed_load_raises layout (mkApp open_floor_2x3 (Some (0, 0)) None false BFS)
           2 2 Hr Hc Hf Hn).
Defined.

(** ** The open list of A* during a run *)

Section AStarOpenList.
Context (g : Grid) (s goal : coord).

Lemma filter_snd_nil (y : coord) (l : list entry) :
  y ∉ map snd l -> List.filter (fun e => bool_decide (e.2 = y)) l = [].
Proof.
  induction l as [|[k x] l IH]; intros Hy; [reflexivity|]. cbn [List.filter fst snd].
  rewrite (bool_decide_eq_false_2 (x = y)) by (intros ->; apply Hy; left).
  apply IH. intros H. apply Hy. right. exact H.
Qed.

Lemma filter_snd_single (y : coord) (l : list entry) :
  NoDup (map snd l) -> y ∈ map snd l ->
  exists k, List.filter (fun e => bool_decide (e.2 = y)) l = [(k, y)].
Proof.
  induction l as [|[k x] l IH]; intros Hnd Hy; [apply not_elem_of_nil in Hy; contradiction|].
  cbn [map] in Hnd, Hy. apply NoDup_cons in Hnd as [Hx Hnd]. cbn [List.filter fst snd].
  destruct (decide (x = y)) as [->|Hxy].
  - rewrite (bool_decide_eq_true_2 (y = y)) by reflexivity. exists k.
    rewrite filter_snd_nil by exact Hx. reflexivity.
  - rewrite (bool_decide_eq_false_2 (x = y)) by exact Hxy.
    apply elem_of_cons in Hy as [->|Hy]; [contradiction|]. apply IH; assumption.
Qed.

(** One neighbour examined: the open list stays free of repeated
    coordinates, and every entry [(k, x)] still has [k] at least the
    [g_score] of [x] plus its heuristic. *)
Lemma astar_visit_fbound (current y : coord) (st : RunAStar.state) :
  NoDup (map snd (RunAStar.open_set st)) ->
  (forall k x, (k, x) ∈ RunAStar.open_set st ->
     exists z, RunAStar.g_score st !! x = Some z /\ z + heuristic x goal <= k) ->
  NoDup (map snd (RunAStar.open_set (RunAStar.visit_neighbor goal current st y))) /\
  (forall k x, (k, x) ∈ RunAStar.open_set (RunAStar.visit_neighbor goal current st y) ->
     exists z, RunAStar.g_score (RunAStar.visit_neighbor goal current st y) !! x = Some z /\
               z + heuristic x goal <= k).
Proof.
  intros Hnd Hb.
  assert (Himp : forall tent, (forall k, (k, y) ∈ RunAStar.open_set st ->
                                tent + heuristic y goal <= k) ->
            NoDup (map snd (RunAStar.open_set (RunAStar.improve goal current y tent st))) /\
            (forall k x, (k, x) ∈ RunAStar.open_set (RunAStar.improve goal current y tent st) ->
               exists z, RunAStar.g_score (RunAStar.improve goal current y tent st) !! x = Some z /\
                         z + heuristic x goal <= k)).
  { intros tent Hy. unfold RunAStar.improve. case_decide as Hnew;
      cbn [RunAStar.open_set RunAStar.g_score].
    - split.
      + unfold heappush. rewrite map_app. apply NoDup_app. split; [exact Hnd|].
        split; [|constructor; [apply not_elem_of_nil | constructor]].
        intros x Hx Hx'. apply list_elem_of_singleton in Hx'. subst x. contradiction.
      + intros k x Hx. apply heappush_elem in Hx as [Hx|Hx].
        * injection Hx as -> ->. exists tent. rewrite lookup_insert_eq. split; [reflexivity|lia].
        * destruct (decide (x = y)) as [->|Hxy].
          -- exfalso. apply Hnew. apply list_elem_of_fmap. exists (k, y). split; [reflexivity|exact Hx].
          -- rewrite lookup_insert_ne by congruence. apply (Hb k x Hx).
    - split; [exact Hnd|]. intros k x Hx. destruct (decide (x = y)) as [->|Hxy].
      + exists tent. rewrite lookup_insert_eq. split; [reflexivity|]. apply Hy, Hx.
      + rewrite lookup_insert_ne by congruence. apply (Hb k x Hx). }
  unfold RunAStar.visit_neighbor. case_decide as Hcl; [split; assumption|].
  destruct (RunAStar.g_score st !! y) as [gy|] eqn:Eg.
  - destruct (Z.ltb_spec (get_score (RunAStar.g_score st) current + 1) gy) as [Hlt|Hge];
      [|split; assumption].
    apply Himp. intros k Hk. destruct (Hb k y Hk) as (z & Hz & Hzk).
    rewrite Eg in Hz. injection Hz as <-. lia.
  - apply Himp. intros k Hk. destruct (Hb k y Hk) as (z & Hz & _). congruence.
Qed.

Lemma astar_fold_fbound (current : coord) (l : list coord) (st : RunAStar.state) :
  NoDup (map snd (RunAStar.open_set st)) ->
  (forall k x, (k, x) ∈ RunAStar.open_set st ->
     exists z, RunAStar.g_score st !! x = Some z /\ z + heuristic x goal <= k) ->
  let st' := fold_left (RunAStar.visit_neighbor goal current) l st in
  NoDup (map snd (RunAStar.open_set st')) /\
  (forall k x, (k, x) ∈ RunAStar.open_set st' ->
     exists z, RunAStar.g_score st' !! x = Some z /\ z + heuristic x goal <= k).
Proof.
  revert st. induction l as [|y l IH]; intros st Hnd Hb; [split; assumption|].
  cbn [fold_left]. destruct (astar_visit_fbound current y st Hnd Hb) as [Hnd' Hb'].
  apply IH; assumption.
Qed.

(** Taking the least entry off the open list keeps the bound; the start's
    entry [(0, s)], pushed with priority [0], is the one exception, and it
    is alone in the initial open list. *)
Lemma astar_pop_fbound (st0 : RunAStar.state) (m : entry) (rest : list entry)
    (C : gset coord) (cf : gmap coord coord) (fs : gmap coord Z) (nv ne : nat) :
  NoDup (map snd (RunAStar.open_set st0)) ->
  ((forall k x, (k, x) ∈ RunAStar.open_set st0 ->
      exists z, RunAStar.g_score st0 !! x = Some z /\ z + heuristic x goal <= k) \/
   RunAStar.open_set st0 = [(0, s)]) ->
  heappop (RunAStar.open_set st0) = Some (m, rest) ->
  NoDup (map snd rest) /\
  (forall k x, (k, x) ∈ rest ->
     exists z, RunAStar.g_score st0 !! x = Some z /\ z + heuristic x goal <= k).
Proof.
  intros Hnd Hb Hpop.
  destruct (heappop_spec _ _ _ Hpop) as [Hperm _].
  destruct (heappop_elem _ _ _ Hpop) as (Hel & Hlen & _).
  split.
  - assert (H : NoDup (map snd (m :: rest))).
    { rewrite <- Hperm. exact Hnd. }
    cbn [map] in H. apply NoDup_cons in H as [_ H]. exact H.
  - intros k x Hx. destruct Hb as [Hb|Hinit].
    + apply Hb. apply Hel. right. exact Hx.
    + rewrite Hinit in Hlen. simpl in Hlen. destruct rest; [|discriminate Hlen].
      apply not_elem_of_nil in Hx. contradiction.
Qed.

Lemma astar_reach_fbound (st : RunAStar.state) :
  reachable (RunAStar.step g goal) (RunAStar.init s goal) st ->
  NoDup (map snd (RunAStar.open_set st)) /\
  ((forall k x, (k, x) ∈ RunAStar.open_set st ->
      exists z, RunAStar.g_score st !! x = Some z /\ z + heuristic x goal <= k) \/
   RunAStar.open_set st = [(0, s)]).
Proof.
  intros Hr. induction Hr as [|st1 st2 _ [Hnd Hb] Hstep].
  - split; [constructor; [apply not_elem_of_nil | constructor]|]. right. reflexivity.
  - unfold RunAStar.step in Hstep.
    destruct (heappop (RunAStar.open_set st1)) as [[[f c] rest]|] eqn:Ep; [|discriminate].
    destruct (decide (c = goal)); [discriminate|]. injection Hstep as <-.
    destruct (astar_pop_fbound st1 (f, c) rest ({[c]} ∪ RunAStar.closed_set st1)
                (RunAStar.came_from st1) (RunAStar.f_score st1) (S (RunAStar.n_visited st1))
                (RunAStar.n_explored st1) Hnd Hb Ep) as [Hnd1 Hb1].
    unfold RunAStar.expand.
    destruct (astar_fold_fbound c (get_neighbors g c)
                (RunAStar.mkState rest ({[c]} ∪ RunAStar.closed_set st1) (RunAStar.came_from st1)
                   (RunAStar.g_score st1) (RunAStar.f_score st1) (S (RunAStar.n_visited st1))
                   (RunAStar.n_explored st1)) Hnd1 Hb1) as [Hnd2 Hb2].
    split; [exact Hnd2|]. left. exact Hb2.
Qed.

End AStarOpenList.

Lemma astar_iterate_reachable (g : Grid) (goal : coord) (st0 : RunAStar.state) :
  forall n st, reachable (RunAStar.step g goal) st0 st ->
  reachable (RunAStar.step g goal) st0 (astar_iterate g goal n st).
Proof.
  induction n as [|n IH]; intros st Hr; [exact Hr|]. cbn [astar_iterate].
  destruct (RunAStar.step g goal st) as [st'|r] eqn:E; [|exact Hr].
  apply IH. eapply reach_step; [exact Hr | exact E].
Qed.

(** C3 (as the code has it): in a run of A*, take the iteration that pops
    [current] (not the goal) and the moment its [for] loop reaches
    [neighbor] in [get_neighbors(current)]. If some entry of the open list
    already carries [neighbor], the open list and [nodes_explored] are
    left as they are. If moreover [neighbor] is not closed and the new
    path is cheaper, its [g_score], [f_score] and [came_from] are updated
    to the new path, and the open list keeps exactly one entry for
    [neighbor]: the old one, whose priority is larger than the new
    [f_score]. *)
Theorem astar_open_coordinate_not_repushed (g : Grid) (s goal : coord)
    (st0 : RunAStar.state) (f : Z) (current : coord) (rest : list entry)
    (pre post : list coord) (neighbor : coord) (st : RunAStar.state) :
  reachable (RunAStar.step g goal) (RunAStar.init s goal) st0 ->
  heappop (RunAStar.open_set st0) = Some ((f, current), rest) ->
  current <> goal ->
  get_neighbors g current = pre ++ neighbor :: post ->
  st = fold_left (RunAStar.visit_neighbor goal current) pre
         (RunAStar.mkState rest ({[current]} ∪ RunAStar.closed_set st0)
            (RunAStar.came_from st0) (RunAStar.g_score st0) (RunAStar.f_score st0)
            (S (RunAStar.n_visited st0)) (RunAStar.n_explored st0)) ->
  neighbor ∈ map snd (RunAStar.open_set st) ->
  let st' := RunAStar.visit_neighbor goal current st neighbor in
  RunAStar.open_set st' = RunAStar.open_set st /\
  RunAStar.n_explored st' = RunAStar.n_explored st /\
  (neighbor ∉ RunAStar.closed_set st ->
   forall gn, RunAStar.g_score st !! neighbor = Some gn ->
   get_score (RunAStar.g_score st) current + 1 < gn ->
   RunAStar.g_score st' !! neighbor = Some (get_score (RunAStar.g_score st) current + 1) /\
   RunAStar.f_score st' !! neighbor =
     Some (get_score (RunAStar.g_score st) current + 1 + heuristic neighbor goal) /\
   RunAStar.came_from st' !! neighbor = Some current /\
   exists k, List.filter (fun e => bool_decide (e.2 = neighbor)) (RunAStar.open_set st') =
               [(k, neighbor)] /\
             get_score (RunAStar.g_score st) current + 1 + heuristic neighbor goal < k).
Proof.
  intros Hr Hpop _ _ Est Hin st'.
  destruct (astar_reach_fbound g s goal st0 Hr) as [Hnd0 Hb0].
  destruct (astar_pop_fbound s goal st0 (f, current) rest ({[current]} ∪ RunAStar.closed_set st0)
              (RunAStar.came_from st0) (RunAStar.f_score st0) (S (RunAStar.n_visited st0))
              (RunAStar.n_explored st0) Hnd0 Hb0 Hpop) as [Hnd1 Hb1].
  destruct (astar_fold_fbound goal current pre
              (RunAStar.mkState rest ({[current]} ∪ RunAStar.closed_set st0)
                 (RunAStar.came_from st0) (RunAStar.g_score st0) (RunAStar.f_score st0)
                 (S (RunAStar.n_visited st0)) (RunAStar.n_explored st0)) Hnd1 Hb1)
    as [Hnd Hb].
  rewrite <- Est in Hnd, Hb.
  destruct (filter_snd_single neighbor (RunAStar.open_set st) Hnd Hin) as [k Hk].
  assert (Hkin : (k, neighbor) ∈ RunAStar.open_set st).
  { apply list_elem_of_In. apply (proj1 (filter_In (fun e => bool_decide (e.2 = neighbor))
                                           (k, neighbor) (RunAStar.open_set st))).
    rewrite Hk. left. reflexivity. }
  subst st'. unfold RunAStar.visit_neighbor.
  case_decide as Hcl.
  - split; [reflexivity|split; [reflexivity|]]. intros Hn; contradiction.
  - destruct (RunAStar.g_score st !! neighbor) as [gn0|] eqn:Eg.
    + destruct (Z.ltb_spec (get_score (RunAStar.g_score st) current + 1) gn0) as [Hlt|Hge].
      * unfold RunAStar.improve. rewrite decide_False by (intros H; exact (H Hin)).
        cbn [RunAStar.open_set RunAStar.n_explored RunAStar.g_score RunAStar.f_score
             RunAStar.came_from].
        split; [reflexivity|]. split; [reflexivity|].
        intros _ gn Hgn _. try rewrite Eg in Hgn. injection Hgn as <-.
        split; [apply lookup_insert_eq|]. split; [apply lookup_insert_eq|].
        split; [apply lookup_insert_eq|].
        exists k. split; [exact Hk|].
        destruct (Hb k neighbor Hkin) as (z & Hz & Hzk). rewrite Eg in Hz.
        injection Hz as <-. lia.
      * split; [reflexivity|]. split; [reflexivity|].
        intros _ gn Hgn Hlt. try rewrite Eg in Hgn. injection Hgn as <-. lia.
    + destruct (Hb k neighbor Hkin) as (z & Hz & _). congruence.
Qed.

Lemma astar_open_coordinate_not_repushed_witness :
  let st0 := astar_iterate walled_corner_grid (0, 0) 6 (RunAStar.init (2, 3) (0, 0)) in
  let st := fold_left (RunAStar.visit_neighbor (0, 0) (2, 2)) [(1, 2); (2, 3)]
              (RunAStar.mkState [(7, (2, 1))] ({[(2, 2)]} ∪ RunAStar.closed_set st0)
                 (RunAStar.came_from st0) (RunAStar.g_score st0) (RunAStar.f_score st0)
                 (S (RunAStar.n_visited st0)) (RunAStar.n_explored st0)) in
  let st' := RunAStar.visit_neighbor (0, 0) (2, 2) st (2, 1) in
  heappop (RunAStar.open_set st0) = Some ((5, (2, 2)), [(7, (2, 1))]) /\
  get_neighbors walled_corner_grid (2, 2) = [(1, 2); (2, 3)] ++ [(2, 1)] /\
  (2, 1) ∈ map snd (RunAStar.open_set st) /\
  RunAStar.open_set st' = RunAStar.open_set st /\
  RunAStar.f_score st' !! (2, 1) = Some 5 /\
  exists k, List.filter (fun e => bool_decide (e.2 = (2, 1))) (RunAStar.open_set st') =
              [(k, (2, 1))] /\ 5 < k.
Proof.
  intros st0 st st'.
  assert (Hr : reachable (RunAStar.step walled_corner_grid (0, 0)) (RunAStar.init (2, 3) (0, 0)) st0)
    by (apply astar_iterate_reachable, reach_init).
  assert (Hpop : heappop (RunAStar.open_set st0) = Some ((5, (2, 2)), [(7, (2, 1))]))
    by (vm_compute; reflexivity).
  assert (Hnb : get_neighbors walled_corner_grid (2, 2) = [(1, 2); (2, 3)] ++ [(2, 1)])
    by (vm_compute; reflexivity).
  assert (Hin : (2, 1) ∈ map snd (RunAStar.open_set st))
    by (apply (bool_decide_eq_true_1 _); vm_compute; reflexivity).
  assert (Hcl : (2, 1) ∉ RunAStar.closed_set st)
    by (apply (bool_decide_eq_true_1 _); vm_compute; reflexivity).
  assert (Hg : RunAStar.g_score st !! (2, 1) = Some 4) by (vm_compute; reflexivity).
  assert (Htent : get_score (RunAStar.g_score st) (2, 2) + 1 = 2) by (vm_compute; reflexivity).
  destruct (astar_open_coordinate_not_repushed walled_corner_grid (2, 3) (0, 0) st0 5 (2, 2)
              [(7, (2, 1))] [(1, 2); (2, 3)] [] (2, 1) st Hr Hpop ltac:(discriminate) Hnb
              eq_refl Hin) as (Hopen & _ & Himp).
  destruct (Himp Hcl 4 Hg ltac:(rewrite Htent; lia)) as (_ & Hf & _ & k & Hk & Hlt).
  rewrite Htent in Hf, Hlt.
  do 3 (split; [assumption|]). split; [exact Hopen|]. split; [exact Hf|].
  exists k. split; [exact Hk | exact Hlt].
Defined.
